(** * The text front end of war: scanner (text/lex.go) and parser driver

    A shallow embedding of the lexer of the WebAssembly text format found in
    [text/lex.go] and of the parser driver [Parser.Parse], followed by the
    properties established about them.

    Conventions.
    - The input is a [list byte]; runes are integers ([Z]).
    - [pos], [start] and [width] are Go [int]s that index the input; they are
      naturals here.  The only subtraction, in [backup], always directly
      follows a [next], which leaves [width <= pos] (lemma [next_width_le]).
    - The token channel (buffered, capacity 3) is a FIFO list: it never
      holds more than one token (lemma [nextToken_channel]), so a send never
      blocks.
    - Every unbounded [for] loop takes a fuel argument and answers [None]
      when the fuel runs out; [None] never means anything else. *)

From Stdlib Require Import ZArith Zbitwise List Lia Bool String Ascii.
From Stdlib Require Import Strings.Byte.
Import ListNotations.
Local Open Scope string_scope.
Local Open Scope list_scope.
Local Open Scope Z_scope.

(** ** Bytes and runes *)

Definition rune := Z.

Definition b2z (b : byte) : Z := Z.of_N (Byte.to_N b).

Definition z2b (z : Z) : byte :=
  match Byte.of_N (Z.to_N (z mod 256)) with
  | Some b => b
  | None => x00
  end.

Definition bytes (s : string) : list byte := list_byte_of_string s.

(** The byte of a one-character literal such as ['('] in the source. *)
Definition chr (s : string) : rune :=
  match bytes s with
  | b :: _ => b2z b
  | [] => 0
  end.

Definition quote : rune := 34.       (* the double quote *)
Definition backslash : rune := 92.   (* the backslash *)
Definition newline : rune := 10.     (* line feed *)
Definition creturn : rune := 13.     (* carriage return *)
Definition tab : rune := 9.          (* horizontal tab *)

(** *** unicode/utf8 (Go standard library)

    [DecodeRune] and the rune-to-string conversion follow the library's
    documented behaviour and its table-driven implementation: an empty input
    gives [(RuneError, 0)], an invalid or truncated encoding
    [(RuneError, 1)]; over-long forms, surrogates and values above
    U+10FFFF are invalid. *)

Definition RuneError : rune := 65533.
Definition MaxRune : rune := 1114111.

Definition between (lo x hi : Z) : bool := (lo <=? x) && (x <=? hi).

(** Size of the encoding announced by the first byte and the range accepted
    for the second byte; [None] for a byte that cannot start a sequence. *)
Definition first (p0 : Z) : option (nat * (Z * Z)) :=
  if between 194 p0 223 then Some (2%nat, (128, 191))
  else if p0 =? 224 then Some (3%nat, (160, 191))
  else if between 225 p0 236 then Some (3%nat, (128, 191))
  else if p0 =? 237 then Some (3%nat, (128, 159))
  else if between 238 p0 239 then Some (3%nat, (128, 191))
  else if p0 =? 240 then Some (4%nat, (144, 191))
  else if between 241 p0 243 then Some (4%nat, (128, 191))
  else if p0 =? 244 then Some (4%nat, (128, 143))
  else None.

Definition cont (b : byte) : Z := Z.land (b2z b) 63.

Definition DecodeRune (p : list byte) : rune * nat :=
  match p with
  | [] => (RuneError, 0%nat)
  | b0 :: p1 =>
    let p0 := b2z b0 in
    if p0 <? 128 then (p0, 1%nat)
    else
      match first p0 with
      | None => (RuneError, 1%nat)
      | Some (sz, (lo, hi)) =>
        if (List.length p <? sz)%nat then (RuneError, 1%nat)
        else
          match p1 with
          | [] => (RuneError, 1%nat)
          | b1 :: p2 =>
            if negb (between lo (b2z b1) hi) then (RuneError, 1%nat)
            else if (sz <=? 2)%nat then
              (Z.lor (Z.shiftl (Z.land p0 31) 6) (cont b1), 2%nat)
            else
              match p2 with
              | [] => (RuneError, 1%nat)
              | b2 :: p3 =>
                if negb (between 128 (b2z b2) 191) then (RuneError, 1%nat)
                else if (sz <=? 3)%nat then
                  (Z.lor (Z.lor (Z.shiftl (Z.land p0 15) 12)
                                (Z.shiftl (cont b1) 6)) (cont b2), 3%nat)
                else
                  match p3 with
                  | [] => (RuneError, 1%nat)
                  | b3 :: _ =>
                    if negb (between 128 (b2z b3) 191) then (RuneError, 1%nat)
                    else
                      (Z.lor (Z.lor (Z.lor (Z.shiftl (Z.land p0 7) 18)
                                           (Z.shiftl (cont b1) 12))
                                    (Z.shiftl (cont b2) 6)) (cont b3), 4%nat)
                  end
              end
          end
      end
  end.

(** [string(rune(v))], also what [strings.Builder.WriteRune] appends: the
    UTF-8 encoding of [r], or that of U+FFFD when [r] is not a valid code
    point. *)
Definition encode3 (r : rune) : list byte :=
  [ z2b (Z.lor 224 (Z.shiftr r 12));
    z2b (Z.lor 128 (Z.land (Z.shiftr r 6) 63));
    z2b (Z.lor 128 (Z.land r 63)) ].

Definition EncodeRune (r : rune) : list byte :=
  if between 0 r 127 then [z2b r]
  else if between 0 r 2047 then
    [ z2b (Z.lor 192 (Z.shiftr r 6)); z2b (Z.lor 128 (Z.land r 63)) ]
  else if (r <? 0) || (MaxRune <? r) || between 55296 r 57343 then
    encode3 RuneError
  else if r <=? 65535 then encode3 r
  else
    [ z2b (Z.lor 240 (Z.shiftr r 18));
      z2b (Z.lor 128 (Z.land (Z.shiftr r 12) 63));
      z2b (Z.lor 128 (Z.land (Z.shiftr r 6) 63));
      z2b (Z.lor 128 (Z.land r 63)) ].

(** *** strings.IndexRune(valid, r) >= 0

    Every [valid] set of the lexer is ASCII and holds no NUL, so the test
    succeeds exactly when [r] is the value of one of its bytes. *)
Definition IndexRune (valid : string) (r : rune) : bool :=
  existsb (fun b => b2z b =? r) (bytes valid).

(** *** strconv.ParseUint(s, 16, 16), error ignored

    The callers discard the error, so only the value is kept: 0 on a syntax
    error (empty input, a character that is no hex digit), the maximum
    65535 as soon as the value exceeds 16 bits. *)
Definition hexval (r : rune) : option Z :=
  if between 48 r 57 then Some (r - 48)
  else if between 97 r 102 then Some (r - 97 + 10)
  else if between 65 r 70 then Some (r - 65 + 10)
  else None.

Fixpoint ParseUint_loop (s : list rune) (n : Z) : Z :=
  match s with
  | [] => n
  | c :: s' =>
    match hexval c with
    | None => 0
    | Some d =>
      let n1 := n * 16 + d in
      if 65535 <? n1 then 65535 else ParseUint_loop s' n1
    end
  end.

Definition ParseUint16 (s : list rune) : Z :=
  match s with
  | [] => 0
  | _ => ParseUint_loop s 0
  end.

(** ** Character classes (text/lex.go) *)

Definition digit := "0123456789".
Definition letter := "abcdefghijklmnopqrstuvwxyzABCDEFGHIJKLMNOPQRSTUVWXYZ".
Definition symbol := "!#$%&'*+-./:<=>?@\^_`|~".
Definition sign := "+-".
Definition keyword := (letter ++ digit ++ "_.:=")%string.
Definition idChar := (digit ++ letter ++ symbol)%string.
Definition hexDigit := (digit ++ "abcdefABCDEF")%string.

Definition eof : rune := 0.

Definition isLowercaseLetter (r : rune) : bool := (97 <=? r) && (r <=? 122).
Definition isHexDigit (r : rune) : bool := IndexRune hexDigit r.
Definition isSpace (r : rune) : bool :=
  (r =? 32) || (r =? newline) || (r =? tab) || (r =? creturn).

(** ** Tokens *)

Inductive tokenKind : Set :=
  | tokenError | tokenEOF | tokenLParen | tokenRParen | tokenIdent
  | tokenNumber | tokenString | tokenNumtype | tokenVectype | tokenReftype
  | tokenOffsetEq | tokenAlignEq | tokenKeyword | tokenModule | tokenType
  | tokenFunc | tokenParam | tokenResult | tokenBlock | tokenLoop | tokenIf
  | tokenThen | tokenElse | tokenEnd | tokenUnreachable | tokenNop | tokenBr
  | tokenBrIf | tokenBrTable | tokenReturn | tokenCall | tokenCallIndirect
  | tokenDrop | tokenSelect | tokenLocalGet | tokenLocalTee | tokenLocalSet
  | tokenGlobalGet | tokenGlobalSet | tokenTableGet | tokenTableSet
  | tokenTableSize | tokenTableGrow | tokenTableFill | tokenTableCopy
  | tokenTableInit | tokenElemDrop | tokenMemorySize | tokenMemoryGrow
  | tokenMemoryFill | tokenMemoryCopy | tokenMemoryInit | tokenDataDrop
  | tokenI32Load | tokenI64Load | tokenF32Load | tokenF64Load | tokenI32Store
  | tokenI64Store | tokenF32Store | tokenF64Store | tokenI32Load8U
  | tokenI32Load8S | tokenI32Load16U | tokenI32Load16S | tokenI64Load8U
  | tokenI64Load8S | tokenI64Load16U | tokenI64Load16S | tokenI64Load32U
  | tokenI64Load32S | tokenI32Store8 | tokenI32Store16 | tokenI64Store8
  | tokenI64Store16 | tokenI64Store32 | tokenV128Load | tokenV128Store
  | tokenV128Load8x8U | tokenV128Load8x8S | tokenV128Load16x4U
  | tokenV128Load16x4S | tokenV128Load32x2U | tokenV128Load32x2S
  | tokenV128Load8Splat | tokenV128Load16Splat | tokenV128Load32Splat
  | tokenV128Load64Splat | tokenV128Load32Zero | tokenV128Load64Zero
  | tokenV128Load8Lane | tokenV128Load16Lane | tokenV128Load32Lane
  | tokenV128Load64Lane | tokenV128Store8Lane | tokenV128Store16Lane
  | tokenV128Store32Lane | tokenV128Store64Lane | tokenI32Const
  | tokenI64Const | tokenF32Const | tokenF64Const | tokenV128Const
  | tokenRefNull | tokenRefFunc | tokenRefExtern | tokenRefIsNull
  | tokenI32Clz | tokenI32Ctz | tokenI32Popcnt | tokenI32Extend8S
  | tokenI32Extend16S | tokenI64Clz | tokenI64Ctz | tokenI64Popcnt
  | tokenI64Extend8S | tokenI64Extend16S | tokenI64Extend32S | tokenF32Neg
  | tokenF32Abs | tokenF32Sqrt | tokenF32Ceil | tokenF32Floor | tokenF32Trunc
  | tokenF32Nearest | tokenF64Neg | tokenF64Abs | tokenF64Sqrt | tokenF64Ceil
  | tokenF64Floor | tokenF64Trunc | tokenF64Nearest | tokenI32Add
  | tokenI32Sub | tokenI32Mul | tokenI32DivU | tokenI32DivS | tokenI32RemU
  | tokenI32RemS | tokenI32And | tokenI32Or | tokenI32Xor | tokenI32Shl
  | tokenI32ShrU | tokenI32ShrS | tokenI32Rotl | tokenI32Rotr | tokenI64Add
  | tokenI64Sub | tokenI64Mul | tokenI64DivU | tokenI64DivS | tokenI64RemU
  | tokenI64RemS | tokenI64And | tokenI64Or | tokenI64Xor | tokenI64Shl
  | tokenI64ShrU | tokenI64ShrS | tokenI64Rotl | tokenI64Rotr | tokenF32Add
  | tokenF32Sub | tokenF32Mul | tokenF32Div | tokenF32Min | tokenF32Max
  | tokenF32Copysign | tokenF64Add | tokenF64Sub | tokenF64Mul | tokenF64Div
  | tokenF64Min | tokenF64Max | tokenF64Copysign | tokenI32Eqz | tokenI64Eqz
  | tokenI32Eq | tokenI32Ne | tokenI32LtU | tokenI32LtS | tokenI32LeU
  | tokenI32LeS | tokenI32GtU | tokenI32GtS | tokenI32GeU | tokenI32GeS
  | tokenI64Eq | tokenI64Ne | tokenI64LtU | tokenI64LtS | tokenI64LeU
  | tokenI64LeS | tokenI64GtU | tokenI64GtS | tokenI64GeU | tokenI64GeS
  | tokenF32Eq | tokenF32Ne | tokenF32Lt | tokenF32Le | tokenF32Gt
  | tokenF32Ge | tokenF64Eq | tokenF64Ne | tokenF64Lt | tokenF64Le
  | tokenF64Gt | tokenF64Ge | tokenI32WrapI64 | tokenI64ExtendI32S
  | tokenI64ExtendI32U | tokenF32DemoteF64 | tokenF64PromoteF32
  | tokenI32TruncF32U | tokenI32TruncF32S | tokenI64TruncF32U
  | tokenI64TruncF32S | tokenI32TruncF64U | tokenI32TruncF64S
  | tokenI64TruncF64U | tokenI64TruncF64S | tokenI32TruncSatF32U
  | tokenI32TruncSatF32S | tokenI64TruncSatF32U | tokenI64TruncSatF32S
  | tokenI32TruncSatF64U | tokenI32TruncSatF64S | tokenI64TruncSatF64U
  | tokenI64TruncSatF64S | tokenF32ConvertI32U | tokenF32ConvertI32S
  | tokenF64ConvertI32U | tokenF64ConvertI32S | tokenF32ConvertI64U
  | tokenF32ConvertI64S | tokenF64ConvertI64U | tokenF64ConvertI64S
  | tokenF32ReinterpretI32 | tokenF64ReinterpretI64 | tokenI32ReinterpretF32
  | tokenI64ReinterpretF64 | tokenV128Not | tokenV128And | tokenV128Andnot
  | tokenV128Or | tokenV128Xor | tokenV128Bitselect | tokenV128AnyTrue
  | tokenI8x16Neg | tokenI16x8Neg | tokenI32x4Neg | tokenI64x2Neg
  | tokenI8x16Abs | tokenI16x8Abs | tokenI32x4Abs | tokenI64x2Abs
  | tokenI8x16Popcnt | tokenI8x16AvgrU | tokenI16x8AvgrU | tokenF32x4Neg
  | tokenF64x2Neg | tokenF32x4Abs | tokenF64x2Abs | tokenF32x4Sqrt
  | tokenF64x2Sqrt | tokenF32x4Ceil | tokenF64x2Ceil | tokenF32x4Floor
  | tokenF64x2Floor | tokenF32x4Trunc | tokenF64x2Trunc | tokenF32x4Nearest
  | tokenF64x2Nearest | tokenI32x4TruncSatF32x4U | tokenI32x4TruncSatF32x4S
  | tokenI32x4TruncSatF64x2UZero | tokenI32x4TruncSatF64x2SZero
  | tokenF64x2PromoteLowF32x4 | tokenF32x4DemoteF64x2Zero
  | tokenF32x4ConvertI32x4U | tokenF32x4ConvertI32x4S
  | tokenF64x2ConvertLowI32x4U | tokenF64x2ConvertLowI32x4S
  | tokenI16x8ExtaddPairwiseI8x16U | tokenI16x8ExtaddPairwiseI8x16S
  | tokenI32x4ExtaddPairwiseI16x8U | tokenI32x4ExtaddPairwiseI16x8S
  | tokenI8x16Eq | tokenI16x8Eq | tokenI32x4Eq | tokenI64x2Eq | tokenI8x16Ne
  | tokenI16x8Ne | tokenI32x4Ne | tokenI64x2Ne | tokenI8x16LtU | tokenI8x16LtS
  | tokenI16x8LtU | tokenI16x8LtS | tokenI32x4LtU | tokenI32x4LtS
  | tokenI64x2LtS | tokenI8x16LeU | tokenI8x16LeS | tokenI16x8LeU
  | tokenI16x8LeS | tokenI32x4LeU | tokenI32x4LeS | tokenI64x2LeS
  | tokenI8x16GtU | tokenI8x16GtS | tokenI16x8GtU | tokenI16x8GtS
  | tokenI32x4GtU | tokenI32x4GtS | tokenI64x2GtS | tokenI8x16GeU
  | tokenI8x16GeS | tokenI16x8GeU | tokenI16x8GeS | tokenI32x4GeU
  | tokenI32x4GeS | tokenI64x2GeS | tokenF32x4Eq | tokenF64x2Eq | tokenF32x4Ne
  | tokenF64x2Ne | tokenF32x4Lt | tokenF64x2Lt | tokenF32x4Le | tokenF64x2Le
  | tokenF32x4Gt | tokenF64x2Gt | tokenF32x4Ge | tokenF64x2Ge
  | tokenI8x16Swizzle | tokenI8x16Add | tokenI16x8Add | tokenI32x4Add
  | tokenI64x2Add | tokenI8x16Sub | tokenI16x8Sub | tokenI32x4Sub
  | tokenI64x2Sub | tokenI16x8Mul | tokenI32x4Mul | tokenI64x2Mul
  | tokenI8x16AddSatU | tokenI8x16AddSatS | tokenI16x8AddSatU
  | tokenI16x8AddSatS | tokenI8x16SubSatU | tokenI8x16SubSatS
  | tokenI16x8SubSatU | tokenI16x8SubSatS | tokenI32x4DotI16x8S
  | tokenI8x16MinU | tokenI16x8MinU | tokenI32x4MinU | tokenI8x16MinS
  | tokenI16x8MinS | tokenI32x4MinS | tokenI8x16MaxU | tokenI16x8MaxU
  | tokenI32x4MaxU | tokenI8x16MaxS | tokenI16x8MaxS | tokenI32x4MaxS
  | tokenF32x4Add | tokenF64x2Add | tokenF32x4Sub | tokenF64x2Sub
  | tokenF32x4Mul | tokenF64x2Mul | tokenF32x4Div | tokenF64x2Div
  | tokenF32x4Min | tokenF64x2Min | tokenF32x4Max | tokenF64x2Max
  | tokenF32x4Pmin | tokenF64x2Pmin | tokenF32x4Pmax | tokenF64x2Pmax
  | tokenI16x8Q15mulrSatS | tokenI8x16NarrowI16x8U | tokenI8x16NarrowI16x8S
  | tokenI16x8NarrowI32x4U | tokenI16x8NarrowI32x4S
  | tokenI16x8ExtendLowI8x16U | tokenI16x8ExtendLowI8x16S
  | tokenI16x8ExtendHighI8x16U | tokenI16x8ExtendHighI8x16S
  | tokenI32x4ExtendLowI16x8U | tokenI32x4ExtendLowI16x8S
  | tokenI32x4ExtendHighI16x8U | tokenI32x4ExtendHighI16x8S
  | tokenI64x2ExtendLowI32x4U | tokenI64x2ExtendLowI32x4S
  | tokenI64x2ExtendHighI32x4U | tokenI64x2ExtendHighI32x4S
  | tokenI16x8ExtmulLowI8x16U | tokenI16x8ExtmulLowI8x16S
  | tokenI16x8ExtmulHighI8x16U | tokenI16x8ExtmulHighI8x16S
  | tokenI32x4ExtmulLowI16x8U | tokenI32x4ExtmulLowI16x8S
  | tokenI32x4ExtmulHighI16x8U | tokenI32x4ExtmulHighI16x8S
  | tokenI64x2ExtmulLowI32x4U | tokenI64x2ExtmulLowI32x4S
  | tokenI64x2ExtmulHighI32x4U | tokenI64x2ExtmulHighI32x4S
  | tokenI8x16AllTrue | tokenI16x8AllTrue | tokenI32x4AllTrue
  | tokenI64x2AllTrue | tokenI8x16Bitmask | tokenI16x8Bitmask
  | tokenI32x4Bitmask | tokenI64x2Bitmask | tokenI8x16Shl | tokenI16x8Shl
  | tokenI32x4Shl | tokenI64x2Shl | tokenI8x16ShrU | tokenI8x16ShrS
  | tokenI16x8ShrU | tokenI16x8ShrS | tokenI32x4ShrU | tokenI32x4ShrS
  | tokenI64x2ShrU | tokenI64x2ShrS | tokenI8x16Shuffle | tokenI8x16Splat
  | tokenI16x8Splat | tokenI32x4Splat | tokenI64x2Splat | tokenF32x4Splat
  | tokenF64x2Splat | tokenI8x16ExtractLaneU | tokenI8x16ExtractLaneS
  | tokenI16x8ExtractLaneU | tokenI16x8ExtractLaneS | tokenI32x4ExtractLane
  | tokenI64x2ExtractLane | tokenF32x4ExtractLane | tokenF64x2ExtractLane
  | tokenI8x16ReplaceLane | tokenI16x8ReplaceLane | tokenI32x4ReplaceLane
  | tokenI64x2ReplaceLane | tokenF32x4ReplaceLane | tokenF64x2ReplaceLane
  | tokenStart | tokenLocal | tokenGlobal | tokenTable | tokenMemory
  | tokenElem | tokenData | tokenDeclare | tokenOffset | tokenItem
  | tokenImport | tokenExport | tokenBin | tokenQuote | tokenScript
  | tokenRegister | tokenInvoke | tokenGet | tokenAssertMalformed
  | tokenAssertInvalid | tokenAssertUnlinkable | tokenAssertReturn
  | tokenAssertTrap | tokenAssertExhaustion | tokenNanCanonical
  | tokenNanArithmetic | tokenInput | tokenOuput | tokenExtern
  | tokenExternRef | tokenFuncRef | tokenMut.

(** The text of an error token is built by [fmt.Sprintf]; the format is kept
    as a constructor and its arguments unformatted. *)
Inductive message : Set :=
  | unknown_token (r : rune)          (* "unknown token: %q" *)
  | expected_semicolon (r : rune)     (* "expected ';' but got: %q" *)
  | empty_identifier                  (* "empty identifier" *)
  | invalid_escape (span : list byte) (* "invalid escape sequence: %q" *)
  | unclosed_quote (span : list byte) (* "unclosed quote: %q" *).

Inductive payload : Set :=
  | Bytes (b : list byte)
  | Text (m : message).

Record token : Set := mkToken { kind : tokenKind; val : payload }.

(** The zero value of [token], received from a closed channel. *)
Definition zero_token : token := mkToken tokenError (Bytes []).

(** The keyword table [key]. *)
Definition key : list (string * tokenKind) :=
  [ ("i32", tokenNumtype); ("i64", tokenNumtype); ("f32", tokenNumtype);
    ("f64", tokenNumtype); ("v128", tokenVectype);
    ("unreachable", tokenUnreachable); ("nop", tokenNop); ("br", tokenBr);
    ("br_if", tokenBrIf); ("br_table", tokenBrTable); ("return", tokenReturn);
    ("call", tokenCall); ("call_indirect", tokenCallIndirect);
    ("drop", tokenDrop); ("module", tokenModule); ("type", tokenType);
    ("func", tokenFunc); ("param", tokenParam); ("result", tokenResult);
    ("block", tokenBlock); ("loop", tokenLoop); ("if", tokenIf);
    ("else", tokenElse); ("end", tokenEnd); ("select", tokenSelect);
    ("offset=", tokenOffsetEq); ("align=", tokenAlignEq);
    ("memory.size", tokenMemorySize); ("memory.grow", tokenMemoryGrow);
    ("memory.fill", tokenMemoryFill); ("memory.copy", tokenMemoryCopy);
    ("memory.init", tokenMemoryInit); ("data.drop", tokenDataDrop);
    ("local.get", tokenLocalGet); ("local.set", tokenLocalSet);
    ("local.tee", tokenLocalTee); ("global.get", tokenGlobalGet);
    ("global.set", tokenGlobalSet); ("table.get", tokenTableGet);
    ("table.set", tokenTableSet); ("table.size", tokenTableSize);
    ("table.grow", tokenTableGrow); ("table.fill", tokenTableFill);
    ("table.copy", tokenTableCopy); ("table.init", tokenTableInit);
    ("elem.drop", tokenElemDrop); ("start", tokenStart);
    ("local", tokenLocal); ("global", tokenGlobal); ("table", tokenTable);
    ("memory", tokenMemory); ("elem", tokenElem); ("data", tokenData);
    ("declare", tokenDeclare); ("offset", tokenOffset); ("item", tokenItem);
    ("import", tokenImport); ("export", tokenExport); ("binary", tokenBin);
    ("quote", tokenQuote); ("script", tokenScript);
    ("register", tokenRegister); ("invoke", tokenInvoke); ("get", tokenGet);
    ("assert_malformed", tokenAssertMalformed);
    ("assert_invalid", tokenAssertInvalid);
    ("assert_unlinkable", tokenAssertUnlinkable);
    ("assert_return", tokenAssertReturn); ("assert_trap", tokenAssertTrap);
    ("assert_exhaustion", tokenAssertExhaustion);
    ("nan:canonical", tokenNanCanonical);
    ("nan:arithmetic", tokenNanArithmetic); ("input", tokenInput);
    ("output", tokenOuput); ("i32.load", tokenI32Load);
    ("i64.load", tokenI64Load); ("f32.load", tokenF32Load);
    ("f64.load", tokenF64Load); ("i32.store", tokenI32Store);
    ("i64.store", tokenI64Store); ("f32.store", tokenF32Store);
    ("f64.store", tokenF64Store); ("i32.load8_u", tokenI32Load8U);
    ("i32.load8_s", tokenI32Load8S); ("i32.load16_u", tokenI32Load16U);
    ("i32.load16_s", tokenI32Load16S); ("i64.load8_u", tokenI64Load8U);
    ("i64.load8_s", tokenI64Load8S); ("i64.load16_u", tokenI64Load16U);
    ("i64.load16_s", tokenI64Load16S); ("i64.load32_u", tokenI64Load32U);
    ("i64.load32_s", tokenI64Load32S); ("i32.store8", tokenI32Store8);
    ("i32.store16", tokenI32Store16); ("i64.store8", tokenI64Store8);
    ("i64.store16", tokenI64Store16); ("i64.store32", tokenI64Store32);
    ("v128.load", tokenV128Load); ("v128.store", tokenV128Store);
    ("v128.load8x8_u", tokenV128Load8x8U);
    ("v128.load8x8_s", tokenV128Load8x8S);
    ("v128.load16x4_u", tokenV128Load16x4U);
    ("v128.load16x4_s", tokenV128Load16x4S);
    ("v128.load32x2_u", tokenV128Load32x2U);
    ("v128.load32x2_s", tokenV128Load32x2S);
    ("v128.load8_splat", tokenV128Load8Splat);
    ("v128.load16_splat", tokenV128Load16Splat);
    ("v128.load32_splat", tokenV128Load32Splat);
    ("v128.load64_splat", tokenV128Load64Splat);
    ("v128.load32_zero", tokenV128Load32Zero);
    ("v128.load64_zero", tokenV128Load64Zero);
    ("v128.load8_lane", tokenV128Load8Lane);
    ("v128.load16_lane", tokenV128Load16Lane);
    ("v128.load32_lane", tokenV128Load32Lane);
    ("v128.load64_lane", tokenV128Load64Lane);
    ("v128.store8_lane", tokenV128Store8Lane);
    ("v128.store16_lane", tokenV128Store16Lane);
    ("v128.store32_lane", tokenV128Store32Lane);
    ("v128.store64_lane", tokenV128Store64Lane); ("i32.const", tokenI32Const);
    ("i64.const", tokenI64Const); ("f32.const", tokenF32Const);
    ("f64.const", tokenF64Const); ("v128.const", tokenV128Const);
    ("extern", tokenExtern); ("externref", tokenExternRef);
    ("funcref", tokenFuncRef); ("mut", tokenMut); ("ref.null", tokenRefNull);
    ("ref.func", tokenRefFunc); ("ref.extern", tokenRefExtern);
    ("ref.is_null", tokenRefIsNull); ("i32.clz", tokenI32Clz);
    ("i32.ctz", tokenI32Ctz); ("i32.popcnt", tokenI32Popcnt);
    ("i32.extend8_s", tokenI32Extend8S);
    ("i32.extend16_s", tokenI32Extend16S); ("i64.clz", tokenI64Clz);
    ("i64.ctz", tokenI64Ctz); ("i64.popcnt", tokenI64Popcnt);
    ("i64.extend8_s", tokenI64Extend8S);
    ("i64.extend16_s", tokenI64Extend16S);
    ("i64.extend32_s", tokenI64Extend32S); ("f32.neg", tokenF32Neg);
    ("f32.abs", tokenF32Abs); ("f32.sqrt", tokenF32Sqrt);
    ("f32.ceil", tokenF32Ceil); ("f32.floor", tokenF32Floor);
    ("f32.trunc", tokenF32Trunc); ("f32.nearest", tokenF32Nearest);
    ("f64.neg", tokenF64Neg); ("f64.abs", tokenF64Abs);
    ("f64.sqrt", tokenF64Sqrt); ("f64.ceil", tokenF64Ceil);
    ("f64.floor", tokenF64Floor); ("f64.trunc", tokenF64Trunc);
    ("f64.nearest", tokenF64Nearest); ("i32.add", tokenI32Add);
    ("i32.sub", tokenI32Sub); ("i32.mul", tokenI32Mul);
    ("i32.div_u", tokenI32DivU); ("i32.div_s", tokenI32DivS);
    ("i32.rem_u", tokenI32RemU); ("i32.rem_s", tokenI32RemS);
    ("i32.and", tokenI32And); ("i32.or", tokenI32Or);
    ("i32.xor", tokenI32Xor); ("i32.shl", tokenI32Shl);
    ("i32.shr_u", tokenI32ShrU); ("i32.shr_s", tokenI32ShrS);
    ("i32.rotl", tokenI32Rotl); ("i32.rotr", tokenI32Rotr);
    ("i64.add", tokenI64Add); ("i64.sub", tokenI64Sub);
    ("i64.mul", tokenI64Mul); ("i64.div_u", tokenI64DivU);
    ("i64.div_s", tokenI64DivS); ("i64.rem_u", tokenI64RemU);
    ("i64.rem_s", tokenI64RemS); ("i64.and", tokenI64And);
    ("i64.or", tokenI64Or); ("i64.xor", tokenI64Xor);
    ("i64.shl", tokenI64Shl); ("i64.shr_u", tokenI64ShrU);
    ("i64.shr_s", tokenI64ShrS); ("i64.rotl", tokenI64Rotl);
    ("i64.rotr", tokenI64Rotr); ("f32.add", tokenF32Add);
    ("f32.sub", tokenF32Sub); ("f32.mul", tokenF32Mul);
    ("f32.div", tokenF32Div); ("f32.min", tokenF32Min);
    ("f32.max", tokenF32Max); ("f32.copysign", tokenF32Copysign);
    ("f64.add", tokenF64Add); ("f64.sub", tokenF64Sub);
    ("f64.mul", tokenF64Mul); ("f64.div", tokenF64Div);
    ("f64.min", tokenF64Min); ("f64.max", tokenF64Max);
    ("f64.copysign", tokenF64Copysign); ("i32.eqz", tokenI32Eqz);
    ("i64.eqz", tokenI64Eqz); ("i32.eq", tokenI32Eq); ("i32.ne", tokenI32Ne);
    ("i32.lt_u", tokenI32LtU); ("i32.lt_s", tokenI32LtS);
    ("i32.le_u", tokenI32LeU); ("i32.le_s", tokenI32LeS);
    ("i32.gt_u", tokenI32GtU); ("i32.gt_s", tokenI32GtS);
    ("i32.ge_u", tokenI32GeU); ("i32.ge_s", tokenI32GeS);
    ("i64.eq", tokenI64Eq); ("i64.ne", tokenI64Ne); ("i64.lt_u", tokenI64LtU);
    ("i64.lt_s", tokenI64LtS); ("i64.le_u", tokenI64LeU);
    ("i64.le_s", tokenI64LeS); ("i64.gt_u", tokenI64GtU);
    ("i64.gt_s", tokenI64GtS); ("i64.ge_u", tokenI64GeU);
    ("i64.ge_s", tokenI64GeS); ("f32.eq", tokenF32Eq); ("f32.ne", tokenF32Ne);
    ("f32.lt", tokenF32Lt); ("f32.le", tokenF32Le); ("f32.gt", tokenF32Gt);
    ("f32.ge", tokenF32Ge); ("f64.eq", tokenF64Eq); ("f64.ne", tokenF64Ne);
    ("f64.lt", tokenF64Lt); ("f64.le", tokenF64Le); ("f64.gt", tokenF64Gt);
    ("f64.ge", tokenF64Ge); ("i32.wrap_i64", tokenI32WrapI64);
    ("i64.extend_i32_s", tokenI64ExtendI32S);
    ("i64.extend_i32_u", tokenI64ExtendI32U);
    ("f32.demote_f64", tokenF32DemoteF64);
    ("f64.promote_f32", tokenF64PromoteF32);
    ("i32.trunc_f32_u", tokenI32TruncF32U);
    ("i32.trunc_f32_s", tokenI32TruncF32S);
    ("i64.trunc_f32_u", tokenI64TruncF32U);
    ("i64.trunc_f32_s", tokenI64TruncF32S);
    ("i32.trunc_f64_u", tokenI32TruncF64U);
    ("i32.trunc_f64_s", tokenI32TruncF64S);
    ("i64.trunc_f64_u", tokenI64TruncF64U);
    ("i64.trunc_f64_s", tokenI64TruncF64S);
    ("i32.trunc_sat_f32_u", tokenI32TruncSatF32U);
    ("i32.trunc_sat_f32_s", tokenI32TruncSatF32S);
    ("i64.trunc_sat_f32_u", tokenI64TruncSatF32U);
    ("i64.trunc_sat_f32_s", tokenI64TruncSatF32S);
    ("i32.trunc_sat_f64_u", tokenI32TruncSatF64U);
    ("i32.trunc_sat_f64_s", tokenI32TruncSatF64S);
    ("i64.trunc_sat_f64_u", tokenI64TruncSatF64U);
    ("i64.trunc_sat_f64_s", tokenI64TruncSatF64S);
    ("f32.convert_i32_u", tokenF32ConvertI32U);
    ("f32.convert_i32_s", tokenF32ConvertI32S);
    ("f64.convert_i32_u", tokenF64ConvertI32U);
    ("f64.convert_i32_s", tokenF64ConvertI32S);
    ("f32.convert_i64_u", tokenF32ConvertI64U);
    ("f32.convert_i64_s", tokenF32ConvertI64S);
    ("f64.convert_i64_u", tokenF64ConvertI64U);
    ("f64.convert_i64_s", tokenF64ConvertI64S);
    ("f32.reinterpret_i32", tokenF32ReinterpretI32);
    ("f64.reinterpret_i64", tokenF64ReinterpretI64);
    ("i32.reinterpret_f32", tokenI32ReinterpretF32);
    ("i64.reinterpret_f64", tokenI64ReinterpretF64);
    ("v128.not", tokenV128Not); ("v128.and", tokenV128And);
    ("v128.andnot", tokenV128Andnot); ("v128.or", tokenV128Or);
    ("v128.xor", tokenV128Xor); ("v128.bitselect", tokenV128Bitselect);
    ("v128.any_true", tokenV128AnyTrue); ("i8x16.neg", tokenI8x16Neg);
    ("i16x8.neg", tokenI16x8Neg); ("i32x4.neg", tokenI32x4Neg);
    ("i64x2.neg", tokenI64x2Neg); ("i8x16.abs", tokenI8x16Abs);
    ("i16x8.abs", tokenI16x8Abs); ("i32x4.abs", tokenI32x4Abs);
    ("i64x2.abs", tokenI64x2Abs); ("i8x16.popcnt", tokenI8x16Popcnt);
    ("i8x16.avgr_u", tokenI8x16AvgrU); ("i16x8.avgr_u", tokenI16x8AvgrU);
    ("f32x4.neg", tokenF32x4Neg); ("f64x2.neg", tokenF64x2Neg);
    ("f32x4.abs", tokenF32x4Abs); ("f64x2.abs", tokenF64x2Abs);
    ("f32x4.sqrt", tokenF32x4Sqrt); ("f64x2.sqrt", tokenF64x2Sqrt);
    ("f32x4.ceil", tokenF32x4Ceil); ("f64x2.ceil", tokenF64x2Ceil);
    ("f32x4.floor", tokenF32x4Floor); ("f64x2.floor", tokenF64x2Floor);
    ("f32x4.trunc", tokenF32x4Trunc); ("f64x2.trunc", tokenF64x2Trunc);
    ("f32x4.nearest", tokenF32x4Nearest);
    ("f64x2.nearest", tokenF64x2Nearest);
    ("i32x4.trunc_sat_f32x4_u", tokenI32x4TruncSatF32x4U);
    ("i32x4.trunc_sat_f32x4_s", tokenI32x4TruncSatF32x4S);
    ("i32x4.trunc_sat_f64x2_u_zero", tokenI32x4TruncSatF64x2UZero);
    ("i32x4.trunc_sat_f64x2_s_zero", tokenI32x4TruncSatF64x2SZero);
    ("f64x2.promote_low_f32x4", tokenF64x2PromoteLowF32x4);
    ("f32x4.demote_f64x2_zero", tokenF32x4DemoteF64x2Zero);
    ("f32x4.convert_i32x4_u", tokenF32x4ConvertI32x4U);
    ("f32x4.convert_i32x4_s", tokenF32x4ConvertI32x4S);
    ("f64x2.convert_low_i32x4_u", tokenF64x2ConvertLowI32x4U);
    ("f64x2.convert_low_i32x4_s", tokenF64x2ConvertLowI32x4S);
    ("i16x8.extadd_pairwise_i8x16_u", tokenI16x8ExtaddPairwiseI8x16U);
    ("i16x8.extadd_pairwise_i8x16_s", tokenI16x8ExtaddPairwiseI8x16S);
    ("i32x4.extadd_pairwise_i16x8_u", tokenI32x4ExtaddPairwiseI16x8U);
    ("i32x4.extadd_pairwise_i16x8_s", tokenI32x4ExtaddPairwiseI16x8S);
    ("i8x16.eq", tokenI8x16Eq); ("i16x8.eq", tokenI16x8Eq);
    ("i32x4.eq", tokenI32x4Eq); ("i64x2.eq", tokenI64x2Eq);
    ("i8x16.ne", tokenI8x16Ne); ("i16x8.ne", tokenI16x8Ne);
    ("i32x4.ne", tokenI32x4Ne); ("i64x2.ne", tokenI64x2Ne);
    ("i8x16.lt_u", tokenI8x16LtU); ("i8x16.lt_s", tokenI8x16LtS);
    ("i16x8.lt_u", tokenI16x8LtU); ("i16x8.lt_s", tokenI16x8LtS);
    ("i32x4.lt_u", tokenI32x4LtU); ("i32x4.lt_s", tokenI32x4LtS);
    ("i64x2.lt_s", tokenI64x2LtS); ("i8x16.le_u", tokenI8x16LeU);
    ("i8x16.le_s", tokenI8x16LeS); ("i16x8.le_u", tokenI16x8LeU);
    ("i16x8.le_s", tokenI16x8LeS); ("i32x4.le_u", tokenI32x4LeU);
    ("i32x4.le_s", tokenI32x4LeS); ("i64x2.le_s", tokenI64x2LeS);
    ("i8x16.gt_u", tokenI8x16GtU); ("i8x16.gt_s", tokenI8x16GtS);
    ("i16x8.gt_u", tokenI16x8GtU); ("i16x8.gt_s", tokenI16x8GtS);
    ("i32x4.gt_u", tokenI32x4GtU); ("i32x4.gt_s", tokenI32x4GtS);
    ("i64x2.gt_s", tokenI64x2GtS); ("i8x16.ge_u", tokenI8x16GeU);
    ("i8x16.ge_s", tokenI8x16GeS); ("i16x8.ge_u", tokenI16x8GeU);
    ("i16x8.ge_s", tokenI16x8GeS); ("i32x4.ge_u", tokenI32x4GeU);
    ("i32x4.ge_s", tokenI32x4GeS); ("i64x2.ge_s", tokenI64x2GeS);
    ("f32x4.eq", tokenF32x4Eq); ("f64x2.eq", tokenF64x2Eq);
    ("f32x4.ne", tokenF32x4Ne); ("f64x2.ne", tokenF64x2Ne);
    ("f32x4.lt", tokenF32x4Lt); ("f64x2.lt", tokenF64x2Lt);
    ("f32x4.le", tokenF32x4Le); ("f64x2.le", tokenF64x2Le);
    ("f32x4.gt", tokenF32x4Gt); ("f64x2.gt", tokenF64x2Gt);
    ("f32x4.ge", tokenF32x4Ge); ("f64x2.ge", tokenF64x2Ge);
    ("i8x16.swizzle", tokenI8x16Swizzle); ("i8x16.add", tokenI8x16Add);
    ("i16x8.add", tokenI16x8Add); ("i32x4.add", tokenI32x4Add);
    ("i64x2.add", tokenI64x2Add); ("i8x16.sub", tokenI8x16Sub);
    ("i16x8.sub", tokenI16x8Sub); ("i32x4.sub", tokenI32x4Sub);
    ("i64x2.sub", tokenI64x2Sub); ("i16x8.mul", tokenI16x8Mul);
    ("i32x4.mul", tokenI32x4Mul); ("i64x2.mul", tokenI64x2Mul);
    ("i8x16.add_sat_u", tokenI8x16AddSatU);
    ("i8x16.add_sat_s", tokenI8x16AddSatS);
    ("i16x8.add_sat_u", tokenI16x8AddSatU);
    ("i16x8.add_sat_s", tokenI16x8AddSatS);
    ("i8x16.sub_sat_u", tokenI8x16SubSatU);
    ("i8x16.sub_sat_s", tokenI8x16SubSatS);
    ("i16x8.sub_sat_u", tokenI16x8SubSatU);
    ("i16x8.sub_sat_s", tokenI16x8SubSatS);
    ("i32x4.dot_i16x8_s", tokenI32x4DotI16x8S);
    ("i8x16.min_u", tokenI8x16MinU); ("i16x8.min_u", tokenI16x8MinU);
    ("i32x4.min_u", tokenI32x4MinU); ("i8x16.min_s", tokenI8x16MinS);
    ("i16x8.min_s", tokenI16x8MinS); ("i32x4.min_s", tokenI32x4MinS);
    ("i8x16.max_u", tokenI8x16MaxU); ("i16x8.max_u", tokenI16x8MaxU);
    ("i32x4.max_u", tokenI32x4MaxU); ("i8x16.max_s", tokenI8x16MaxS);
    ("i16x8.max_s", tokenI16x8MaxS); ("i32x4.max_s", tokenI32x4MaxS);
    ("f32x4.add", tokenF32x4Add); ("f64x2.add", tokenF64x2Add);
    ("f32x4.sub", tokenF32x4Sub); ("f64x2.sub", tokenF64x2Sub);
    ("f32x4.mul", tokenF32x4Mul); ("f64x2.mul", tokenF64x2Mul);
    ("f32x4.div", tokenF32x4Div); ("f64x2.div", tokenF64x2Div);
    ("f32x4.min", tokenF32x4Min); ("f64x2.min", tokenF64x2Min);
    ("f32x4.max", tokenF32x4Max); ("f64x2.max", tokenF64x2Max);
    ("f32x4.pmin", tokenF32x4Pmin); ("f64x2.pmin", tokenF64x2Pmin);
    ("f32x4.pmax", tokenF32x4Pmax); ("f64x2.pmax", tokenF64x2Pmax);
    ("i16x8.q15mulr_sat_s", tokenI16x8Q15mulrSatS);
    ("i8x16.narrow_i16x8_u", tokenI8x16NarrowI16x8U);
    ("i8x16.narrow_i16x8_s", tokenI8x16NarrowI16x8S);
    ("i16x8.narrow_i32x4_u", tokenI16x8NarrowI32x4U);
    ("i16x8.narrow_i32x4_s", tokenI16x8NarrowI32x4S);
    ("i16x8.extend_low_i8x16_u", tokenI16x8ExtendLowI8x16U);
    ("i16x8.extend_low_i8x16_s", tokenI16x8ExtendLowI8x16S);
    ("i16x8.extend_high_i8x16_u", tokenI16x8ExtendHighI8x16U);
    ("i16x8.extend_high_i8x16_s", tokenI16x8ExtendHighI8x16S);
    ("i32x4.extend_low_i16x8_u", tokenI32x4ExtendLowI16x8U);
    ("i32x4.extend_low_i16x8_s", tokenI32x4ExtendLowI16x8S);
    ("i32x4.extend_high_i16x8_u", tokenI32x4ExtendHighI16x8U);
    ("i32x4.extend_high_i16x8_s", tokenI32x4ExtendHighI16x8S);
    ("i64x2.extend_low_i32x4_u", tokenI64x2ExtendLowI32x4U);
    ("i64x2.extend_low_i32x4_s", tokenI64x2ExtendLowI32x4S);
    ("i64x2.extend_high_i32x4_u", tokenI64x2ExtendHighI32x4U);
    ("i64x2.extend_high_i32x4_s", tokenI64x2ExtendHighI32x4S);
    ("i16x8.extmul_low_i8x16_u", tokenI16x8ExtmulLowI8x16U);
    ("i16x8.extmul_low_i8x16_s", tokenI16x8ExtmulLowI8x16S);
    ("i16x8.extmul_high_i8x16_u", tokenI16x8ExtmulHighI8x16U);
    ("i16x8.extmul_high_i8x16_s", tokenI16x8ExtmulHighI8x16S);
    ("i32x4.extmul_low_i16x8_u", tokenI32x4ExtmulLowI16x8U);
    ("i32x4.extmul_low_i16x8_s", tokenI32x4ExtmulLowI16x8S);
    ("i32x4.extmul_high_i16x8_u", tokenI32x4ExtmulHighI16x8U);
    ("i32x4.extmul_high_i16x8_s", tokenI32x4ExtmulHighI16x8S);
    ("i64x2.extmul_low_i32x4_u", tokenI64x2ExtmulLowI32x4U);
    ("i64x2.extmul_low_i32x4_s", tokenI64x2ExtmulLowI32x4S);
    ("i64x2.extmul_high_i32x4_u", tokenI64x2ExtmulHighI32x4U);
    ("i64x2.extmul_high_i32x4_s", tokenI64x2ExtmulHighI32x4S);
    ("i8x16.all_true", tokenI8x16AllTrue);
    ("i16x8.all_true", tokenI16x8AllTrue);
    ("i32x4.all_true", tokenI32x4AllTrue);
    ("i64x2.all_true", tokenI64x2AllTrue);
    ("i8x16.bitmask", tokenI8x16Bitmask);
    ("i16x8.bitmask", tokenI16x8Bitmask);
    ("i32x4.bitmask", tokenI32x4Bitmask);
    ("i64x2.bitmask", tokenI64x2Bitmask); ("i8x16.shl", tokenI8x16Shl);
    ("i16x8.shl", tokenI16x8Shl); ("i32x4.shl", tokenI32x4Shl);
    ("i64x2.shl", tokenI64x2Shl); ("i8x16.shr_u", tokenI8x16ShrU);
    ("i8x16.shr_s", tokenI8x16ShrS); ("i16x8.shr_u", tokenI16x8ShrU);
    ("i16x8.shr_s", tokenI16x8ShrS); ("i32x4.shr_u", tokenI32x4ShrU);
    ("i32x4.shr_s", tokenI32x4ShrS); ("i64x2.shr_u", tokenI64x2ShrU);
    ("i64x2.shr_s", tokenI64x2ShrS); ("i8x16.shuffle", tokenI8x16Shuffle);
    ("i8x16.splat", tokenI8x16Splat); ("i16x8.splat", tokenI16x8Splat);
    ("i32x4.splat", tokenI32x4Splat); ("i64x2.splat", tokenI64x2Splat);
    ("f32x4.splat", tokenF32x4Splat); ("f64x2.splat", tokenF64x2Splat);
    ("i8x16.extract_lane_u", tokenI8x16ExtractLaneU);
    ("i8x16.extract_lane_s", tokenI8x16ExtractLaneS);
    ("i16x8.extract_lane_u", tokenI16x8ExtractLaneU);
    ("i16x8.extract_lane_s", tokenI16x8ExtractLaneS);
    ("i32x4.extract_lane", tokenI32x4ExtractLane);
    ("i64x2.extract_lane", tokenI64x2ExtractLane);
    ("f32x4.extract_lane", tokenF32x4ExtractLane);
    ("f64x2.extract_lane", tokenF64x2ExtractLane);
    ("i8x16.replace_lane", tokenI8x16ReplaceLane);
    ("i16x8.replace_lane", tokenI16x8ReplaceLane);
    ("i32x4.replace_lane", tokenI32x4ReplaceLane);
    ("i64x2.replace_lane", tokenI64x2ReplaceLane);
    ("f32x4.replace_lane", tokenF32x4ReplaceLane);
    ("f64x2.replace_lane", tokenF64x2ReplaceLane) ].

Definition beqb (a b : list byte) : bool :=
  String.eqb (string_of_list_byte a) (string_of_list_byte b).

Fixpoint assoc (tbl : list (string * tokenKind)) (k : list byte)
  : option tokenKind :=
  match tbl with
  | [] => None
  | (s, v) :: tbl' => if beqb (bytes s) k then Some v else assoc tbl' k
  end.

Definition isEOF (k : tokenKind) : bool :=
  match k with tokenEOF => true | _ => false end.

Definition isError (k : tokenKind) : bool :=
  match k with tokenError => true | _ => false end.

(** ** The lexer *)

(** [stateFn]: the state functions, by name; [None] stands for [nil]. *)
Inductive stateFn : Set :=
  | StDefault | StBlockComment | StNumber | StKeyword
  | StComment | StIdentifier | StString.

Record lexer : Set := mkLexer {
  input : list byte;
  pos : nat;
  start : nat;
  width : nat;
  state : option stateFn;
  tokens : list token;   (* the channel's buffer, oldest first *)
  closed : bool          (* close(l.tokens) has run *)
}.

Definition set_pos (l : lexer) (p : nat) : lexer :=
  mkLexer (input l) p (start l) (width l) (state l) (tokens l) (closed l).
Definition set_start (l : lexer) (s : nat) : lexer :=
  mkLexer (input l) (pos l) s (width l) (state l) (tokens l) (closed l).
Definition set_width (l : lexer) (w : nat) : lexer :=
  mkLexer (input l) (pos l) (start l) w (state l) (tokens l) (closed l).
Definition set_state (l : lexer) (s : option stateFn) : lexer :=
  mkLexer (input l) (pos l) (start l) (width l) s (tokens l) (closed l).
Definition set_tokens (l : lexer) (ts : list token) : lexer :=
  mkLexer (input l) (pos l) (start l) (width l) (state l) ts (closed l).
Definition set_closed (l : lexer) (c : bool) : lexer :=
  mkLexer (input l) (pos l) (start l) (width l) (state l) (tokens l) c.

Definition NewLexer (inp : list byte) : lexer :=
  mkLexer inp 0 0 0 (Some StDefault) [] false.

(** [input[a:b]] *)
Definition slice (inp : list byte) (a b : nat) : list byte :=
  firstn (b - a) (skipn a inp).

Definition next (l : lexer) : rune * lexer :=
  if (List.length (input l) <=? pos l)%nat then (eof, set_width l 0)
  else
    let '(r, w) := DecodeRune (skipn (pos l) (input l)) in
    (r, set_pos (set_width l w) (pos l + w)).

Definition ignore (l : lexer) : lexer := set_start l (pos l).

Definition backup (l : lexer) : lexer := set_pos l (pos l - width l).

Definition peek (l : lexer) : rune * lexer :=
  let w := width l in
  let '(r, l1) := next l in
  (r, set_width (backup l1) w).

Definition lexeme (l : lexer) : list byte := slice (input l) (start l) (pos l).

Definition send (t : token) (l : lexer) : lexer :=
  set_tokens l (tokens l ++ [t]).

Definition emit (k : tokenKind) (l : lexer) : lexer :=
  set_start (send (mkToken k (Bytes (lexeme l))) l) (pos l).

Definition emitWithData (k : tokenKind) (data : list byte) (l : lexer)
  : lexer :=
  set_start (send (mkToken k (Bytes data)) l) (pos l).

Definition accept (valid : string) (l : lexer) : bool * lexer :=
  let '(r, l1) := next l in
  if IndexRune valid r then (true, l1) else (false, backup l1).

Fixpoint acceptRun_loop (fuel : nat) (valid : string) (count : nat)
  (l : lexer) : option (nat * lexer) :=
  match fuel with
  | O => None
  | S f =>
    let '(r, l1) := next l in
    if IndexRune valid r then acceptRun_loop f valid (S count) l1
    else Some (count, backup l1)
  end.

Definition acceptRun (fuel : nat) (valid : string) (l : lexer)
  : option (nat * lexer) :=
  acceptRun_loop fuel valid 0 l.

Definition errorf (m : message) (l : lexer) : option stateFn * lexer :=
  (None, send (mkToken tokenError (Text m)) l).

(** What a state function hands back: the next state and the lexer. *)
Definition step : Set := option stateFn * lexer.

Fixpoint lexDefault (fuel : nat) (l : lexer) : option step :=
  match fuel with
  | O => None
  | S f =>
    let '(r, l1) := next l in
    if r =? eof then Some (None, emit tokenEOF l1)
    else if isSpace r then lexDefault f (ignore l1)
    else if r =? chr ";" then Some (Some StComment, l1)
    else if (r =? chr "+") || (r =? chr "-")
            || ((chr "0" <=? r) && (r <=? chr "9")) then
      Some (Some StNumber, backup l1)
    else if r =? chr "$" then Some (Some StIdentifier, backup l1)
    else if r =? quote then Some (Some StString, l1)
    else if r =? chr "(" then
      let '(r2, l2) := peek l1 in
      if r2 =? chr ";" then Some (Some StBlockComment, l2)
      else Some (Some StDefault, emit tokenLParen l2)
    else if r =? chr ")" then Some (Some StDefault, emit tokenRParen l1)
    else if isLowercaseLetter r then Some (Some StKeyword, backup l1)
    else Some (errorf (unknown_token r) l1)
  end.

(** The loop [for level > 0] of [lexBlockComment]. *)
Fixpoint lexBlockComment_loop (fuel : nat) (level : Z) (l : lexer)
  : option lexer :=
  if level <=? 0 then Some l
  else
    match fuel with
    | O => None
    | S f =>
      let '(r, l1) := next l in
      if r =? chr "(" then
        let '(r2, l2) := peek l1 in
        lexBlockComment_loop f (if r2 =? chr ";" then level + 1 else level) l2
      else if r =? chr ";" then
        let '(r2, l2) := peek l1 in
        lexBlockComment_loop f (if r2 =? chr ")" then level - 1 else level) l2
      else lexBlockComment_loop f level l1
    end.

Definition lexBlockComment (fuel : nat) (l : lexer) : option step :=
  let '(_, l1) := accept ";" l in
  match lexBlockComment_loop fuel 1 l1 with
  | None => None
  | Some l2 => Some (Some StDefault, l2)
  end.

Definition lexNumber (fuel : nat) (l : lexer) : option step :=
  let '(_, l1) := accept sign l in
  let '(zero, l2) := accept "0" l1 in
  let '(hex, l3) := if zero then accept "xX" l2 else (false, l2) in
  let valid := ((if hex then hexDigit else digit) ++ "_")%string in
  match acceptRun fuel valid l3 with
  | None => None
  | Some (_, l4) =>
    let '(dot, l5) := accept "." l4 in
    match (if dot then acceptRun fuel valid l5 else Some (0%nat, l5)) with
    | None => None
    | Some (_, l6) =>
      let '(ex, l7) := accept "eEpP" l6 in
      match (if ex then
               let '(_, l8) := accept sign l7 in
               acceptRun fuel (digit ++ "_")%string l8
             else Some (0%nat, l7)) with
      | None => None
      | Some (_, l9) => Some (Some StDefault, emit tokenNumber l9)
      end
    end
  end.

Definition lexKeyword (fuel : nat) (l : lexer) : option step :=
  match acceptRun fuel keyword l with
  | None => None
  | Some (_, l1) =>
    match assoc key (lexeme l1) with
    | Some k => Some (Some StDefault, emit k l1)
    | None => Some (Some StDefault, emit tokenKeyword l1)
    end
  end.

(** The loop of [lexComment]: read up to and including the newline. *)
Fixpoint lexComment_loop (fuel : nat) (l : lexer) : option lexer :=
  match fuel with
  | O => None
  | S f =>
    let '(r, l1) := next l in
    if (r =? eof) || (r =? newline) then Some l1 else lexComment_loop f l1
  end.

Definition lexComment (fuel : nat) (l : lexer) : option step :=
  let '(ok, l1) := accept ";" l in
  if negb ok then
    let '(r, l2) := next l1 in
    Some (errorf (expected_semicolon r) l2)
  else
    match lexComment_loop fuel l1 with
    | None => None
    | Some l2 => Some (Some StDefault, l2)
    end.

Definition lexIdentifier (fuel : nat) (l : lexer) : option step :=
  match acceptRun fuel idChar l with
  | None => None
  | Some (n, l1) =>
    if (n <? 2)%nat then Some (errorf empty_identifier l1)
    else Some (Some StDefault, emit tokenIdent l1)
  end.

(** The errors of [escapeSeq]; [lexString] only tests for their presence. *)
Inductive escape_error : Set :=
  | invalid_pair (r r2 : rune)     (* "invalid escape sequence: %q%q" *)
  | invalid_unicode                (* "invalid unicode" *)
  | unterminated_unicode           (* "unterminated unicode" *)
  | invalid_hex_digit (d : rune)   (* "invalid hex digit: %q" *)
  | unexpected_escape (r : rune)   (* "unexpected escape sequence: %q" *).

(** The loop [for i := 0; i < 7; i++] of [escapeSeq], [n] rounds left; the
    digits read so far are [s]. *)
Fixpoint unicode_digits (n : nat) (s : list rune) (l : lexer)
  : (escape_error * lexer) + (list rune * lexer) :=
  match n with
  | O => inr (s, l)
  | S n' =>
    let '(d, l1) := next l in
    if d =? chr "}" then inr (s, backup l1)
    else if d =? eof then inl (unterminated_unicode, l1)
    else if negb (isHexDigit d) then inl (invalid_hex_digit d, l1)
    else unicode_digits n' (s ++ [d]) l1
  end.

Definition escapeSeq (l : lexer)
  : list byte * option escape_error * lexer :=
  let '(r, l1) := next l in
  if r =? chr "t" then ([z2b tab], None, l1)
  else if r =? chr "r" then ([z2b creturn], None, l1)
  else if r =? quote then ([z2b quote], None, l1)
  else if r =? chr "'" then ([z2b (chr "'")], None, l1)
  else if r =? backslash then ([z2b backslash], None, l1)
  else if isHexDigit r then
    let '(r2, l2) := next l1 in
    if negb (r2 =? eof) && isHexDigit r2 then
      (EncodeRune (ParseUint16 [r; r2]), None, l2)
    else ([], Some (invalid_pair r r2), l2)
  else if r =? chr "u" then
    let '(ok, l2) := accept "{" l1 in
    if negb ok then ([], Some invalid_unicode, l2)
    else
      match unicode_digits 7 [] l2 with
      | inl (e, l3) => ([], Some e, l3)
      | inr (s, l3) =>
        let v := ParseUint16 s in
        let '(ok', l4) := accept "}" l3 in
        if negb ok' then ([], Some invalid_unicode, l4)
        else (EncodeRune v, None, l4)
      end
  else ([], Some (unexpected_escape r), l1).

(** The loop of [lexString]; [s] is the [strings.Builder]. *)
Fixpoint lexString_loop (fuel : nat) (s : list byte) (l : lexer)
  : option step :=
  match fuel with
  | O => None
  | S f =>
    let '(r, l1) := next l in
    if r =? backslash then
      let '(s1, err, l2) := escapeSeq l1 in
      match err with
      | Some _ => Some (errorf (invalid_escape (lexeme l2)) l2)
      | None => lexString_loop f (s ++ s1) l2
      end
    else if r =? quote then
      Some (Some StDefault, emitWithData tokenString s l1)
    else if (r =? eof) || (r =? newline) || (r =? creturn) then
      Some (errorf (unclosed_quote (lexeme l1)) l1)
    else lexString_loop f (s ++ EncodeRune r) l1
  end.

Definition lexString (fuel : nat) (l : lexer) : option step :=
  lexString_loop fuel [] l.

(** Calling the state function named [st]. *)
Definition run (fuel : nat) (st : stateFn) (l : lexer) : option step :=
  match st with
  | StDefault => lexDefault fuel l
  | StBlockComment => lexBlockComment fuel l
  | StNumber => lexNumber fuel l
  | StKeyword => lexKeyword fuel l
  | StComment => lexComment fuel l
  | StIdentifier => lexIdentifier fuel l
  | StString => lexString fuel l
  end.

Fixpoint nextToken (fuel : nat) (l : lexer) : option (token * lexer) :=
  match tokens l with
  | t :: ts => Some (t, set_tokens l ts)
  | [] =>
    if closed l then Some (zero_token, l)
    else
      match state l with
      | None => Some (mkToken tokenEOF (Bytes []), set_closed l true)
      | Some st =>
        match fuel with
        | O => None
        | S f =>
          match run f st l with
          | None => None
          | Some (st', l') => nextToken f (set_state l' st')
          end
        end
      end
  end.

(** ** The parser driver (package text) *)

Inductive Op : Set :=
  | OpUnkown | OpStart | OpConst | OpLocalGet | OpLocalSet | OpCall
  | OpI32Add.

(** [idCounter] is a package-level [int]; [++] wraps around on 64 bits. *)
Definition wrap_int (z : Z) : Z := (z + 2 ^ 63) mod 2 ^ 64 - 2 ^ 63.

(** [newID] on the package state [idCounter = c]: the value returned and the
    new value of the counter. *)
Definition newID (c : Z) : Z * Z :=
  let c' := wrap_int (c + 1) in (c', c').

(** [Args] holds pointers: [None] is a nil pointer. *)
#[warnings="-register-all"]
Inductive Node : Set :=
  mkNode (ID : Z) (op : Op) (Args : list (option Node)) (Meta : string).

Definition ID (n : Node) : Z := let '(mkNode i _ _ _) := n in i.
Definition op (n : Node) : Op := let '(mkNode _ o _ _) := n in o.
Definition Args (n : Node) : list (option Node) :=
  let '(mkNode _ _ a _) := n in a.
Definition Meta (n : Node) : string := let '(mkNode _ _ _ m) := n in m.

Definition NewNode (o : Op) (meta : string) (args : list (option Node))
  (c : Z) : Node * Z :=
  let '(i, c') := newID c in (mkNode i o args meta, c').

Record Parser : Set := mkParser { lex : lexer; root : option Node }.

Definition NewParser (inp : list byte) : Parser :=
  mkParser (NewLexer inp) None.

Inductive error : Set :=
  | lexing_error (v : payload)   (* "lexing error: %q" *).

(** The loop of [Parse]: draw tokens until end of input or an error. *)
Fixpoint Parse_loop (fuel : nat) (l : lexer) : option (option error * lexer) :=
  match fuel with
  | O => None
  | S f =>
    match nextToken f l with
    | None => None
    | Some (t, l') =>
      if isEOF (kind t) then Some (None, l')
      else if isError (kind t) then Some (Some (lexing_error (val t)), l')
      else Parse_loop f l'
    end
  end.

(** [Parse]: the error returned ([None] for nil), the parser afterwards and
    the new value of [idCounter].  In the call of [NewNode] the variadic
    argument is a single nil pointer and the meta text is empty. *)
Definition Parse (fuel : nat) (p : Parser) (c : Z)
  : option (option error * Parser * Z) :=
  let '(n, c') := NewNode OpStart EmptyString [None] c in
  match Parse_loop fuel (lex p) with
  | None => None
  | Some (e, l') => Some (e, mkParser l' (Some n), c')
  end.

(** The tokens the loop of [Parse] draws, the last one included. *)
Fixpoint scan (fuel : nat) (l : lexer) : option (list token) :=
  match fuel with
  | O => None
  | S f =>
    match nextToken f l with
    | None => None
    | Some (t, l') =>
      if isEOF (kind t) || isError (kind t) then Some [t]
      else option_map (cons t) (scan f l')
    end
  end.

(** Scanning an input from the start. *)
Definition scan_input (fuel : nat) (inp : list byte) : option (list token) :=
  scan fuel (NewLexer inp).

(** ** Inputs used in the statements *)

(** ASCII bytes none of which is one of the runes [cs]. *)
Definition ascii_without (cs : list rune) (bs : list byte) : bool :=
  forallb (fun b => (b2z b <? 128) && negb (existsb (Z.eqb (b2z b)) cs)) bs.

Definition tok (k : tokenKind) (s : list byte) : token := mkToken k (Bytes s).

Definition never_closed : list byte := bytes "(; never closed".

(** The payload of [t] is a span [inp[a:b]] of the source. *)
Definition is_span (inp : list byte) (t : token) : Prop :=
  exists a b, (a <= b <= List.length inp)%nat /\ val t = Bytes (slice inp a b).

(** The kinds sent by [emit]: all but string tokens, which carry what
    [emitWithData] is given, and error tokens. *)
Definition emitted_raw (k : tokenKind) : bool :=
  match k with
  | tokenString | tokenError => false
  | _ => true
  end.

(** The tokens [ts] stand for successive spans of [inp] between [lo] and
    [hi]: each one for a span [inp[a:b]] that begins at or after the end of
    the one before, and a token sent by [emit] has those very bytes as its
    payload. *)
Fixpoint in_order (inp : list byte) (lo hi : nat) (ts : list token) : Prop :=
  match ts with
  | [] => (lo <= hi)%nat
  | t :: ts' =>
    exists a b, (lo <= a <= b)%nat /\
      (emitted_raw (kind t) = true -> val t = Bytes (slice inp a b)) /\
      in_order inp b hi ts'
  end.

(** The string literal made of the two characters backslash, [t]. *)
Definition tab_literal : list byte := [x22] ++ bytes "\t" ++ [x22].

Definition func_f : list byte := bytes "(func $f)".

(** The runes that end a run of plain characters in a string literal. *)
Definition string_specials : list rune :=
  [backslash; quote; eof; newline; creturn].

(** A string literal that opens with [body] and goes on with the escape
    made of a backslash and [n]. *)
Definition newline_escape (body rest : list byte) : list byte :=
  ([x22] ++ body ++ bytes "\n") ++ rest.

(** A block comment with [body] between its delimiters. *)
Definition block_comment (body : list byte) : list byte :=
  bytes "(;" ++ body ++ bytes ";)".

Definition func_f_twice : list byte := bytes "(func $f) (func $f)".

Definition folded_add : list byte :=
  bytes "(i32.add (i32.const 1) (i32.const 2))".

Definition flat_add : list byte := bytes "i32.const 1 i32.const 2 i32.add".

(** The only tree [Parse] builds: the root made by [NewNode] when
    [idCounter] was [c]. *)
Definition root_node (c : Z) : Node :=
  mkNode (wrap_int (c + 1)) OpStart [None] EmptyString.

(** The lexer once [Parse] has drawn the end-of-input token sent by
    [lexDefault]. *)
Definition drained (inp : list byte) : lexer :=
  mkLexer inp (List.length inp) (List.length inp) 0 None [] false.

(** The string literal holding the escape made of a backslash and the two
    characters [d1], [d2]. *)
Definition hex_escape (d1 d2 : byte) : list byte := [x22; x5c; d1; d2; x22].

(** The string literal holding a backslash, [u], and [ds] between braces. *)
Definition unicode_escape (ds : list byte) : list byte :=
  [x22; x5c] ++ bytes "u{" ++ ds ++ bytes "}" ++ [x22].

Definition all_hex (ds : list byte) : bool :=
  forallb (fun b => isHexDigit (b2z b)) ds.

(** ** Invariants *)

(** How the primitives move a lexer: only [pos] and [width] change, [pos]
    never goes back and never passes the end of the input. *)
Definition advances (l l' : lexer) : Prop :=
  input l' = input l /\ start l' = start l /\ tokens l' = tokens l /\
  state l' = state l /\ closed l' = closed l /\
  (pos l <= pos l')%nat /\
  ((pos l <= List.length (input l))%nat ->
   (pos l' <= List.length (input l))%nat).

(** The invariant of a scan of [inp]: the indices are in order and within
    the input, and the tokens waiting in the channel stand for successive
    spans between [lo], where the last token drawn ended, and [start]. *)
Definition good (inp : list byte) (lo : nat) (l : lexer) : Prop :=
  input l = inp /\ (start l <= pos l <= List.length inp)%nat /\
  in_order inp lo (start l) (tokens l).

(** Between [l] and [l'] at most one token was sent. *)
Definition sends_at_most_one (l l' : lexer) : Prop :=
  tokens l' = tokens l \/ exists t, tokens l' = tokens l ++ [t].

(** Closes a goal that says the channel was left alone, from the facts
    [advances _ _] at hand. *)
Ltac quiet :=
  unfold advances in *;
  repeat match goal with
         | H : _ /\ _ |- _ => destruct H
         end;
  simpl in *; congruence.

(** The bytes not read yet. *)
Definition rem (l : lexer) : nat := List.length (input l) - pos l.

(** No opening parenthesis is directly followed by a semicolon. *)
Fixpoint no_block_opener (bs : list byte) : bool :=
  match bs with
  | [] => true
  | b :: t =>
    negb ((b2z b =? chr "(")
          && match t with
             | b' :: _ => b2z b' =? chr ";"
             | [] => false
             end)
    && no_block_opener t
  end.

(** The rune [next] would read. *)
Definition head (l : lexer) : rune := fst (next l).

(** The runes on which [lexDefault] hands over to [lexNumber]. *)
Definition number_start (r : rune) : bool :=
  (r =? chr "+") || (r =? chr "-") || ((chr "0" <=? r) && (r <=? chr "9")).

(** The tokens on which the loop of [Parse] stops. *)
Definition stops (t : token) : bool := isEOF (kind t) || isError (kind t).

(** [l'] comes later than [l] in the same scan. *)
Definition onward (l l' : lexer) : Prop :=
  input l' = input l /\ closed l' = closed l /\ (rem l' <= rem l)%nat.

(** [nextToken] drew [t] from [l] and left [l']: the channel is empty again
    and either the scan is over or it goes on in [lexDefault] with fewer
    bytes left. *)
Definition drawn (l : lexer) (t : token) (l' : lexer) : Prop :=
  input l' = input l /\ closed l' = false /\ tokens l' = [] /\
  ((state l' = None /\ stops t = true) \/
   (state l' = Some StDefault /\ (rem l' < rem l)%nat)).

(** From [B] units of fuel on, [f] answers [r]. *)
Definition within {A : Type} (B : nat) (f : nat -> option A) (r : A) : Prop :=
  forall F, (B <= F)%nat -> f F = Some r.

(** ASCII bytes that all belong to [valid]. *)
Definition run_of (valid : string) (bs : list byte) : bool :=
  forallb (fun b => (b2z b <? 128) && IndexRune valid (b2z b)) bs.

(** [accept valid] fails in front of [rest]: at the end of the input, or
    before an ASCII byte that is not in [valid]. *)
Definition stop_at (valid : string) (rest : list byte) : bool :=
  match rest with
  | [] => negb (IndexRune valid eof)
  | b :: _ => (b2z b <? 128) && negb (IndexRune valid (b2z b))
  end.

(** The [width] left by a [next] that is backed up in front of [rest]. *)
Definition end_width (rest : list byte) : nat :=
  match rest with [] => 0%nat | _ => 1%nat end.

Definition all_space (ws : list byte) : bool :=
  forallb (fun b => isSpace (b2z b)) ws.

(** The kind [lexKeyword] gives to a word. *)
Definition word_kind (w : list byte) : tokenKind :=
  match assoc key w with
  | Some k => k
  | None => tokenKeyword
  end.

(** The keys of a table are pairwise different. *)
Fixpoint keys_distinct (tbl : list (string * tokenKind)) : bool :=
  match tbl with
  | [] => true
  | (s, _) :: t =>
    negb (existsb (fun e => beqb (bytes (fst e)) (bytes s)) t)
    && keys_distinct t
  end.

(** A word as [lexDefault] and [lexKeyword] take it: a lower-case letter,
    then letters, digits and the four signs of [keyword]. *)
Definition is_word (w : list byte) : bool :=
  match w with
  | [] => false
  | b :: _ => isLowercaseLetter (b2z b) && run_of keyword w
  end.

(** The kinds [lexDefault], [lexNumber], [lexIdentifier], [lexString] and
    [errorf] send themselves, and the kind of a word the table lacks. *)
Definition structural (k : tokenKind) : bool :=
  match k with
  | tokenError | tokenEOF | tokenLParen | tokenRParen | tokenIdent
  | tokenNumber | tokenString | tokenKeyword => true
  | _ => false
  end.

(** The runes for which [lexDefault] has no case. *)
Definition unknown (r : rune) : bool :=
  negb (r =? eof) && negb (isSpace r) && negb (r =? chr ";")
  && negb (number_start r) && negb (r =? chr "$") && negb (r =? quote)
  && negb (r =? chr "(") && negb (r =? chr ")")
  && negb (isLowercaseLetter r).

(** What [next] returns in front of the bytes [rest]. *)
Definition first_rune (rest : list byte) : rune :=
  match rest with
  | [] => eof
  | _ => fst (DecodeRune rest)
  end.

Definition first_width (rest : list byte) : nat := snd (DecodeRune rest).

(** The lexer [l] with the bytes [pre] put in front of its input. *)
Definition lift (pre : list byte) (l : lexer) : lexer :=
  mkLexer (pre ++ input l) (List.length pre + pos l)
    (List.length pre + start l) (width l) (state l) (tokens l) (closed l).

Definition lift_step (pre : list byte) (x : step) : step :=
  (fst x, lift pre (snd x)).

(** Bytes none of which is one of the runes [cs]. *)
Definition free_of (cs : list rune) (bs : list byte) : bool :=
  forallb (fun b => negb (existsb (Z.eqb (b2z b)) cs)) bs.

(** What ends a line comment: the end of the input, a NUL byte, which
    [next] gives as [eof], or a newline. *)
Definition comment_end (tail : list byte) : bool :=
  match tail with
  | [] => true
  | c :: _ => (b2z c =? eof) || (b2z c =? newline)
  end.

(** [lexNumber] in three stages: sign, prefix and integer part; fraction;
    exponent. *)
Definition valid_of (hex : bool) : string :=
  ((if hex then hexDigit else digit) ++ "_")%string.

Definition number_head (fuel : nat) (l : lexer) : option (bool * lexer) :=
  let '(_, l1) := accept sign l in
  let '(zero, l2) := accept "0" l1 in
  let '(hex, l3) := if zero then accept "xX" l2 else (false, l2) in
  match acceptRun fuel (valid_of hex) l3 with
  | None => None
  | Some (_, l4) => Some (hex, l4)
  end.

Definition number_frac (fuel : nat) (hex : bool) (l4 : lexer) : option lexer :=
  let '(dot, l5) := accept "." l4 in
  match (if dot then acceptRun fuel (valid_of hex) l5 else Some (0%nat, l5)) with
  | None => None
  | Some (_, l6) => Some l6
  end.

Definition number_exp (fuel : nat) (l6 : lexer) : option lexer :=
  let '(ex, l7) := accept "eEpP" l6 in
  match (if ex then
           let '(_, l8) := accept sign l7 in
           acceptRun fuel (digit ++ "_")%string l8
         else Some (0%nat, l7)) with
  | None => None
  | Some (_, l9) => Some l9
  end.

Definition is_nil {A : Type} (l : list A) : bool :=
  match l with
  | [] => true
  | _ => false
  end.

(** Nothing, or one byte of [valid]. *)
Definition opt_of (valid : string) (o : list byte) : bool :=
  match o with
  | [] => true
  | [b] => (b2z b <? 128) && IndexRune valid (b2z b)
  | _ => false
  end.

(** No rune of [v] is in [w]. *)
Definition disjoint (v w : string) : bool :=
  forallb (fun b => negb (IndexRune w (b2z b))) (bytes v).

(** Every rune of [v] is in [w]. *)
Definition subset (v w : string) : bool :=
  forallb (fun b => IndexRune w (b2z b)) (bytes v).

(** The parts of a number as [lexNumber] reads them: a sign, the prefix of
    a hexadecimal number, digits, a dot, digits, the mark of an exponent,
    its sign, its digits.  Any of them may be missing. *)
Record number : Set := mkNumber {
  n_sign : list byte;
  n_prefix : list byte;
  n_int : list byte;
  n_dot : list byte;
  n_frac : list byte;
  n_mark : list byte;
  n_esign : list byte;
  n_exp : list byte
}.

Definition is_hex (n : number) : bool := negb (is_nil (n_prefix n)).

Definition spelled (n : number) : list byte :=
  n_sign n ++ n_prefix n ++ n_int n ++ n_dot n ++ n_frac n ++ n_mark n
  ++ n_esign n ++ n_exp n.

Definition prefix_ok (p : list byte) : bool :=
  match p with
  | [] => true
  | [z; x] => (b2z z =? chr "0") && (b2z x <? 128) && IndexRune "xX" (b2z x)
  | _ => false
  end.

Definition starts_number (bs : list byte) : bool :=
  match bs with
  | b :: _ => (b2z b <? 128) && number_start (b2z b)
  | [] => false
  end.

(** The runes that must not follow a number for it to end there. *)
Definition number_stop (hex : bool) : string :=
  if hex then (hexDigit ++ "_.+-pP")%string
  else (digit ++ "_.+-eEpPxX")%string.

Definition well_spelled (n : number) : bool :=
  opt_of sign (n_sign n) && prefix_ok (n_prefix n)
  && run_of (valid_of (is_hex n)) (n_int n)
  && starts_number (spelled n)
  && opt_of "." (n_dot n) && run_of (valid_of (is_hex n)) (n_frac n)
  && (negb (is_nil (n_dot n)) || is_nil (n_frac n))
  && opt_of (if is_hex n then "pP" else "eEpP") (n_mark n)
  && opt_of sign (n_esign n) && run_of (digit ++ "_") (n_exp n)
  && (negb (is_nil (n_mark n)) || (is_nil (n_esign n) && is_nil (n_exp n))).

(** The number [-1_2.5e+3], part by part. *)
Definition sample_number : number :=
  mkNumber [x2d] [] (bytes "1_2") (bytes ".") (bytes "5") (bytes "e")
    (bytes "+") (bytes "3").

(** The loop of [nextToken], one round at a time: the states a lexer made
    by [NewLexer] goes through.  A round receives a token from the channel,
    or, when the channel is empty, calls the state function or closes the
    channel. *)
Inductive reaches (inp : list byte) : lexer -> Prop :=
  | reach_new : reaches inp (NewLexer inp)
  | reach_receive l t ts :
      reaches inp l -> tokens l = t :: ts -> reaches inp (set_tokens l ts)
  | reach_call l st fuel st' l' :
      reaches inp l -> tokens l = [] -> closed l = false ->
      state l = Some st -> run fuel st l = Some (st', l') ->
      reaches inp (set_state l' st')
  | reach_close l :
      reaches inp l -> tokens l = [] -> closed l = false -> state l = None ->
      reaches inp (set_closed l true).

(** [k] calls of [newID] in a row: the values returned, in order, and the
    counter afterwards. *)
Fixpoint newIDs (k : nat) (c : Z) : list Z * Z :=
  match k with
  | O => ([], c)
  | S k' =>
    let '(i, c1) := newID c in
    let '(rest, c2) := newIDs k' c1 in
    (i :: rest, c2)
  end.

(** ** The runtime (runtime.go)

    A [FuncMap] is kept abstract; [zero_map] is its zero value, the nil
    map of a fresh [Runtime].  A [RuntimeOption] is a Go function value that
    takes a pointer to the runtime: it is nil ([None]) or a function.  A call
    of the function may change the runtime it is given and whatever else the
    program holds, the [World], which is kept abstract; it may also fail to
    return, by a panic or by running for ever, which is [None] for the
    result. *)
Section Runtime.

Variable FuncMap : Type.
Variable zero_map : FuncMap.
Variable World : Type.

Record Runtime : Type := mkRuntime { globalFuncs : FuncMap }.

Definition RuntimeOption : Type :=
  option (World -> Runtime -> option (World * Runtime)).

(** [r.globalFuncs = funcs] *)
Definition set_globalFuncs (r : Runtime) (funcs : FuncMap) : Runtime :=
  mkRuntime funcs.

(** [o(r)]: the call of a nil function panics. *)
Definition call (o : RuntimeOption) (w : World) (r : Runtime)
  : option (World * Runtime) :=
  match o with
  | Some g => g w r
  | None => None
  end.

(** [for _, o := range opts { o(r) }] *)
Fixpoint NewRuntime_loop (opts : list RuntimeOption) (w : World) (r : Runtime)
  : option (World * Runtime) :=
  match opts with
  | [] => Some (w, r)
  | o :: opts' =>
    match call o w r with
    | Some (w', r') => NewRuntime_loop opts' w' r'
    | None => None
    end
  end.

(** [None]: no runtime is returned, the call of an option did not return. *)
Definition NewRuntime (opts : list RuntimeOption) (w : World)
  : option (World * Runtime) :=
  NewRuntime_loop opts w (mkRuntime zero_map).

Definition WithFuncs (funcs : FuncMap) : RuntimeOption :=
  Some (fun w r => Some (w, set_globalFuncs r funcs)).

End Runtime.

Arguments mkRuntime {FuncMap} _.
Arguments globalFuncs {FuncMap} _.
Arguments call {FuncMap World} _ _ _.
Arguments NewRuntime_loop {FuncMap World} _ _ _.
Arguments NewRuntime {FuncMap} _ {World} _ _.
Arguments WithFuncs {FuncMap World} _.

(** [EncodeRune] before the conversion to bytes. *)
Definition encode3Z (r : rune) : list Z :=
  [ Z.lor 224 (Z.shiftr r 12);
    Z.lor 128 (Z.land (Z.shiftr r 6) 63);
    Z.lor 128 (Z.land r 63) ].

Definition EncodeRuneZ (r : rune) : list Z :=
  if between 0 r 127 then [r]
  else if between 0 r 2047 then
    [ Z.lor 192 (Z.shiftr r 6); Z.lor 128 (Z.land r 63) ]
  else if (r <? 0) || (MaxRune <? r) || between 55296 r 57343 then
    encode3Z RuneError
  else if r <=? 65535 then encode3Z r
  else
    [ Z.lor 240 (Z.shiftr r 18);
      Z.lor 128 (Z.land (Z.shiftr r 12) 63);
      Z.lor 128 (Z.land (Z.shiftr r 6) 63);
      Z.lor 128 (Z.land r 63) ].

Fixpoint zlist_eqb (a b : list Z) : bool :=
  match a, b with
  | [], [] => true
  | x :: a', y :: b' => (x =? y) && zlist_eqb a' b'
  | _, _ => false
  end.

Definition zrange (lo : Z) (n : nat) : list Z :=
  map (fun k => lo + Z.of_nat k) (seq 0 n).

(** Decoding then encoding gives the bytes back, for the sequences of two,
    three and four bytes that [DecodeRune] accepts. *)
Definition round2 (p0 p1 : Z) : bool :=
  match first p0 with
  | Some (2%nat, (lo, hi)) =>
    if between lo p1 hi then
      zlist_eqb
        (EncodeRuneZ (Z.lor (Z.shiftl (Z.land p0 31) 6) (Z.land p1 63)))
        [p0; p1]
    else true
  | _ => true
  end.

Definition round3 (p0 p1 p2 : Z) : bool :=
  match first p0 with
  | Some (3%nat, (lo, hi)) =>
    if between lo p1 hi && between 128 p2 191 then
      zlist_eqb
        (EncodeRuneZ (Z.lor (Z.lor (Z.shiftl (Z.land p0 15) 12)
                                   (Z.shiftl (Z.land p1 63) 6))
                            (Z.land p2 63)))
        [p0; p1; p2]
    else true
  | _ => true
  end.

Definition round4 (p0 p1 p2 p3 : Z) : bool :=
  match first p0 with
  | Some (4%nat, (lo, hi)) =>
    if between lo p1 hi && between 128 p2 191 && between 128 p3 191 then
      zlist_eqb
        (EncodeRuneZ (Z.lor (Z.lor (Z.lor (Z.shiftl (Z.land p0 7) 18)
                                          (Z.shiftl (Z.land p1 63) 12))
                                   (Z.shiftl (Z.land p2 63) 6))
                            (Z.land p3 63)))
        [p0; p1; p2; p3]
    else true
  | _ => true
  end.

(** A sequence of two to four bytes that [DecodeRune] takes whole. *)
Definition valid_utf8 (bs : list byte) : bool :=
  let '(_, w) := DecodeRune bs in
  (w =? List.length bs)%nat && (1 <? w)%nat.

(** The pieces of a string literal that [lexString] and [escapeSeq] take:
    a plain ASCII byte, a rune of two to four bytes, a byte above 127 that
    cannot start a rune, a backslash with [t], [r], a quote of either kind
    or a backslash, a backslash with two hex digits, and a backslash with
    [u] and hex digits between braces. *)
Inductive piece : Set :=
  | Plain (b : byte)
  | Utf8 (bs : list byte)
  | Stray (b : byte)
  | Simple (c : byte)
  | Hex (d1 d2 : byte)
  | Uni (ds : list byte).

(** What [escapeSeq] returns for the one-character escapes. *)
Definition simple_value (c : byte) : option byte :=
  if b2z c =? chr "t" then Some x09
  else if b2z c =? chr "r" then Some x0d
  else if b2z c =? quote then Some x22
  else if b2z c =? chr "'" then Some x27
  else if b2z c =? backslash then Some x5c
  else None.

Definition well_formed (x : piece) : bool :=
  match x with
  | Plain b => ascii_without string_specials [b]
  | Utf8 bs => valid_utf8 bs
  | Stray b =>
    (128 <=? b2z b)
    && match first (b2z b) with None => true | Some _ => false end
  | Simple c => match simple_value c with Some _ => true | None => false end
  | Hex d1 d2 => isHexDigit (b2z d1) && isHexDigit (b2z d2)
  | Uni ds => (List.length ds <=? 7)%nat && all_hex ds
  end.

(** The bytes of a piece in the source. *)
Definition written (x : piece) : list byte :=
  match x with
  | Plain b => [b]
  | Utf8 bs => bs
  | Stray b => [b]
  | Simple c => [x5c; c]
  | Hex d1 d2 => [x5c; d1; d2]
  | Uni ds => x5c :: x75 :: x7b :: ds ++ [x7d]
  end.

(** The bytes a piece adds to the payload; a byte that cannot start a rune
    is replaced by the encoding of U+FFFD. *)
Definition value (x : piece) : list byte :=
  match x with
  | Plain b => [b]
  | Utf8 bs => bs
  | Stray b => [xef; xbf; xbd]
  | Simple c => match simple_value c with Some v => [v] | None => [] end
  | Hex d1 d2 => EncodeRune (ParseUint16 [b2z d1; b2z d2])
  | Uni ds => EncodeRune (ParseUint16 (map b2z ds))
  end.

Definition source (ps : list piece) : list byte := List.concat (map written ps).

Definition payload_of (ps : list piece) : list byte := List.concat (map value ps).


(** The loop of [lexBlockComment] over ASCII bytes, with its look-ahead of
    one byte: the number of bytes read when the level comes down to zero,
    if it ever does. *)
Fixpoint closes (level : Z) (t : list byte) : option nat :=
  if level <=? 0 then Some 0%nat
  else
    match t with
    | [] => None
    | b :: t' =>
      let ahead := match t' with c :: _ => b2z c | [] => eof end in
      let level' :=
        if b2z b =? chr "(" then
          if ahead =? chr ";" then level + 1 else level
        else if b2z b =? chr ";" then
          if ahead =? chr ")" then level - 1 else level
        else level in
      option_map S (closes level' t')
    end.

(** * Properties *)

(** ** The lexer's primitives *)

Lemma advances_refl l : advances l l.
Proof. unfold advances; intuition lia. Qed.

Lemma advances_trans l1 l2 l3 :
  advances l1 l2 -> advances l2 l3 -> advances l1 l3.
Proof.
  unfold advances.
  intros (Hi & Hs & Ht & Hst & Hc & Hp & Hb) (Hi' & Hs' & Ht' & Hst' & Hc' & Hp' & Hb').
  rewrite Hi in *.
  repeat split; try congruence; lia.
Qed.

Lemma DecodeRune_width p r w :
  DecodeRune p = (r, w) -> (w <= List.length p)%nat /\ (p <> [] -> (1 <= w)%nat).
Proof.
  unfold DecodeRune.
  destruct p as [|b0 p1]; [intros [= <- <-]; simpl; split; [lia|congruence]|].
  destruct (b2z b0 <? 128); [intros [= <- <-]; simpl; split; lia|].
  destruct (first (b2z b0)) as [[sz [lo hi]]|]; [|intros [= <- <-]; simpl; split; lia].
  destruct (List.length (b0 :: p1) <? sz)%nat; [intros [= <- <-]; simpl; split; lia|].
  destruct p1 as [|b1 p2]; [intros [= <- <-]; simpl; split; lia|].
  destruct (negb (between lo (b2z b1) hi)); [intros [= <- <-]; simpl; split; lia|].
  destruct (sz <=? 2)%nat; [intros [= <- <-]; simpl; split; lia|].
  destruct p2 as [|b2 p3]; [intros [= <- <-]; simpl; split; lia|].
  destruct (negb (between 128 (b2z b2) 191)); [intros [= <- <-]; simpl; split; lia|].
  destruct (sz <=? 3)%nat; [intros [= <- <-]; simpl; split; lia|].
  destruct p3 as [|b3 p4]; [intros [= <- <-]; simpl; split; lia|].
  destruct (negb (between 128 (b2z b3) 191)); intros [= <- <-]; simpl; split; lia.
Qed.

(** [next] either reports the end of the input without moving, or moves
    forward by the [width] it records. *)
Lemma next_spec l r l1 :
  next l = (r, l1) ->
  input l1 = input l /\ start l1 = start l /\ tokens l1 = tokens l /\
  state l1 = state l /\ closed l1 = closed l /\
  pos l1 = (pos l + width l1)%nat /\
  ((pos l <= List.length (input l))%nat ->
   (pos l1 <= List.length (input l))%nat).
Proof.
  unfold next.
  destruct (List.length (input l) <=? pos l)%nat eqn:E.
  - intros [= <- <-]; simpl. repeat split; lia.
  - destruct (DecodeRune (skipn (pos l) (input l))) as [r' w] eqn:D.
    intros [= <- <-]; simpl. repeat split; try lia.
    apply Nat.leb_gt in E. intros _.
    apply DecodeRune_width in D. destruct D as [D _].
    rewrite length_skipn in D. lia.
Qed.

Lemma next_width_le l r l1 : next l = (r, l1) -> (width l1 <= pos l1)%nat.
Proof. intros H. apply next_spec in H. lia. Qed.

Lemma next_advances l r l1 : next l = (r, l1) -> advances l l1.
Proof. intros H. apply next_spec in H. unfold advances. intuition lia. Qed.

(** [backup] right after [next] returns to where [next] started. *)
Lemma next_backup l r l1 :
  next l = (r, l1) -> advances l (backup l1) /\ pos (backup l1) = pos l.
Proof.
  intros H. apply next_spec in H. unfold advances, backup; simpl.
  intuition lia.
Qed.

Lemma peek_spec l r l1 :
  peek l = (r, l1) -> advances l l1 /\ pos l1 = pos l.
Proof.
  unfold peek. destruct (next l) as [r' l'] eqn:E. intros [= <- <-].
  apply next_backup in E. unfold advances in *; simpl in *. intuition lia.
Qed.

Lemma accept_advances valid l b l1 : accept valid l = (b, l1) -> advances l l1.
Proof.
  unfold accept. destruct (next l) as [r l'] eqn:E.
  destruct (IndexRune valid r); intros [= <- <-].
  - eapply next_advances; eauto.
  - apply next_backup in E. tauto.
Qed.

Lemma acceptRun_loop_advances fuel : forall valid c l n l1,
  acceptRun_loop fuel valid c l = Some (n, l1) -> advances l l1.
Proof.
  induction fuel as [|f IH]; simpl; intros valid c l n l1 H; [discriminate|].
  destruct (next l) as [r l'] eqn:E.
  destruct (IndexRune valid r).
  - eapply advances_trans; [eapply next_advances; eauto|eapply IH; eauto].
  - injection H as <- <-. apply next_backup in E. tauto.
Qed.

Lemma acceptRun_advances fuel valid l n l1 :
  acceptRun fuel valid l = Some (n, l1) -> advances l l1.
Proof. apply acceptRun_loop_advances. Qed.

(** ** Fuel

    More fuel never changes an answer: [None] is the only outcome that
    depends on the fuel given. *)

Lemma acceptRun_loop_mono f : forall f' valid c l r,
  (f <= f')%nat ->
  acceptRun_loop f valid c l = Some r -> acceptRun_loop f' valid c l = Some r.
Proof.
  induction f as [|f IH]; intros f' valid c l r Hle H; [discriminate|].
  destruct f' as [|f']; [lia|]. simpl in *.
  destruct (next l) as [x l1]. destruct (IndexRune valid x); auto.
  apply IH; [lia|assumption].
Qed.

Lemma acceptRun_mono f f' valid l r :
  (f <= f')%nat ->
  acceptRun f valid l = Some r -> acceptRun f' valid l = Some r.
Proof. apply acceptRun_loop_mono. Qed.

Lemma lexDefault_mono f : forall f' l r,
  (f <= f')%nat -> lexDefault f l = Some r -> lexDefault f' l = Some r.
Proof.
  induction f as [|f IH]; intros f' l r Hle H; [discriminate|].
  destruct f' as [|f']; [lia|]. simpl in *.
  destruct (next l) as [x l1].
  destruct (x =? eof); auto.
  destruct (isSpace x); auto.
  apply IH; [lia|assumption].
Qed.

Lemma lexBlockComment_loop_mono f : forall f' level l r,
  (f <= f')%nat ->
  lexBlockComment_loop f level l = Some r ->
  lexBlockComment_loop f' level l = Some r.
Proof.
  induction f as [|f IH]; intros f' level l r Hle H.
  - simpl in H. destruct (level <=? 0) eqn:E; [|discriminate].
    destruct f'; simpl; rewrite E; assumption.
  - destruct f' as [|f']; [lia|]. simpl in *.
    destruct (level <=? 0); auto.
    destruct (next l) as [x l1].
    destruct (x =? chr "(").
    + destruct (peek l1) as [x2 l2]. apply IH; [lia|assumption].
    + destruct (x =? chr ";").
      * destruct (peek l1) as [x2 l2]. apply IH; [lia|assumption].
      * apply IH; [lia|assumption].
Qed.

Lemma lexBlockComment_mono f f' l r :
  (f <= f')%nat -> lexBlockComment f l = Some r -> lexBlockComment f' l = Some r.
Proof.
  intros Hle. unfold lexBlockComment.
  destruct (accept ";" l) as [b l1].
  destruct (lexBlockComment_loop f 1 l1) as [l2|] eqn:E; [|discriminate].
  rewrite (lexBlockComment_loop_mono _ _ _ _ _ Hle E). auto.
Qed.

Lemma lexNumber_mono f f' l r :
  (f <= f')%nat -> lexNumber f l = Some r -> lexNumber f' l = Some r.
Proof.
  intros Hle. unfold lexNumber.
  destruct (accept sign l) as [b1 l1].
  destruct (accept "0" l1) as [z l2].
  destruct (if z then accept "xX" l2 else (false, l2)) as [h l3].
  destruct (acceptRun f _ l3) as [[n4 l4]|] eqn:E1; [|discriminate].
  rewrite (acceptRun_mono _ _ _ _ _ Hle E1).
  destruct (accept "." l4) as [d l5].
  destruct (if d then acceptRun f _ l5 else Some (0%nat, l5))
    as [[n6 l6]|] eqn:E2; [|discriminate].
  assert (E2' : (if d then acceptRun f' ((if h then hexDigit else digit) ++ "_") l5
                 else Some (0%nat, l5)) = Some (n6, l6)).
  { destruct d; [eapply acceptRun_mono; eauto|assumption]. }
  rewrite E2'.
  destruct (accept "eEpP" l6) as [ex l7].
  destruct ex; [|auto].
  destruct (accept sign l7) as [b8 l8].
  destruct (acceptRun f _ l8) as [[n9 l9]|] eqn:E3; [|discriminate].
  rewrite (acceptRun_mono _ _ _ _ _ Hle E3). auto.
Qed.

Lemma lexKeyword_mono f f' l r :
  (f <= f')%nat -> lexKeyword f l = Some r -> lexKeyword f' l = Some r.
Proof.
  intros Hle. unfold lexKeyword.
  destruct (acceptRun f keyword l) as [[n l1]|] eqn:E; [|discriminate].
  rewrite (acceptRun_mono _ _ _ _ _ Hle E). auto.
Qed.

Lemma lexComment_loop_mono f : forall f' l r,
  (f <= f')%nat -> lexComment_loop f l = Some r -> lexComment_loop f' l = Some r.
Proof.
  induction f as [|f IH]; intros f' l r Hle H; [discriminate|].
  destruct f' as [|f']; [lia|]. simpl in *.
  destruct (next l) as [x l1].
  destruct ((x =? eof) || (x =? newline)); auto.
  apply IH; [lia|assumption].
Qed.

Lemma lexComment_mono f f' l r :
  (f <= f')%nat -> lexComment f l = Some r -> lexComment f' l = Some r.
Proof.
  intros Hle. unfold lexComment.
  destruct (accept ";" l) as [b l1]. destruct (negb b); [auto|].
  destruct (lexComment_loop f l1) as [l2|] eqn:E; [|discriminate].
  rewrite (lexComment_loop_mono _ _ _ _ Hle E). auto.
Qed.

Lemma lexIdentifier_mono f f' l r :
  (f <= f')%nat -> lexIdentifier f l = Some r -> lexIdentifier f' l = Some r.
Proof.
  intros Hle. unfold lexIdentifier.
  destruct (acceptRun f idChar l) as [[n l1]|] eqn:E; [|discriminate].
  rewrite (acceptRun_mono _ _ _ _ _ Hle E). auto.
Qed.

Lemma lexString_loop_mono f : forall f' s l r,
  (f <= f')%nat ->
  lexString_loop f s l = Some r -> lexString_loop f' s l = Some r.
Proof.
  induction f as [|f IH]; intros f' s l r Hle H; [discriminate|].
  destruct f' as [|f']; [lia|]. simpl in *.
  destruct (next l) as [x l1].
  destruct (x =? backslash).
  - destruct (escapeSeq l1) as [[s1 err] l2]. destruct err; auto.
    apply IH; [lia|assumption].
  - destruct (x =? quote); auto.
    destruct ((x =? eof) || (x =? newline) || (x =? creturn)); auto.
    apply IH; [lia|assumption].
Qed.

Lemma run_mono f f' st l r :
  (f <= f')%nat -> run f st l = Some r -> run f' st l = Some r.
Proof.
  destruct st; simpl.
  - apply lexDefault_mono.
  - apply lexBlockComment_mono.
  - apply lexNumber_mono.
  - apply lexKeyword_mono.
  - apply lexComment_mono.
  - apply lexIdentifier_mono.
  - apply lexString_loop_mono.
Qed.

Lemma nextToken_mono f : forall f' l r,
  (f <= f')%nat -> nextToken f l = Some r -> nextToken f' l = Some r.
Proof.
  induction f as [|f IH]; intros f' l r Hle H.
  - destruct f'; simpl in *; destruct (tokens l); auto;
      destruct (closed l); auto; destruct (state l); auto; discriminate.
  - destruct f' as [|f']; [lia|]. simpl in *.
    destruct (tokens l); auto. destruct (closed l); auto.
    destruct (state l) as [st|]; auto.
    destruct (run f st l) as [[st' l']|] eqn:E; [|discriminate].
    rewrite (run_mono f f' st l _ ltac:(lia) E).
    apply IH; [lia|assumption].
Qed.

Lemma Parse_loop_mono f : forall f' l r,
  (f <= f')%nat -> Parse_loop f l = Some r -> Parse_loop f' l = Some r.
Proof.
  induction f as [|f IH]; intros f' l r Hle H; [discriminate|].
  destruct f' as [|f']; [lia|]. simpl in *.
  destruct (nextToken f l) as [[t l']|] eqn:E; [|discriminate].
  rewrite (nextToken_mono f f' l _ ltac:(lia) E).
  destruct (isEOF (kind t)); auto. destruct (isError (kind t)); auto.
  apply IH; [lia|assumption].
Qed.

Lemma Parse_mono f f' p c r :
  (f <= f')%nat -> Parse f p c = Some r -> Parse f' p c = Some r.
Proof.
  intros Hle. unfold Parse. destruct (NewNode OpStart EmptyString [None] c) as [n c'].
  destruct (Parse_loop f (lex p)) as [[e l']|] eqn:E; [|discriminate].
  rewrite (Parse_loop_mono _ _ _ _ Hle E). auto.
Qed.

Lemma scan_mono f : forall f' l r,
  (f <= f')%nat -> scan f l = Some r -> scan f' l = Some r.
Proof.
  induction f as [|f IH]; intros f' l r Hle H; [discriminate|].
  destruct f' as [|f']; [lia|]. simpl in *.
  destruct (nextToken f l) as [[t l']|] eqn:E; [|discriminate].
  rewrite (nextToken_mono f f' l _ ltac:(lia) E).
  destruct (isEOF (kind t) || isError (kind t)); auto.
  destruct (scan f l') as [ts|] eqn:E'; [|discriminate].
  rewrite (IH f' l' ts ltac:(lia) E'). assumption.
Qed.

(** ** Reading ASCII bytes *)

Lemma skipn_cons_length {A} (p : nat) (inp : list A) b rest :
  skipn p inp = b :: rest -> (p < List.length inp)%nat.
Proof.
  intros H. destruct (Nat.ltb_spec p (List.length inp)); [assumption|].
  rewrite skipn_all2 in H by lia. discriminate.
Qed.

Lemma skipn_cons_succ {A} (p : nat) (inp : list A) b rest :
  skipn p inp = b :: rest -> skipn (p + 1) inp = rest.
Proof.
  intros H. rewrite Nat.add_comm, <- skipn_skipn, H. reflexivity.
Qed.

Lemma skipn_app_length {A} (p : nat) (inp a b : list A) :
  skipn p inp = a ++ b -> skipn (p + List.length a) inp = b.
Proof.
  intros E.
  rewrite Nat.add_comm, <- skipn_skipn, E, skipn_app, skipn_all, Nat.sub_diag.
  reflexivity.
Qed.

Lemma skipn_nil_length {A} (p : nat) (inp : list A) :
  skipn p inp = [] -> (List.length inp <= p)%nat.
Proof.
  intros H. apply (f_equal (@List.length A)) in H.
  rewrite length_skipn in H. simpl in H. lia.
Qed.

Lemma next_ascii l b rest :
  skipn (pos l) (input l) = b :: rest -> b2z b < 128 ->
  next l = (b2z b, set_pos (set_width l 1) (pos l + 1)).
Proof.
  intros H Hb. unfold next.
  pose proof (skipn_cons_length _ _ _ _ H) as Hlt.
  apply Nat.leb_gt in Hlt. rewrite Hlt, H. unfold DecodeRune.
  apply Z.ltb_lt in Hb. rewrite Hb. reflexivity.
Qed.

Lemma next_eof l :
  skipn (pos l) (input l) = [] -> next l = (eof, set_width l 0).
Proof.
  intros H. unfold next. apply skipn_nil_length in H.
  apply Nat.leb_le in H. rewrite H. reflexivity.
Qed.

Lemma ascii_without_cons cs b bs :
  ascii_without cs (b :: bs) = true ->
  b2z b < 128 /\ (forall c, In c cs -> b2z b <> c) /\ ascii_without cs bs = true.
Proof.
  unfold ascii_without; simpl. intros H.
  apply andb_prop in H. destruct H as [H Hbs].
  apply andb_prop in H. destruct H as [Hlt Hne].
  apply Z.ltb_lt in Hlt. repeat split; auto.
  intros c Hc Heq. subst c. apply negb_true_iff in Hne.
  assert (existsb (Z.eqb (b2z b)) cs = true); [|congruence].
  apply existsb_exists. exists (b2z b). split; [assumption|apply Z.eqb_refl].
Qed.

(** Looking one rune ahead in a run of such bytes never shows one of [cs]. *)
Lemma peek_ascii_without cs l :
  ascii_without cs (skipn (pos l) (input l)) = true -> ~ In eof cs ->
  exists r l2, peek l = (r, l2) /\ ~ In r cs /\
    pos l2 = pos l /\ input l2 = input l.
Proof.
  intros H H0. unfold peek.
  destruct (skipn (pos l) (input l)) as [|b rest] eqn:E.
  - rewrite (next_eof l E). do 2 eexists; split; [reflexivity|].
    simpl. repeat split; auto. lia.
  - apply ascii_without_cons in H. destruct H as (Hlt & Hne & _).
    rewrite (next_ascii l b rest E Hlt). do 2 eexists; split; [reflexivity|].
    simpl. repeat split; try lia. intros Hin. exact (Hne _ Hin eq_refl).
Qed.

(** ** The block comment that is never closed *)

(** With no semicolon ahead the nesting level never drops: the loop of
    [lexBlockComment] has no case for the end of the input, where [next]
    keeps answering [eof]. *)
Lemma lexBlockComment_loop_spins fuel : forall level l,
  0 < level ->
  ascii_without [chr ";"] (skipn (pos l) (input l)) = true ->
  lexBlockComment_loop fuel level l = None.
Proof.
  induction fuel as [|f IH]; intros level l Hlev H; simpl;
    (destruct (Z.leb_spec level 0); [lia|]); [reflexivity|].
  destruct (skipn (pos l) (input l)) as [|b rest] eqn:E.
  - rewrite (next_eof l E). change (eof =? chr "(") with false.
    change (eof =? chr ";") with false. cbv iota.
    apply IH; [assumption|]. simpl. rewrite E. reflexivity.
  - apply ascii_without_cons in H. destruct H as (Hlt & Hne & Hrest).
    rewrite (next_ascii l b rest E Hlt).
    assert (Hl1 : ascii_without [chr ";"]
              (skipn (pos (set_pos (set_width l 1) (pos l + 1)))
                     (input (set_pos (set_width l 1) (pos l + 1)))) = true).
    { simpl. rewrite (skipn_cons_succ _ _ _ _ E). assumption. }
    destruct (b2z b =? chr "(").
    + destruct (peek_ascii_without _ _ Hl1) as (r2 & l2 & Hp & Hr2 & Hpos & Hin).
      { simpl. intros [C|[]]. discriminate C. }
      rewrite Hp.
      assert (Hne2 : (r2 =? chr ";") = false).
      { apply Z.eqb_neq. intros ->. apply Hr2. left. reflexivity. }
      rewrite Hne2. apply IH; [assumption|]. rewrite Hpos, Hin. assumption.
    + assert (Hne1 : (b2z b =? chr ";") = false).
      { apply Z.eqb_neq. apply Hne. left. reflexivity. }
      rewrite Hne1. apply IH; assumption.
Qed.

Lemma nextToken_unclosed fuel rest :
  ascii_without [chr ";"] rest = true ->
  nextToken fuel (NewLexer (bytes "(;" ++ rest)) = None.
Proof.
  intros H.
  destruct fuel as [|[|f]]; [reflexivity|reflexivity|].
  cbn -[lexBlockComment nextToken].
  destruct f as [|f]; [reflexivity|].
  cbn -[lexBlockComment_loop].
  rewrite lexBlockComment_loop_spins; [reflexivity|lia|].
  simpl. assumption.
Qed.

(** C1 (the code departs from it): scanning an input that opens a block
    comment and holds no semicolon afterwards never produces a token, not
    even an error token: whatever the fuel, the scanner is still running. *)
Theorem unclosed_block_comment_never_returns fuel rest :
  ascii_without [chr ";"] rest = true ->
  scan_input fuel (bytes "(;" ++ rest) = None /\
  forall c, Parse fuel (NewParser (bytes "(;" ++ rest)) c = None.
Proof.
  intros H. split.
  - unfold scan_input. destruct fuel as [|f]; [reflexivity|].
    cbn [scan]. rewrite nextToken_unclosed; auto.
  - intros c. unfold Parse, NewParser. cbn [lex].
    destruct (NewNode OpStart EmptyString [None] c) as [n c'].
    destruct fuel as [|f]; [reflexivity|].
    cbn [Parse_loop]. rewrite nextToken_unclosed; auto.
Qed.

Lemma unclosed_block_comment_never_returns_witness :
  ascii_without [chr ";"] (bytes " never closed") = true /\
  forall fuel, scan_input fuel never_closed = None.
Proof.
  split; [reflexivity|].
  intros fuel.
  exact (proj1 (unclosed_block_comment_never_returns fuel
                  (bytes " never closed") eq_refl)).
Defined.

(** ** A lone sign *)

(** C9: the one-byte inputs [+] and [-] scan to a number token whose payload
    is the sign, followed by the end-of-input token; no error token. *)
Theorem lone_sign_is_number fuel :
  scan_input (5 + fuel) (bytes "+")
    = Some [tok tokenNumber (bytes "+"); tok tokenEOF []] /\
  scan_input (5 + fuel) (bytes "-")
    = Some [tok tokenNumber (bytes "-"); tok tokenEOF []].
Proof.
  split; apply scan_mono with (f := 5%nat); try lia; vm_compute; reflexivity.
Qed.

(** ** Payloads and spans *)

Lemma in_order_le inp ts : forall lo hi, in_order inp lo hi ts -> (lo <= hi)%nat.
Proof.
  induction ts as [|t ts IH]; simpl; intros lo hi H; [assumption|].
  destruct H as (a & b & Hab & _ & H). apply IH in H. lia.
Qed.

Lemma in_order_widen inp ts : forall lo hi hi',
  in_order inp lo hi ts -> (hi <= hi')%nat -> in_order inp lo hi' ts.
Proof.
  induction ts as [|t ts IH]; simpl; intros lo hi hi' H Hle; [lia|].
  destruct H as (a & b & Hab & Hv & H). exists a, b. eauto.
Qed.

Lemma in_order_snoc inp t a b ts : forall lo hi,
  in_order inp lo hi ts -> (hi <= a <= b)%nat ->
  (emitted_raw (kind t) = true -> val t = Bytes (slice inp a b)) ->
  in_order inp lo b (ts ++ [t]).
Proof.
  induction ts as [|t0 ts IH]; simpl; intros lo hi H Hab Hv.
  - exists a, b. repeat split; auto; lia.
  - destruct H as (a0 & b0 & Hab0 & Hv0 & H). exists a0, b0. eauto.
Qed.

Lemma good_NewLexer inp : good inp 0 (NewLexer inp).
Proof. unfold good; simpl. repeat split; auto; lia. Qed.

Lemma advances_good inp lo l l' : advances l l' -> good inp lo l -> good inp lo l'.
Proof.
  unfold advances, good.
  intros (Hi & Hs & Ht & _ & _ & Hp & Hb) (Hin & Hr & Hf).
  rewrite Hi, Hs, Ht. rewrite Hin in Hb. repeat split; auto; lia.
Qed.

Lemma ignore_good inp lo l : good inp lo l -> good inp lo (ignore l).
Proof.
  unfold good, ignore; simpl. intros (Hin & Hr & Hf).
  repeat split; auto; try lia. eapply in_order_widen; eauto; lia.
Qed.

Lemma set_state_good inp lo l st : good inp lo l -> good inp lo (set_state l st).
Proof. unfold good; simpl. auto. Qed.

Lemma emit_good inp lo k l : good inp lo l -> good inp lo (emit k l).
Proof.
  unfold good, emit, send, lexeme; simpl. intros (Hin & Hr & Hf).
  repeat split; auto; try lia.
  apply (in_order_snoc inp _ (start l) (pos l) _ lo (start l)); auto; try lia.
  intros _. simpl. rewrite Hin. reflexivity.
Qed.

Lemma emitWithData_good inp lo s l :
  good inp lo l -> good inp lo (emitWithData tokenString s l).
Proof.
  unfold good, emitWithData, send; simpl. intros (Hin & Hr & Hf).
  repeat split; auto; try lia.
  apply (in_order_snoc inp _ (start l) (pos l) _ lo (start l)); auto; try lia.
  intros C. discriminate C.
Qed.

Lemma errorf_good inp lo m l : good inp lo l -> good inp lo (snd (errorf m l)).
Proof.
  unfold good, errorf, send; simpl. intros (Hin & Hr & Hf).
  repeat split; auto; try lia.
  apply (in_order_snoc inp _ (start l) (start l) _ lo (start l)); auto; try lia.
  intros C. discriminate C.
Qed.

Lemma errorf_step_good inp lo m l st l' :
  Some (errorf m l) = Some (st, l') -> good inp lo l -> good inp lo l'.
Proof. intros [= <- <-]. apply (errorf_good inp lo m l). Qed.

Lemma lexComment_loop_advances fuel : forall l l1,
  lexComment_loop fuel l = Some l1 -> advances l l1.
Proof.
  induction fuel as [|f IH]; simpl; intros l l1 H; [discriminate|].
  destruct (next l) as [r l'] eqn:E. apply next_advances in E.
  destruct ((r =? eof) || (r =? newline)).
  - injection H as <-. assumption.
  - eapply advances_trans; eauto.
Qed.

Lemma lexBlockComment_loop_advances fuel : forall level l l1,
  lexBlockComment_loop fuel level l = Some l1 -> advances l l1.
Proof.
  induction fuel as [|f IH]; simpl; intros level l l1 H.
  - destruct (level <=? 0); [|discriminate].
    injection H as <-. apply advances_refl.
  - destruct (level <=? 0); [injection H as <-; apply advances_refl|].
    destruct (next l) as [r l'] eqn:E. apply next_advances in E.
    destruct (r =? chr "(").
    + destruct (peek l') as [r2 l2] eqn:P. apply peek_spec in P.
      eapply advances_trans; [eassumption|].
      eapply advances_trans; [apply P|]. eauto.
    + destruct (r =? chr ";").
      * destruct (peek l') as [r2 l2] eqn:P. apply peek_spec in P.
        eapply advances_trans; [eassumption|].
        eapply advances_trans; [apply P|]. eauto.
      * eapply advances_trans; eauto.
Qed.

Lemma unicode_digits_advances n : forall s l,
  match unicode_digits n s l with
  | inl (_, l1) | inr (_, l1) => advances l l1
  end.
Proof.
  induction n as [|n IH]; simpl; intros s l; [apply advances_refl|].
  destruct (next l) as [d l'] eqn:E.
  destruct (d =? chr "}").
  - apply next_backup in E. tauto.
  - apply next_advances in E. destruct (d =? eof); [assumption|].
    destruct (negb (isHexDigit d)); [assumption|].
    specialize (IH (s ++ [d]) l').
    destruct (unicode_digits n (s ++ [d]) l') as [[e l1]|[s1 l1]];
      eapply advances_trans; eauto.
Qed.

Lemma escapeSeq_advances l s err l1 :
  escapeSeq l = (s, err, l1) -> advances l l1.
Proof.
  unfold escapeSeq. destruct (next l) as [r l'] eqn:E.
  apply next_advances in E.
  repeat (match goal with
          | |- (if ?c then _ else _) = _ -> _ => destruct c
          end; [intros [= <- <- <-]; assumption|]).
  destruct (isHexDigit r).
  - destruct (next l') as [r2 l2] eqn:E2. apply next_advances in E2.
    destruct (negb (r2 =? eof) && isHexDigit r2); intros [= <- <- <-];
      eapply advances_trans; eauto.
  - destruct (r =? chr "u"); [|intros [= <- <- <-]; assumption].
    destruct (accept "{" l') as [ok l2] eqn:A. apply accept_advances in A.
    pose proof (advances_trans _ _ _ E A) as E2.
    destruct (negb ok); [intros [= <- <- <-]; assumption|].
    pose proof (unicode_digits_advances 7 [] l2) as U.
    destruct (unicode_digits 7 [] l2) as [[e l3]|[ds l3]].
    + intros [= <- <- <-]. eapply advances_trans; eauto.
    + destruct (accept "}" l3) as [ok' l4] eqn:A'.
      apply accept_advances in A'.
      destruct (negb ok'); intros [= <- <- <-];
        eapply advances_trans; eauto; eapply advances_trans; eauto.
Qed.

Lemma lexDefault_good inp lo fuel : forall l st l',
  lexDefault fuel l = Some (st, l') -> good inp lo l -> good inp lo l'.
Proof.
  induction fuel as [|f IH]; simpl; intros l st l' H G; [discriminate|].
  destruct (next l) as [r l1] eqn:E.
  pose proof (advances_good inp lo _ _ (next_advances _ _ _ E) G) as G1.
  pose proof (advances_good inp lo _ _ (proj1 (next_backup _ _ _ E)) G) as Gb.
  destruct (r =? eof); [injection H as <- <-; apply emit_good; assumption|].
  destruct (isSpace r); [eapply IH; eauto using ignore_good|].
  destruct (r =? chr ";"); [injection H as <- <-; assumption|].
  destruct ((r =? chr "+") || (r =? chr "-") || ((chr "0" <=? r) && (r <=? chr "9")));
    [injection H as <- <-; assumption|].
  destruct (r =? chr "$"); [injection H as <- <-; assumption|].
  destruct (r =? quote); [injection H as <- <-; assumption|].
  destruct (r =? chr "(").
  { destruct (peek l1) as [r2 l2] eqn:P. apply peek_spec in P.
    pose proof (advances_good inp lo _ _ (proj1 P) G1) as G2.
    destruct (r2 =? chr ";"); injection H as <- <-;
      [assumption|apply emit_good; assumption]. }
  destruct (r =? chr ")"); [injection H as <- <-; apply emit_good; assumption|].
  destruct (isLowercaseLetter r); [injection H as <- <-; assumption|].
  eapply errorf_step_good; eauto.
Qed.

Lemma lexBlockComment_good inp lo fuel l st l' :
  lexBlockComment fuel l = Some (st, l') -> good inp lo l -> good inp lo l'.
Proof.
  unfold lexBlockComment. destruct (accept ";" l) as [b l1] eqn:A.
  apply accept_advances in A.
  destruct (lexBlockComment_loop fuel 1 l1) as [l2|] eqn:L; [|discriminate].
  apply lexBlockComment_loop_advances in L.
  intros [= <- <-] G. eauto using advances_good.
Qed.

Lemma lexNumber_good inp lo fuel l st l' :
  lexNumber fuel l = Some (st, l') -> good inp lo l -> good inp lo l'.
Proof.
  unfold lexNumber. intros H G.
  destruct (accept sign l) as [b1 l1] eqn:A1. apply accept_advances in A1.
  destruct (accept "0" l1) as [z l2] eqn:A2. apply accept_advances in A2.
  assert (G3 : forall h l3,
    (if z then accept "xX" l2 else (false, l2)) = (h, l3) -> good inp lo l3).
  { intros h l3 A3. destruct z.
    - apply accept_advances in A3. eauto using advances_good.
    - injection A3 as <- <-. eauto using advances_good. }
  destruct (if z then accept "xX" l2 else (false, l2)) as [h l3].
  specialize (G3 h l3 eq_refl).
  destruct (acceptRun fuel _ l3) as [[n4 l4]|] eqn:R4; [|discriminate].
  apply acceptRun_advances in R4.
  destruct (accept "." l4) as [d l5] eqn:A5. apply accept_advances in A5.
  assert (G5 : good inp lo l5) by eauto using advances_good.
  destruct d.
  - destruct (acceptRun fuel _ l5) as [[n6 l6]|] eqn:R6; [|discriminate].
    apply acceptRun_advances in R6.
    destruct (accept "eEpP" l6) as [ex l7] eqn:A7. apply accept_advances in A7.
    assert (G7 : good inp lo l7) by eauto using advances_good.
    destruct ex.
    + destruct (accept sign l7) as [b8 l8] eqn:A8. apply accept_advances in A8.
      destruct (acceptRun fuel _ l8) as [[n9 l9]|] eqn:R9; [|discriminate].
      apply acceptRun_advances in R9. injection H as <- <-.
      apply emit_good. eauto using advances_good.
    + injection H as <- <-. apply emit_good. assumption.
  - destruct (accept "eEpP" l5) as [ex l7] eqn:A7. apply accept_advances in A7.
    assert (G7 : good inp lo l7) by eauto using advances_good.
    destruct ex.
    + destruct (accept sign l7) as [b8 l8] eqn:A8. apply accept_advances in A8.
      destruct (acceptRun fuel _ l8) as [[n9 l9]|] eqn:R9; [|discriminate].
      apply acceptRun_advances in R9. injection H as <- <-.
      apply emit_good. eauto using advances_good.
    + injection H as <- <-. apply emit_good. assumption.
Qed.

Lemma lexKeyword_good inp lo fuel l st l' :
  lexKeyword fuel l = Some (st, l') -> good inp lo l -> good inp lo l'.
Proof.
  unfold lexKeyword.
  destruct (acceptRun fuel keyword l) as [[n l1]|] eqn:R; [|discriminate].
  apply acceptRun_advances in R.
  destruct (assoc key (lexeme l1)); intros [= <- <-] G;
    apply emit_good; eauto using advances_good.
Qed.

Lemma lexComment_good inp lo fuel l st l' :
  lexComment fuel l = Some (st, l') -> good inp lo l -> good inp lo l'.
Proof.
  unfold lexComment. destruct (accept ";" l) as [ok l1] eqn:A.
  apply accept_advances in A. destruct (negb ok).
  - destruct (next l1) as [r l2] eqn:E. apply next_advances in E.
    intros H G. eapply errorf_step_good; [exact H|]. eauto using advances_good.
  - destruct (lexComment_loop fuel l1) as [l2|] eqn:L; [|discriminate].
    apply lexComment_loop_advances in L.
    intros [= <- <-] G. eauto using advances_good.
Qed.

Lemma lexIdentifier_good inp lo fuel l st l' :
  lexIdentifier fuel l = Some (st, l') -> good inp lo l -> good inp lo l'.
Proof.
  unfold lexIdentifier.
  destruct (acceptRun fuel idChar l) as [[n l1]|] eqn:R; [|discriminate].
  apply acceptRun_advances in R. intros H G.
  assert (G1 : good inp lo l1) by eauto using advances_good.
  destruct (n <? 2)%nat.
  - eapply errorf_step_good; eauto.
  - injection H as <- <-. apply emit_good. assumption.
Qed.

Lemma lexString_loop_good inp lo fuel : forall s l st l',
  lexString_loop fuel s l = Some (st, l') -> good inp lo l -> good inp lo l'.
Proof.
  induction fuel as [|f IH]; simpl; intros s l st l' H G; [discriminate|].
  destruct (next l) as [r l1] eqn:E. apply next_advances in E.
  assert (G1 : good inp lo l1) by eauto using advances_good.
  destruct (r =? backslash).
  - destruct (escapeSeq l1) as [[s1 err] l2] eqn:Q.
    apply escapeSeq_advances in Q.
    assert (G2 : good inp lo l2) by eauto using advances_good.
    destruct err; [|eauto].
    eapply errorf_step_good; eauto.
  - destruct (r =? quote).
    + injection H as <- <-. apply emitWithData_good. assumption.
    + destruct ((r =? eof) || (r =? newline) || (r =? creturn)); [|eauto].
      eapply errorf_step_good; eauto.
Qed.

Lemma run_good inp lo fuel st0 l st l' :
  run fuel st0 l = Some (st, l') -> good inp lo l -> good inp lo l'.
Proof.
  destruct st0; simpl.
  - apply lexDefault_good.
  - apply lexBlockComment_good.
  - apply lexNumber_good.
  - apply lexKeyword_good.
  - apply lexComment_good.
  - apply lexIdentifier_good.
  - apply lexString_loop_good.
Qed.

Lemma nextToken_good inp fuel : forall lo l t l',
  nextToken fuel l = Some (t, l') -> good inp lo l ->
  exists a b, (lo <= a <= b)%nat /\
    (emitted_raw (kind t) = true -> val t = Bytes (slice inp a b)) /\
    good inp b l'.
Proof.
  assert (Base : forall lo l t l',
    match tokens l with
    | t0 :: ts => Some (t0, set_tokens l ts)
    | [] => if closed l then Some (zero_token, l)
            else match state l with
                 | None => Some (mkToken tokenEOF (Bytes []), set_closed l true)
                 | Some _ => None
                 end
    end = Some (t, l') -> good inp lo l ->
    exists a b, (lo <= a <= b)%nat /\
      (emitted_raw (kind t) = true -> val t = Bytes (slice inp a b)) /\
      good inp b l').
  { intros lo l t l' H (Hin & Hr & Hf). unfold good.
    destruct (tokens l) as [|t0 ts] eqn:T.
    - simpl in Hf. exists lo, lo.
      destruct (closed l).
      + injection H as <- <-. rewrite T. simpl.
        split; [lia|]. split; [intros C; discriminate C|].
        repeat split; auto; lia.
      + destruct (state l); [discriminate|]. injection H as <- <-. simpl.
        rewrite T. simpl. split; [lia|]. split.
        * intros _. unfold slice. rewrite Nat.sub_diag. reflexivity.
        * repeat split; auto; lia.
    - injection H as <- <-. simpl in *.
      destruct Hf as (a & b & Hab & Hv & Hf). exists a, b.
      repeat split; auto; lia. }
  induction fuel as [|f IH]; intros lo l t l' H G.
  - apply (Base lo l t l'); [exact H|assumption].
  - simpl in H. destruct (tokens l) as [|t0 ts] eqn:T.
    + destruct (closed l) eqn:C.
      * apply (Base lo l t l'); [rewrite T, C|]; assumption.
      * destruct (state l) as [st|] eqn:S.
        -- destruct (run f st l) as [[st' l1]|] eqn:R; [|discriminate].
           apply (IH _ _ _ _ H). apply set_state_good.
           eapply run_good; eauto.
        -- apply (Base lo l t l'); [rewrite T, C, S|]; assumption.
    + apply (Base lo l t l'); [rewrite T|]; assumption.
Qed.

Lemma scan_good inp fuel : forall lo l ts,
  scan fuel l = Some ts -> good inp lo l ->
  in_order inp lo (List.length inp) ts.
Proof.
  induction fuel as [|f IH]; simpl; intros lo l ts H G; [discriminate|].
  destruct (nextToken f l) as [[t l']|] eqn:N; [|discriminate].
  destruct (nextToken_good inp _ _ _ _ _ N G) as (a & b & Hab & Hv & G').
  destruct (isEOF (kind t) || isError (kind t)).
  - injection H as <-. simpl. exists a, b.
    destruct G' as (_ & Hr & Hf). apply in_order_le in Hf.
    split; [lia|]. split; [assumption|lia].
  - destruct (scan f l') as [ts'|] eqn:S; [|discriminate].
    injection H as <-. simpl. exists a, b.
    split; [lia|]. split; [assumption|]. eapply IH; eauto.
Qed.

(** ** The channel

    A state function sends at most one token per call, and [nextToken] runs
    one only when the channel is empty: the buffer of capacity 3 never fills
    up and no send blocks. *)

Lemma emit_sends k l l1 :
  tokens l1 = tokens l -> sends_at_most_one l (emit k l1).
Proof. intros H. right. eexists. simpl. rewrite H. reflexivity. Qed.

Lemma emitWithData_sends k d l l1 :
  tokens l1 = tokens l -> sends_at_most_one l (emitWithData k d l1).
Proof. intros H. right. eexists. simpl. rewrite H. reflexivity. Qed.

Lemma errorf_sends m l l1 st l' :
  tokens l1 = tokens l -> Some (errorf m l1) = Some (st, l') ->
  sends_at_most_one l l'.
Proof. intros H [= <- <-]. right. eexists. simpl. rewrite H. reflexivity. Qed.

Lemma lexDefault_sends fuel : forall l0 l st l',
  tokens l = tokens l0 ->
  lexDefault fuel l = Some (st, l') -> sends_at_most_one l0 l'.
Proof.
  induction fuel as [|f IH]; simpl; intros l0 l st l' T H; [discriminate|].
  destruct (next l) as [r l1] eqn:E.
  pose proof (next_advances _ _ _ E) as A1.
  pose proof (proj1 (next_backup _ _ _ E)) as Ab.
  destruct (r =? eof); [injection H as <- <-; apply emit_sends; quiet|].
  destruct (isSpace r); [apply (IH l0 (ignore l1) st l'); [quiet|assumption]|].
  destruct (r =? chr ";"); [injection H as <- <-; left; quiet|].
  destruct ((r =? chr "+") || (r =? chr "-") || ((chr "0" <=? r) && (r <=? chr "9")));
    [injection H as <- <-; left; quiet|].
  destruct (r =? chr "$"); [injection H as <- <-; left; quiet|].
  destruct (r =? quote); [injection H as <- <-; left; quiet|].
  destruct (r =? chr "(").
  { destruct (peek l1) as [r2 l2] eqn:P. apply peek_spec in P.
    destruct (r2 =? chr ";"); injection H as <- <-;
      [left; quiet|apply emit_sends; quiet]. }
  destruct (r =? chr ")"); [injection H as <- <-; apply emit_sends; quiet|].
  destruct (isLowercaseLetter r); [injection H as <- <-; left; quiet|].
  eapply errorf_sends; [|exact H]. quiet.
Qed.

Lemma lexNumber_sends fuel l st l' :
  lexNumber fuel l = Some (st, l') -> sends_at_most_one l l'.
Proof.
  unfold lexNumber. intros H.
  destruct (accept sign l) as [b1 l1] eqn:A1. apply accept_advances in A1.
  destruct (accept "0" l1) as [z l2] eqn:A2. apply accept_advances in A2.
  assert (T3 : forall h l3,
    (if z then accept "xX" l2 else (false, l2)) = (h, l3) ->
    tokens l3 = tokens l).
  { intros h l3 A3. destruct z.
    - apply accept_advances in A3. quiet.
    - injection A3 as <- <-. quiet. }
  destruct (if z then accept "xX" l2 else (false, l2)) as [h l3].
  specialize (T3 h l3 eq_refl).
  destruct (acceptRun fuel _ l3) as [[n4 l4]|] eqn:R4; [|discriminate].
  apply acceptRun_advances in R4.
  destruct (accept "." l4) as [d l5] eqn:A5. apply accept_advances in A5.
  assert (T6 : forall n6 l6,
    (if d then acceptRun fuel ((if h then hexDigit else digit) ++ "_") l5
     else Some (0%nat, l5)) = Some (n6, l6) -> tokens l6 = tokens l).
  { intros n6 l6 A6. destruct d.
    - apply acceptRun_advances in A6. quiet.
    - injection A6 as <- <-. quiet. }
  destruct (if d then acceptRun fuel _ l5 else Some (0%nat, l5))
    as [[n6 l6]|]; [|discriminate].
  specialize (T6 n6 l6 eq_refl).
  destruct (accept "eEpP" l6) as [ex l7] eqn:A7. apply accept_advances in A7.
  destruct ex.
  - destruct (accept sign l7) as [b8 l8] eqn:A8. apply accept_advances in A8.
    destruct (acceptRun fuel _ l8) as [[n9 l9]|] eqn:R9; [|discriminate].
    apply acceptRun_advances in R9. injection H as <- <-.
    apply emit_sends. quiet.
  - injection H as <- <-. apply emit_sends. quiet.
Qed.

Lemma lexString_loop_sends fuel : forall l0 s l st l',
  tokens l = tokens l0 ->
  lexString_loop fuel s l = Some (st, l') -> sends_at_most_one l0 l'.
Proof.
  induction fuel as [|f IH]; simpl; intros l0 s l st l' T H; [discriminate|].
  destruct (next l) as [r l1] eqn:E. apply next_advances in E.
  destruct (r =? backslash).
  - destruct (escapeSeq l1) as [[s1 err] l2] eqn:Q.
    apply escapeSeq_advances in Q.
    destruct err.
    + eapply errorf_sends; [|exact H]. quiet.
    + apply (IH l0 (s ++ s1) l2 st l'); [quiet|assumption].
  - destruct (r =? quote).
    + injection H as <- <-. apply emitWithData_sends. quiet.
    + destruct ((r =? eof) || (r =? newline) || (r =? creturn)).
      * eapply errorf_sends; [|exact H]. quiet.
      * apply (IH l0 (s ++ EncodeRune r) l1 st l'); [quiet|assumption].
Qed.

Lemma run_sends fuel st0 l st l' :
  run fuel st0 l = Some (st, l') -> sends_at_most_one l l'.
Proof.
  destruct st0; simpl.
  - intros H. eapply lexDefault_sends; [|exact H]. reflexivity.
  - unfold lexBlockComment. destruct (accept ";" l) as [b l1] eqn:A.
    apply accept_advances in A.
    destruct (lexBlockComment_loop fuel 1 l1) as [l2|] eqn:L; [|discriminate].
    apply lexBlockComment_loop_advances in L.
    intros [= <- <-]. left. quiet.
  - apply lexNumber_sends.
  - unfold lexKeyword.
    destruct (acceptRun fuel keyword l) as [[n l1]|] eqn:R; [|discriminate].
    apply acceptRun_advances in R.
    destruct (assoc key (lexeme l1)); intros [= <- <-]; apply emit_sends; quiet.
  - unfold lexComment. destruct (accept ";" l) as [ok l1] eqn:A.
    apply accept_advances in A. destruct (negb ok).
    + destruct (next l1) as [r l2] eqn:E. apply next_advances in E.
      intros H. eapply errorf_sends; [|exact H]. quiet.
    + destruct (lexComment_loop fuel l1) as [l2|] eqn:L; [|discriminate].
      apply lexComment_loop_advances in L. intros [= <- <-]. left. quiet.
  - unfold lexIdentifier.
    destruct (acceptRun fuel idChar l) as [[n l1]|] eqn:R; [|discriminate].
    apply acceptRun_advances in R. intros H.
    destruct (n <? 2)%nat.
    + eapply errorf_sends; [|exact H]. quiet.
    + injection H as <- <-. apply emit_sends. quiet.
  - intros H. eapply lexString_loop_sends; [|exact H]. reflexivity.
Qed.

(** Between two calls of [nextToken] the channel holds one token at most. *)
Lemma nextToken_channel fuel : forall l t l',
  (List.length (tokens l) <= 1)%nat ->
  nextToken fuel l = Some (t, l') -> (List.length (tokens l') <= 1)%nat.
Proof.
  induction fuel as [|f IH]; intros l t l' B H; simpl in H.
  - destruct (tokens l) as [|t0 ts] eqn:T.
    + destruct (closed l); [injection H as <- <-; rewrite T; simpl; lia|].
      destruct (state l); [discriminate|].
      injection H as <- <-. simpl. rewrite T. simpl. lia.
    + injection H as <- <-. simpl in *. lia.
  - destruct (tokens l) as [|t0 ts] eqn:T.
    + destruct (closed l); [injection H as <- <-; rewrite T; simpl; lia|].
      destruct (state l) as [st|].
      * destruct (run f st l) as [[st' l1]|] eqn:R; [|discriminate].
        apply (IH _ _ _) in H; [assumption|]. simpl.
        apply run_sends in R. destruct R as [R|[t1 R]]; rewrite R, T; simpl; lia.
      * injection H as <- <-. simpl. rewrite T. simpl. lia.
    + injection H as <- <-. simpl in *. lia.
Qed.

Lemma slice_In (inp : list byte) a b x : In x (slice inp a b) -> In x inp.
Proof.
  unfold slice. intros H.
  rewrite <- (firstn_skipn a inp). apply in_or_app. right.
  rewrite <- (firstn_skipn (b - a) (skipn a inp)). apply in_or_app. left.
  assumption.
Qed.

(** The tokens of a scan stand for successive spans of the source, in
    order and without overlap, and every token sent by [emit], that is every
    token that is neither a string nor an error token, carries the bytes
    [input[a:b]] of some such span as its payload.  Where the span begins is
    left open here. *)
Lemma emitted_payloads_are_source_spans fuel inp ts :
  scan_input fuel inp = Some ts -> in_order inp 0 (List.length inp) ts.
Proof.
  intros H. eapply scan_good; [exact H|apply good_NewLexer].
Qed.

Lemma emitted_payloads_are_source_spans_witness :
  scan_input 9 func_f
    = Some [tok tokenLParen (bytes "("); tok tokenFunc (bytes "func");
            tok tokenIdent (bytes "$f"); tok tokenRParen (bytes ")");
            tok tokenEOF []] /\
  in_order func_f 0 9
    [tok tokenLParen (bytes "("); tok tokenFunc (bytes "func");
     tok tokenIdent (bytes "$f"); tok tokenRParen (bytes ")");
     tok tokenEOF []].
Proof.
  split; [vm_compute; reflexivity|].
  apply (emitted_payloads_are_source_spans 9 func_f). vm_compute. reflexivity.
Defined.

(** The payload of a string token is the text [lexString] has built, not a
    span of the source: the literal made of a quote, a backslash, [t] and a
    quote scans to a string token whose payload is the single byte 9, which
    occurs nowhere in the source. *)
Lemma string_payload_is_not_source_span :
  exists t,
    scan_input 5 tab_literal = Some [t; tok tokenEOF []] /\
    kind t = tokenString /\ ~ is_span tab_literal t.
Proof.
  exists (tok tokenString [x09]). split; [vm_compute; reflexivity|].
  split; [reflexivity|].
  intros (a & b & _ & H). simpl in H. injection H as H.
  assert (In x09 tab_literal) as Hin.
  { apply (slice_In _ a b). rewrite <- H. left. reflexivity. }
  vm_compute in Hin. intuition discriminate.
Qed.

(** ** Escapes in string literals *)

Lemma z2b_b2z b : z2b (b2z b) = b.
Proof. destruct b; reflexivity. Qed.

Lemma b2z_nonneg b : 0 <= b2z b.
Proof. unfold b2z. lia. Qed.

Lemma EncodeRune_ascii b : b2z b < 128 -> EncodeRune (b2z b) = [b].
Proof.
  intros H. unfold EncodeRune, between.
  pose proof (b2z_nonneg b).
  replace (0 <=? b2z b) with true by (symmetry; apply Z.leb_le; lia).
  replace (b2z b <=? 127) with true by (symmetry; apply Z.leb_le; lia).
  simpl. rewrite z2b_b2z. reflexivity.
Qed.

Lemma next_ascii_at inp p s w st ts c b rest :
  skipn p inp = b :: rest -> b2z b < 128 ->
  next (mkLexer inp p s w st ts c)
  = (b2z b, mkLexer inp (p + 1) s 1 st ts c).
Proof. intros H Hb. apply (next_ascii (mkLexer inp p s w st ts c) b rest H Hb). Qed.

Lemma next_eof_at inp p s w st ts c :
  skipn p inp = [] ->
  next (mkLexer inp p s w st ts c) = (eof, mkLexer inp p s 0 st ts c).
Proof. intros H. apply (next_eof (mkLexer inp p s w st ts c) H). Qed.

(** Plain characters are copied to the builder one by one. *)
Lemma lexString_loop_plain body : forall f s inp p s0 w st ts c rest,
  ascii_without string_specials body = true ->
  skipn p inp = body ++ rest ->
  lexString_loop (List.length body + f) s (mkLexer inp p s0 w st ts c)
  = lexString_loop f (s ++ body)
      (mkLexer inp (p + List.length body) s0
         (match body with [] => w | _ => 1%nat end) st ts c).
Proof.
  induction body as [|b body IH]; intros f s inp p s0 w st ts c rest H E.
  - simpl. rewrite Nat.add_0_r, app_nil_r. reflexivity.
  - apply ascii_without_cons in H. destruct H as (Hlt & Hne & Hbody).
    simpl List.length. cbn [Nat.add lexString_loop].
    rewrite (next_ascii_at _ _ _ _ _ _ _ b (body ++ rest) E Hlt).
    assert (N : forall r, In r string_specials -> (b2z b =? r) = false).
    { intros r Hr. apply Z.eqb_neq. auto. }
    rewrite (N backslash), (N quote), (N eof), (N newline), (N creturn)
      by (simpl; tauto).
    cbn [orb]. rewrite (EncodeRune_ascii b Hlt).
    rewrite (IH f (s ++ [b]) inp (p + 1)%nat s0 1%nat st ts c rest Hbody)
      by (apply (skipn_cons_succ _ _ _ _ E)).
    rewrite <- app_assoc. simpl.
    replace (p + 1 + List.length body)%nat with (p + S (List.length body))%nat by lia.
    destruct body; reflexivity.
Qed.

Lemma slice_prefix (a b : list byte) : slice (a ++ b) 0 (List.length a) = a.
Proof.
  unfold slice. simpl. rewrite Nat.sub_0_r.
  rewrite firstn_app, Nat.sub_diag, firstn_all. simpl. apply app_nil_r.
Qed.

(** One round of the driver, spelled out. *)
Lemma nextToken_run f l st :
  tokens l = [] -> closed l = false -> state l = Some st ->
  nextToken (S f) l
  = match run f st l with
    | None => None
    | Some (st', l') => nextToken f (set_state l' st')
    end.
Proof. intros T C S. simpl. rewrite T, C, S. reflexivity. Qed.

Lemma scan_step f l :
  scan (S f) l
  = match nextToken f l with
    | None => None
    | Some (t, l') =>
      if isEOF (kind t) || isError (kind t) then Some [t]
      else option_map (cons t) (scan f l')
    end.
Proof. reflexivity. Qed.

Lemma set_state_at inp p s w st ts c st' :
  set_state (mkLexer inp p s w st ts c) st' = mkLexer inp p s w st' ts c.
Proof. reflexivity. Qed.

Lemma set_tokens_at inp p s w st ts c ts' :
  set_tokens (mkLexer inp p s w st ts c) ts' = mkLexer inp p s w st ts' c.
Proof. reflexivity. Qed.

Lemma nextToken_pop f l t ts :
  tokens l = t :: ts -> nextToken f l = Some (t, set_tokens l ts).
Proof. destruct f; simpl; intros ->; reflexivity. Qed.

Lemma lexDefault_quote f inp p s w st ts c rest :
  skipn p inp = x22 :: rest ->
  lexDefault (S f) (mkLexer inp p s w st ts c)
  = Some (Some StString, mkLexer inp (p + 1) s 1 st ts c).
Proof.
  intros E. cbn [lexDefault].
  rewrite (next_ascii_at _ _ _ _ _ _ _ _ _ E) by (vm_compute; reflexivity).
  reflexivity.
Qed.

Lemma escapeSeq_n inp p s w st ts c rest :
  skipn p inp = x6e :: rest ->
  escapeSeq (mkLexer inp p s w st ts c)
  = ([], Some (unexpected_escape (chr "n")), mkLexer inp (p + 1) s 1 st ts c).
Proof.
  intros E. unfold escapeSeq.
  rewrite (next_ascii_at _ _ _ _ _ _ _ _ _ E) by (vm_compute; reflexivity).
  reflexivity.
Qed.

Lemma lexString_loop_backslash_n f b inp p s w st ts c rest :
  skipn p inp = x5c :: x6e :: rest ->
  lexString_loop (S f) b (mkLexer inp p s w st ts c)
  = Some (errorf (invalid_escape (slice inp s (p + 1 + 1)))
            (mkLexer inp (p + 1 + 1) s 1 st ts c)).
Proof.
  intros E. cbn [lexString_loop].
  rewrite (next_ascii_at _ _ _ _ _ _ _ _ _ E) by (vm_compute; reflexivity).
  change (b2z x5c =? backslash) with true. cbv iota.
  rewrite (escapeSeq_n _ _ _ _ _ _ _ rest)
    by (apply (skipn_cons_succ _ _ _ _ E)).
  reflexivity.
Qed.

(** C10: in a string literal, the escape made of a backslash and [n] is
    not accepted: whatever plain characters [body] precede it and whatever
    follows, the scan yields one error token (invalid escape sequence, with
    the text read so far) and stops there. *)
Theorem newline_escape_is_lexical_error body rest fuel :
  ascii_without string_specials body = true ->
  scan_input (4 + List.length body + fuel) (newline_escape body rest)
  = Some [mkToken tokenError
            (Text (invalid_escape ([x22] ++ body ++ bytes "\n")))].
Proof.
  intros H. apply scan_mono with (f := (4 + List.length body)%nat); [lia|].
  unfold scan_input, newline_escape, NewLexer.
  rewrite <- (slice_prefix ([x22] ++ body ++ bytes "\n") rest) at 2.
  set (inp := ([x22] ++ body ++ bytes "\n") ++ rest).
  assert (E1 : skipn 1 inp = body ++ bytes "\n" ++ rest).
  { unfold inp. simpl. rewrite <- app_assoc. reflexivity. }
  assert (E0 : skipn 0 inp = x22 :: body ++ bytes "\n" ++ rest).
  { unfold inp. simpl. rewrite <- app_assoc. reflexivity. }
  assert (E2 : skipn (1 + List.length body) inp = x5c :: x6e :: rest).
  { rewrite Nat.add_comm, <- skipn_skipn, E1, skipn_app, skipn_all, Nat.sub_diag.
    reflexivity. }
  assert (L : List.length ([x22] ++ body ++ bytes "\n")
              = (1 + List.length body + 1 + 1)%nat).
  { simpl. rewrite length_app. simpl. lia. }
  rewrite L.
  change (4 + List.length body)%nat with (S (S (S (S (List.length body))))).
  rewrite scan_step.
  rewrite (nextToken_run _ _ StDefault) by reflexivity. cbn [run].
  rewrite (lexDefault_quote _ _ _ _ _ _ _ _ _ E0), set_state_at.
  rewrite (nextToken_run _ _ StString) by reflexivity. cbn [run]. unfold lexString.
  replace (S (List.length body)) with (List.length body + 1)%nat at 1 by lia.
  rewrite (lexString_loop_plain body 1 [] inp _ _ _ _ _ _ _ H E1).
  rewrite (lexString_loop_backslash_n _ _ _ _ _ _ _ _ _ rest E2).
  unfold errorf, send, set_tokens, set_state.
  cbn [input pos start width state tokens closed app].
  erewrite nextToken_pop by reflexivity.
  reflexivity.
Qed.

Lemma newline_escape_is_lexical_error_witness :
  ascii_without string_specials (bytes "a") = true /\
  scan_input 5 (newline_escape (bytes "a") (bytes "b" ++ [x22]))
  = Some [mkToken tokenError
            (Text (invalid_escape ([x22] ++ bytes "a\n")))].
Proof.
  split; [reflexivity|].
  exact (newline_escape_is_lexical_error (bytes "a") (bytes "b" ++ [x22]) 0
           eq_refl).
Defined.

(** ** The block comment that is closed *)

Lemma lexDefault_open_comment f inp p s w st ts c rest :
  skipn p inp = x28 :: x3b :: rest ->
  lexDefault (S f) (mkLexer inp p s w st ts c)
  = Some (Some StBlockComment, mkLexer inp (p + 1) s 1 st ts c).
Proof.
  intros E. cbn [lexDefault].
  rewrite (next_ascii_at _ _ _ _ _ _ _ _ _ E) by (vm_compute; reflexivity).
  change (b2z x28) with 40. cbv beta iota delta [Z.eqb eof isSpace].
  unfold peek. cbn [width].
  rewrite (next_ascii_at _ _ _ _ _ _ _ x3b rest)
    by (try (vm_compute; reflexivity); apply (skipn_cons_succ _ _ _ _ E)).
  replace (backup (mkLexer inp (p + 1 + 1) s 1 st ts c))
    with (mkLexer inp (p + 1) s 1 st ts c)
    by (unfold backup, set_pos; cbn [input pos start width state tokens closed];
        f_equal; lia).
  reflexivity.
Qed.

Lemma accept_semicolon inp p s w st ts c rest :
  skipn p inp = x3b :: rest ->
  accept ";" (mkLexer inp p s w st ts c)
  = (true, mkLexer inp (p + 1) s 1 st ts c).
Proof.
  intros E. unfold accept.
  rewrite (next_ascii_at _ _ _ _ _ _ _ _ _ E) by (vm_compute; reflexivity).
  reflexivity.
Qed.

Lemma lexBlockComment_loop_done f l : lexBlockComment_loop f 0 l = Some l.
Proof. destruct f; reflexivity. Qed.

(** Bytes that are neither a semicolon nor an opening parenthesis are read
    one by one and leave the nesting level alone. *)
Lemma lexBlockComment_loop_plain body : forall f level inp p s w st ts c rest,
  0 < level ->
  ascii_without [chr ";"; chr "("] body = true ->
  skipn p inp = body ++ rest ->
  lexBlockComment_loop (List.length body + f) level (mkLexer inp p s w st ts c)
  = lexBlockComment_loop f level
      (mkLexer inp (p + List.length body) s
         (match body with [] => w | _ => 1%nat end) st ts c).
Proof.
  induction body as [|b body IH]; intros f level inp p s w st ts c rest Hl H E.
  - simpl. rewrite Nat.add_0_r. reflexivity.
  - apply ascii_without_cons in H. destruct H as (Hlt & Hne & Hbody).
    simpl List.length. cbn [Nat.add lexBlockComment_loop].
    destruct (Z.leb_spec level 0); [lia|].
    rewrite (next_ascii_at _ _ _ _ _ _ _ b (body ++ rest) E Hlt).
    assert (N : forall r, In r [chr ";"; chr "("] -> (b2z b =? r) = false).
    { intros r Hr. apply Z.eqb_neq. auto. }
    rewrite (N (chr "(")), (N (chr ";")) by (simpl; tauto).
    rewrite (IH f level inp (p + 1)%nat s 1%nat st ts c rest Hl Hbody)
      by (apply (skipn_cons_succ _ _ _ _ E)).
    replace (p + 1 + List.length body)%nat with (p + S (List.length body))%nat by lia.
    destruct body; reflexivity.
Qed.

(** The closing delimiter ends the loop after its semicolon: the
    parenthesis is looked at, not read. *)
Lemma lexBlockComment_loop_close f inp p s w st ts c rest :
  skipn p inp = x3b :: x29 :: rest ->
  lexBlockComment_loop (S f) 1 (mkLexer inp p s w st ts c)
  = Some (mkLexer inp (p + 1) s 1 st ts c).
Proof.
  intros E. cbn [lexBlockComment_loop]. change (1 <=? 0) with false. cbv iota.
  rewrite (next_ascii_at _ _ _ _ _ _ _ _ _ E) by (vm_compute; reflexivity).
  change (b2z x3b) with 59. change (59 =? chr "(") with false.
  change (59 =? chr ";") with true. cbv iota.
  unfold peek. cbn [width].
  rewrite (next_ascii_at _ _ _ _ _ _ _ x29 rest)
    by (try (vm_compute; reflexivity); apply (skipn_cons_succ _ _ _ _ E)).
  replace (backup (mkLexer inp (p + 1 + 1) s 1 st ts c))
    with (mkLexer inp (p + 1) s 1 st ts c)
    by (unfold backup, set_pos; cbn [input pos start width state tokens closed];
        f_equal; lia).
  change (b2z x29 =? chr ")") with true. cbv iota.
  change (1 - 1) with 0. rewrite lexBlockComment_loop_done. reflexivity.
Qed.

Lemma lexDefault_rparen f inp p s w st ts c rest :
  skipn p inp = x29 :: rest ->
  lexDefault (S f) (mkLexer inp p s w st ts c)
  = Some (Some StDefault,
          mkLexer inp (p + 1) (p + 1) 1 st
            (ts ++ [tok tokenRParen (slice inp s (p + 1))]) c).
Proof.
  intros E. cbn [lexDefault].
  rewrite (next_ascii_at _ _ _ _ _ _ _ _ _ E) by (vm_compute; reflexivity).
  reflexivity.
Qed.

Lemma lexDefault_eof f inp p s w st ts c :
  skipn p inp = [] ->
  lexDefault (S f) (mkLexer inp p s w st ts c)
  = Some (None,
          mkLexer inp p p 0 st (ts ++ [tok tokenEOF (slice inp s p)]) c).
Proof.
  intros E. cbn [lexDefault]. rewrite (next_eof_at _ _ _ _ _ _ _ E).
  reflexivity.
Qed.

Lemma slice_empty (inp : list byte) p : slice inp p p = [].
Proof. unfold slice. rewrite Nat.sub_diag. reflexivity. Qed.

Lemma slice_all (inp : list byte) : slice inp 0 (List.length inp) = inp.
Proof. unfold slice. simpl. rewrite Nat.sub_0_r. apply firstn_all. Qed.

(** C2 (the code departs from it): an input that is one block comment,
    with no semicolon and no opening parenthesis between its delimiters,
    does not scan to the end-of-input token alone.  The closing parenthesis
    is left unread by [lexBlockComment] and [start] still points at the
    opening one, so [lexDefault] sends a right-parenthesis token whose
    payload is the whole comment. *)
Theorem block_comment_yields_rparen body fuel :
  ascii_without [chr ";"; chr "("] body = true ->
  scan_input (5 + List.length body + fuel) (block_comment body)
  = Some [tok tokenRParen (block_comment body); tok tokenEOF []].
Proof.
  intros H. apply scan_mono with (f := (5 + List.length body)%nat); [lia|].
  unfold scan_input, NewLexer.
  rewrite <- (slice_all (block_comment body)) at 2.
  set (inp := block_comment body).
  assert (E0 : skipn 0 inp = x28 :: x3b :: body ++ bytes ";)") by reflexivity.
  assert (E1 : skipn (0 + 1) inp = x3b :: body ++ bytes ";)") by reflexivity.
  assert (E2 : skipn (0 + 1 + 1) inp = body ++ bytes ";)") by reflexivity.
  assert (E3 : skipn (0 + 1 + 1 + List.length body) inp = x3b :: x29 :: []).
  { rewrite Nat.add_comm, <- skipn_skipn, E2, skipn_app, skipn_all, Nat.sub_diag.
    reflexivity. }
  assert (E4 : skipn (0 + 1 + 1 + List.length body + 1) inp = [x29]).
  { apply (skipn_cons_succ _ _ _ _ E3). }
  assert (E5 : skipn (0 + 1 + 1 + List.length body + 1 + 1) inp = []).
  { apply (skipn_cons_succ _ _ _ _ E4). }
  assert (L : List.length inp = (0 + 1 + 1 + List.length body + 1 + 1)%nat).
  { unfold inp, block_comment. simpl. rewrite length_app. simpl. lia. }
  rewrite L.
  change (5 + List.length body)%nat with (S (S (S (S (S (List.length body)))))).
  rewrite scan_step.
  rewrite (nextToken_run _ _ StDefault) by reflexivity. cbn [run].
  rewrite (lexDefault_open_comment _ _ _ _ _ _ _ _ _ E0), set_state_at.
  rewrite (nextToken_run _ _ StBlockComment) by reflexivity. cbn [run].
  unfold lexBlockComment.
  rewrite (accept_semicolon _ _ _ _ _ _ _ _ E1).
  replace (S (S (List.length body))) with (List.length body + 2)%nat at 1 by lia.
  rewrite (lexBlockComment_loop_plain body 2 1 inp _ _ _ _ _ _ _
             ltac:(lia) H E2).
  rewrite (lexBlockComment_loop_close _ _ _ _ _ _ _ _ _ E3), set_state_at.
  rewrite (nextToken_run _ _ StDefault) by reflexivity. cbn [run].
  rewrite (lexDefault_rparen _ _ _ _ _ _ _ _ _ E4), set_state_at.
  cbn [app]. erewrite nextToken_pop by reflexivity.
  rewrite set_tokens_at. cbn [kind tok isEOF isError orb].
  rewrite scan_step.
  rewrite (nextToken_run _ _ StDefault) by reflexivity. cbn [run].
  rewrite (lexDefault_eof _ _ _ _ _ _ _ _ E5), set_state_at.
  cbn [app]. erewrite nextToken_pop by reflexivity.
  cbn [kind tok isEOF isError orb option_map]. rewrite slice_empty.
  reflexivity.
Qed.

Lemma block_comment_yields_rparen_witness :
  ascii_without [chr ";"; chr "("] (bytes " c ") = true /\
  scan_input 8 (bytes "(; c ;)")
  = Some [tok tokenRParen (bytes "(; c ;)"); tok tokenEOF []].
Proof.
  split; [reflexivity|].
  exact (block_comment_yields_rparen (bytes " c ") 0 eq_refl).
Defined.

(** ** The parser driver *)

Lemma wrap_int_succ_neq z : wrap_int (z + 1) <> z.
Proof.
  unfold wrap_int. intros H.
  change (2 ^ 63) with 9223372036854775808 in H.
  change (2 ^ 64) with 18446744073709551616 in H.
  pose proof (Z.div_mod (z + 1 + 9223372036854775808) 18446744073709551616
                ltac:(lia)) as D.
  lia.
Qed.




Lemma Parse_inv fuel p c e p' c' :
  Parse fuel p c = Some (e, p', c') ->
  Parse_loop fuel (lex p) = Some (e, lex p') /\
  root p' = Some (root_node c) /\ c' = wrap_int (c + 1).
Proof.
  unfold Parse, NewNode, newID, root_node.
  destruct (Parse_loop fuel (lex p)) as [[e0 l0]|]; [|discriminate].
  intros [= <- <- <-]. auto.
Qed.

Lemma Parse_of_loop fuel p c e l' :
  Parse_loop fuel (lex p) = Some (e, l') ->
  Parse fuel p c = Some (e, mkParser l' (Some (root_node c)), wrap_int (c + 1)).
Proof.
  unfold Parse, NewNode, newID, root_node. intros ->. reflexivity.
Qed.

(** C3 (amended): a second parse of the same input, run after the first,
    returns the same error and leaves the same lexer, but its root node has
    another ID: each [Parse] takes the next value of the package-level
    counter [idCounter]. *)
Theorem second_parse_differs_in_root_id fuel inp c e p1 c1 :
  Parse fuel (NewParser inp) c = Some (e, p1, c1) ->
  exists p2 c2,
    Parse fuel (NewParser inp) c1 = Some (e, p2, c2) /\
    lex p2 = lex p1 /\
    root p1 = Some (mkNode c1 OpStart [None] EmptyString) /\
    root p2 = Some (mkNode c2 OpStart [None] EmptyString) /\
    c1 = wrap_int (c + 1) /\ c2 = wrap_int (c1 + 1) /\ c2 <> c1.
Proof.
  intros H. apply Parse_inv in H. destruct H as (L & R & ->).
  exists (mkParser (lex p1) (Some (root_node (wrap_int (c + 1))))),
         (wrap_int (wrap_int (c + 1) + 1)).
  split; [apply Parse_of_loop; exact L|].
  repeat split; auto. apply wrap_int_succ_neq.
Qed.

Lemma second_parse_differs_in_root_id_witness :
  Parse 3 (NewParser []) 0
    = Some (None, mkParser (drained []) (Some (root_node 0)), 1) /\
  exists p2,
    Parse 3 (NewParser []) 1 = Some (None, p2, 2) /\
    root p2 = Some (mkNode 2 OpStart [None] EmptyString).
Proof.
  split; [vm_compute; reflexivity|].
  destruct (second_parse_differs_in_root_id 3 [] 0 None
              (mkParser (drained []) (Some (root_node 0))) 1)
    as (p2 & c2 & H & _ & _ & R & _ & C & _); [vm_compute; reflexivity|].
  exists p2. rewrite C in H, R. split; [exact H|exact R].
Defined.

(** C3 as stated fails: two parses of the empty input, one after the
    other, do not give identical results. *)
Lemma two_parses_are_not_identical :
  exists e1 p1 c1 e2 p2 c2,
    Parse 3 (NewParser []) 0 = Some (e1, p1, c1) /\
    Parse 3 (NewParser []) c1 = Some (e2, p2, c2) /\
    (e1, p1) <> (e2, p2).
Proof.
  exists None, (mkParser (drained []) (Some (root_node 0))), 1,
         None, (mkParser (drained []) (Some (root_node 1))), 2.
  split; [vm_compute; reflexivity|]. split; [vm_compute; reflexivity|].
  intros H. discriminate H.
Qed.





(** C8 (amended): whatever the input, [Parse] leaves one and the same
    tree, which holds no instruction: the root node alone, with [OpStart]
    and one nil argument.  The folded and the flat writing of the addition
    both parse without error to that tree. *)
Theorem folded_and_flat_leave_the_root_only fuel c :
  Parse (20 + fuel) (NewParser folded_add) c
    = Some (None, mkParser (drained folded_add) (Some (root_node c)),
            wrap_int (c + 1)) /\
  Parse (20 + fuel) (NewParser flat_add) c
    = Some (None, mkParser (drained flat_add) (Some (root_node c)),
            wrap_int (c + 1)) /\
  forall fuel' inp e p c',
    Parse fuel' (NewParser inp) c = Some (e, p, c') ->
    root p = Some (root_node c).
Proof.
  split; [|split].
  - apply Parse_of_loop; cbn [lex NewParser].
    apply (Parse_loop_mono 20); [lia|]. vm_compute. reflexivity.
  - apply Parse_of_loop; cbn [lex NewParser].
    apply (Parse_loop_mono 20); [lia|]. vm_compute. reflexivity.
  - intros fuel' inp e p c' H. apply Parse_inv in H. apply H.
Qed.

Lemma folded_and_flat_leave_the_root_only_witness :
  Parse 13 (NewParser func_f_twice) 0
    = Some (None, mkParser (drained func_f_twice) (Some (root_node 0)), 1) /\
  root (mkParser (drained func_f_twice) (Some (root_node 0)))
    = Some (root_node 0).
Proof.
  split; [vm_compute; reflexivity|].
  apply (proj2 (proj2 (folded_and_flat_leave_the_root_only 0 0))
           13%nat func_f_twice None _ 1).
  vm_compute. reflexivity.
Defined.

(** C8 as stated fails: after parsing the folded addition the root has no
    argument that is an instruction node, let alone the three of the flat
    sequence. *)
Lemma folded_add_is_not_flattened :
  ~ exists fuel c e p c' n k1 k2 k3,
      Parse fuel (NewParser folded_add) c = Some (e, p, c') /\
      root p = Some n /\
      Args n = [Some k1; Some k2; Some k3] /\
      op k1 = OpConst /\ op k2 = OpConst /\ op k3 = OpI32Add.
Proof.
  intros (fuel & c & e & p & c' & n & k1 & k2 & k3 & H & R & A & _).
  apply Parse_inv in H. destruct H as (_ & R' & _).
  rewrite R' in R. injection R as <-. discriminate A.
Qed.

(** ** Hexadecimal escapes *)

(** C5 (the code departs from it): the escape made of a backslash and two
    hex digits of value [v] puts [string(rune(v))] in the payload, the UTF-8
    encoding of the code point [v]: one byte below 128, but two bytes from
    128 on, none of them equal to [v]. *)
Theorem hex_escape_is_encoded_as_code_point d1 d2 v1 v2 fuel :
  hexval (b2z d1) = Some v1 -> hexval (b2z d2) = Some v2 ->
  scan_input (5 + fuel) (hex_escape d1 d2)
  = Some [tok tokenString (EncodeRune (16 * v1 + v2)); tok tokenEOF []] /\
  EncodeRune (16 * v1 + v2)
  = if 16 * v1 + v2 <? 128 then [z2b (16 * v1 + v2)]
    else [z2b (192 + (16 * v1 + v2) / 64); z2b (128 + (16 * v1 + v2) mod 64)].
Proof.
  intros H1 H2. split.
  - apply scan_mono with (f := 5%nat); [lia|].
    destruct d1; vm_compute in H1; try discriminate H1; injection H1 as <-;
      destruct d2; vm_compute in H2; try discriminate H2; injection H2 as <-;
      vm_compute; reflexivity.
  - destruct d1; vm_compute in H1; try discriminate H1; injection H1 as <-;
      destruct d2; vm_compute in H2; try discriminate H2; injection H2 as <-;
      vm_compute; reflexivity.
Qed.

Lemma hex_escape_is_encoded_as_code_point_witness :
  hexval (b2z x38) = Some 8 /\ hexval (b2z x30) = Some 0 /\
  scan_input 5 (hex_escape x38 x30)
  = Some [tok tokenString [xc2; x80]; tok tokenEOF []].
Proof.
  split; [reflexivity|]. split; [reflexivity|].
  exact (proj1 (hex_escape_is_encoded_as_code_point x38 x30 8 0 0
                  eq_refl eq_refl)).
Defined.

(** ** Unicode escapes *)

Lemma isHexDigit_ascii r :
  isHexDigit r = true -> r < 128 /\ r <> chr "}" /\ r <> eof.
Proof.
  unfold isHexDigit, IndexRune. intros H.
  apply existsb_exists in H. destruct H as (b & Hin & Hb).
  apply Z.eqb_eq in Hb. subst r. vm_compute in Hin.
  repeat (destruct Hin as [<-|Hin]; [vm_compute; intuition discriminate|]).
  contradiction.
Qed.

Lemma all_hex_cons d ds :
  all_hex (d :: ds) = true -> isHexDigit (b2z d) = true /\ all_hex ds = true.
Proof. unfold all_hex; simpl. apply andb_prop. Qed.

(** Up to [n] hex digits are collected; the closing brace, when it is met,
    is put back. *)
Lemma unicode_digits_hex ds : forall n acc inp p s w st ts c rest,
  (List.length ds <= n)%nat -> (0 < n)%nat -> all_hex ds = true ->
  skipn p inp = ds ++ x7d :: rest ->
  unicode_digits n acc (mkLexer inp p s w st ts c)
  = inr (acc ++ map b2z ds, mkLexer inp (p + List.length ds) s 1 st ts c).
Proof.
  induction ds as [|d ds IH]; intros n acc inp p s w st ts c rest Hn Hpos H E;
    (destruct n as [|n]; [lia|]); cbn [unicode_digits].
  - rewrite (next_ascii_at _ _ _ _ _ _ _ _ _ E) by (vm_compute; reflexivity).
    change (b2z x7d =? chr "}") with true. cbv iota.
    unfold backup, set_pos. cbn [input pos start width state tokens closed].
    simpl. rewrite app_nil_r. do 2 f_equal. f_equal; lia.
  - apply all_hex_cons in H. destruct H as (Hd & Hds).
    destruct (isHexDigit_ascii _ Hd) as (Hlt & Hbrace & Heof).
    rewrite (next_ascii_at _ _ _ _ _ _ _ _ _ E Hlt).
    apply Z.eqb_neq in Hbrace, Heof. rewrite Hbrace, Heof, Hd. cbn [negb].
    simpl in Hn. destruct n as [|n].
    + destruct ds; [|simpl in Hn; lia]. simpl. reflexivity.
    + rewrite (IH (S n) _ inp _ s _ st ts c rest)
        by (try lia; try assumption; apply (skipn_cons_succ _ _ _ _ E)).
      rewrite <- app_assoc. simpl. do 2 f_equal. f_equal; lia.
Qed.

Lemma escapeSeq_unicode ds inp p s w st ts c rest :
  (List.length ds <= 7)%nat -> all_hex ds = true ->
  skipn p inp = x75 :: x7b :: ds ++ x7d :: rest ->
  escapeSeq (mkLexer inp p s w st ts c)
  = (EncodeRune (ParseUint16 (map b2z ds)), None,
     mkLexer inp (p + 1 + 1 + List.length ds + 1) s 1 st ts c).
Proof.
  intros Hn H E. unfold escapeSeq.
  rewrite (next_ascii_at _ _ _ _ _ _ _ _ _ E) by (vm_compute; reflexivity).
  change (b2z x75) with (chr "u").
  cbv beta iota delta [Z.eqb chr bytes list_byte_of_string quote backslash].
  change (isHexDigit (chr "u")) with false. cbv iota.
  pose proof (skipn_cons_succ _ _ _ _ E) as E1.
  unfold accept.
  rewrite (next_ascii_at _ _ _ _ _ _ _ _ _ E1) by (vm_compute; reflexivity).
  change (IndexRune "{" (b2z x7b)) with true. cbv iota. cbn [negb].
  pose proof (skipn_cons_succ _ _ _ _ E1) as E2.
  rewrite (unicode_digits_hex ds 7 [] inp _ s 1%nat st ts c rest Hn
             ltac:(lia) H E2).
  assert (E3 : skipn (p + 1 + 1 + List.length ds) inp = x7d :: rest).
  { rewrite Nat.add_comm, <- skipn_skipn, E2, skipn_app, skipn_all, Nat.sub_diag.
    reflexivity. }
  rewrite (next_ascii_at _ _ _ _ _ _ _ _ _ E3) by (vm_compute; reflexivity).
  change (IndexRune "}" (b2z x7d)) with true. cbv iota. cbn [negb app].
  reflexivity.
Qed.

Lemma lexString_loop_unicode f b ds inp p s w st ts c rest :
  (List.length ds <= 7)%nat -> all_hex ds = true ->
  skipn p inp = x5c :: x75 :: x7b :: ds ++ x7d :: rest ->
  lexString_loop (S f) b (mkLexer inp p s w st ts c)
  = lexString_loop f (b ++ EncodeRune (ParseUint16 (map b2z ds)))
      (mkLexer inp (p + 1 + 1 + 1 + List.length ds + 1) s 1 st ts c).
Proof.
  intros Hn H E. cbn [lexString_loop].
  rewrite (next_ascii_at _ _ _ _ _ _ _ _ _ E) by (vm_compute; reflexivity).
  change (b2z x5c =? backslash) with true. cbv iota.
  rewrite (escapeSeq_unicode ds inp _ _ _ _ _ _ rest Hn H
             (skipn_cons_succ _ _ _ _ E)).
  reflexivity.
Qed.

Lemma lexString_loop_quote f b inp p s w st ts c rest :
  skipn p inp = x22 :: rest ->
  lexString_loop (S f) b (mkLexer inp p s w st ts c)
  = Some (Some StDefault,
          mkLexer inp (p + 1) (p + 1) 1 st (ts ++ [tok tokenString b]) c).
Proof.
  intros E. cbn [lexString_loop].
  rewrite (next_ascii_at _ _ _ _ _ _ _ _ _ E) by (vm_compute; reflexivity).
  reflexivity.
Qed.

(** C6 (the code departs from it): for any run [ds] of at most seven hex
    digits between the braces, none and seven included, the escape is
    accepted and the payload is the UTF-8 encoding of
    [ParseUint(ds, 16, 16)], whose error is dropped: 0 for no digit, and
    65535 for every value above 16 bits. *)
Theorem unicode_escape_is_parsed_on_16_bits ds fuel :
  (List.length ds <= 7)%nat -> all_hex ds = true ->
  scan_input (5 + fuel) (unicode_escape ds)
  = Some [tok tokenString (EncodeRune (ParseUint16 (map b2z ds)));
          tok tokenEOF []].
Proof.
  intros Hn H. apply scan_mono with (f := 5%nat); [lia|].
  unfold scan_input, NewLexer.
  set (inp := unicode_escape ds).
  assert (E0 : skipn 0 inp = x22 :: x5c :: x75 :: x7b :: ds ++ x7d :: [x22])
    by reflexivity.
  pose proof (skipn_cons_succ _ _ _ _ E0) as E1.
  pose proof (skipn_cons_succ _ _ _ _ E1) as E2.
  pose proof (skipn_cons_succ _ _ _ _
                (skipn_app_length _ _ _ _
                   (skipn_cons_succ _ _ _ _ (skipn_cons_succ _ _ _ _ E2))))
    as E3.
  pose proof (skipn_cons_succ _ _ _ _ E3) as E4.
  rewrite scan_step.
  rewrite (nextToken_run _ _ StDefault) by reflexivity. cbn [run].
  rewrite (lexDefault_quote _ _ _ _ _ _ _ _ _ E0), set_state_at.
  rewrite (nextToken_run _ _ StString) by reflexivity. cbn [run].
  unfold lexString.
  rewrite (lexString_loop_unicode _ _ ds inp _ _ _ _ _ _ [x22] Hn H E1).
  cbn [app].
  rewrite (lexString_loop_quote _ _ _ _ _ _ _ _ _ _ E3), set_state_at.
  cbn [app]. erewrite nextToken_pop by reflexivity.
  rewrite set_tokens_at. cbn [kind tok isEOF isError orb].
  rewrite scan_step.
  rewrite (nextToken_run _ _ StDefault) by reflexivity. cbn [run].
  rewrite (lexDefault_eof _ _ _ _ _ _ _ _ E4), set_state_at.
  cbn [app]. erewrite nextToken_pop by reflexivity.
  cbn [kind tok isEOF isError orb option_map]. rewrite slice_empty.
  reflexivity.
Qed.

Lemma unicode_escape_is_parsed_on_16_bits_witness :
  all_hex (bytes "10000") = true /\
  scan_input 5 (unicode_escape (bytes "10000"))
    = Some [tok tokenString [xef; xbf; xbf]; tok tokenEOF []] /\
  scan_input 5 (unicode_escape (bytes "0000041"))
    = Some [tok tokenString (bytes "A"); tok tokenEOF []] /\
  scan_input 5 (unicode_escape [])
    = Some [tok tokenString [x00]; tok tokenEOF []].
Proof.
  split; [reflexivity|]. split; [|split].
  - exact (unicode_escape_is_parsed_on_16_bits (bytes "10000") 0
             ltac:(simpl; lia) eq_refl).
  - exact (unicode_escape_is_parsed_on_16_bits (bytes "0000041") 0
             ltac:(simpl; lia) eq_refl).
  - exact (unicode_escape_is_parsed_on_16_bits [] 0 ltac:(simpl; lia) eq_refl).
Defined.

(** ** Which loops return *)

Lemma next_at_end l :
  (List.length (input l) <= pos l)%nat -> next l = (eof, set_width l 0).
Proof. intros H. unfold next. apply Nat.leb_le in H. rewrite H. reflexivity. Qed.

Lemma next_progress l r l1 :
  next l = (r, l1) -> (pos l < List.length (input l))%nat ->
  (pos l < pos l1 <= List.length (input l))%nat.
Proof.
  unfold next. intros H Hlt.
  destruct (Nat.leb_spec (List.length (input l)) (pos l)) as [Hle|_]; [lia|].
  destruct (DecodeRune (skipn (pos l) (input l))) as [r' w] eqn:D.
  injection H as <- <-. simpl.
  apply DecodeRune_width in D. destruct D as [D1 D2].
  rewrite length_skipn in D1.
  assert (skipn (pos l) (input l) <> []) as Hne.
  { intros C. apply skipn_nil_length in C. lia. }
  specialize (D2 Hne). lia.
Qed.

(** Reading anything but [eof] leaves fewer bytes. *)
Lemma next_rem l r l1 :
  next l = (r, l1) -> input l1 = input l /\ (rem l1 <= rem l)%nat /\
  (r <> eof -> (rem l1 < rem l)%nat).
Proof.
  intros H. unfold rem.
  destruct (Nat.leb_spec (List.length (input l)) (pos l)) as [Hle|Hlt].
  - rewrite (next_at_end l Hle) in H. injection H as <- <-. simpl.
    repeat split; try lia.
  - pose proof (next_progress _ _ _ H Hlt) as P.
    apply next_spec in H. destruct H as (Hi & _).
    rewrite Hi. repeat split; lia.
Qed.

Lemma advances_rem l l' : advances l l' -> (rem l' <= rem l)%nat.
Proof.
  unfold advances, rem. intros (Hi & _ & _ & _ & _ & Hp & _). rewrite Hi. lia.
Qed.

Lemma acceptRun_loop_returns fuel : forall valid c l,
  IndexRune valid eof = false -> (rem l < fuel)%nat ->
  exists n l1, acceptRun_loop fuel valid c l = Some (n, l1).
Proof.
  induction fuel as [|f IH]; intros valid c l V H; [lia|]. simpl.
  destruct (next l) as [r l1] eqn:E.
  destruct (IndexRune valid r) eqn:Vr; [|eauto].
  apply IH; [assumption|].
  destruct (next_rem _ _ _ E) as (_ & _ & P).
  assert (r <> eof) by (intros ->; congruence). specialize (P H0). lia.
Qed.

Lemma lexDefault_returns fuel : forall l,
  (rem l < fuel)%nat -> exists r, lexDefault fuel l = Some r.
Proof.
  induction fuel as [|f IH]; intros l H; [lia|]. simpl.
  destruct (next l) as [r l1] eqn:E.
  destruct (next_rem _ _ _ E) as (_ & _ & P).
  destruct (Z.eqb_spec r eof) as [->|Hne]; [eauto|].
  destruct (isSpace r).
  - apply IH. unfold ignore, rem in *. simpl. specialize (P Hne). lia.
  - repeat match goal with
           | |- exists _, (if ?c then _ else _) = _ => destruct c
           | |- exists _, (let '(_, _) := ?c in _) = _ => destruct c
           end; eauto.
Qed.

Lemma lexComment_loop_returns fuel : forall l,
  (rem l < fuel)%nat -> exists l1, lexComment_loop fuel l = Some l1.
Proof.
  induction fuel as [|f IH]; intros l H; [lia|]. simpl.
  destruct (next l) as [r l1] eqn:E.
  destruct (next_rem _ _ _ E) as (_ & _ & P).
  destruct (Z.eqb_spec r eof) as [->|Hne]; [simpl; eauto|]. simpl.
  destruct (r =? newline); [eauto|].
  apply IH. specialize (P Hne). lia.
Qed.

Lemma lexString_loop_returns fuel : forall s l,
  (rem l < fuel)%nat -> exists r, lexString_loop fuel s l = Some r.
Proof.
  induction fuel as [|f IH]; intros s l H; [lia|]. simpl.
  destruct (next l) as [r l1] eqn:E.
  destruct (next_rem _ _ _ E) as (_ & _ & P).
  destruct (Z.eqb_spec r backslash) as [->|Hb].
  - destruct (escapeSeq l1) as [[s1 err] l2] eqn:Q.
    apply escapeSeq_advances, advances_rem in Q.
    destruct err; [eauto|]. apply IH.
    assert (backslash <> eof) as Hne by discriminate. specialize (P Hne). lia.
  - destruct (r =? quote); [eauto|].
    destruct (Z.eqb_spec r eof) as [->|Hne]; [simpl; eauto|]. simpl.
    destruct ((r =? newline) || (r =? creturn)); [eauto|].
    apply IH. specialize (P Hne). lia.
Qed.

Lemma number_chars_no_eof (h : bool) :
  IndexRune ((if h then hexDigit else digit) ++ "_") eof = false.
Proof. destruct h; reflexivity. Qed.

Lemma lexNumber_returns fuel l :
  (rem l < fuel)%nat -> exists r, lexNumber fuel l = Some r.
Proof.
  intros H. unfold lexNumber.
  destruct (accept sign l) as [b1 l1] eqn:A1.
  apply accept_advances, advances_rem in A1.
  destruct (accept "0" l1) as [z l2] eqn:A2.
  apply accept_advances, advances_rem in A2.
  assert (R3 : forall h l3,
    (if z then accept "xX" l2 else (false, l2)) = (h, l3) ->
    (rem l3 <= rem l2)%nat).
  { intros h l3 A3. destruct z.
    - apply accept_advances, advances_rem in A3. assumption.
    - injection A3 as <- <-. lia. }
  destruct (if z then accept "xX" l2 else (false, l2)) as [h l3].
  specialize (R3 h l3 eq_refl).
  destruct (acceptRun_loop_returns fuel _ 0%nat l3 (number_chars_no_eof h)
              ltac:(lia)) as (n4 & l4 & R4).
  unfold acceptRun. rewrite R4.
  apply acceptRun_loop_advances, advances_rem in R4.
  destruct (accept "." l4) as [d l5] eqn:A5.
  apply accept_advances, advances_rem in A5.
  destruct (acceptRun_loop_returns fuel _ 0%nat l5 (number_chars_no_eof h)
              ltac:(lia)) as (n6 & l6 & R6).
  assert (R6' : exists n6' l6',
    (if d then acceptRun_loop fuel ((if h then hexDigit else digit) ++ "_")
                0 l5 else Some (0%nat, l5)) = Some (n6', l6') /\
    (rem l6' <= rem l5)%nat).
  { destruct d.
    - exists n6, l6. split; [assumption|].
      apply acceptRun_loop_advances, advances_rem in R6. assumption.
    - exists 0%nat, l5. split; [reflexivity|lia]. }
  destruct R6' as (n6' & l6' & -> & R6').
  destruct (accept "eEpP" l6') as [ex l7] eqn:A7.
  apply accept_advances, advances_rem in A7.
  destruct ex; [|eauto].
  destruct (accept sign l7) as [b8 l8] eqn:A8.
  apply accept_advances, advances_rem in A8.
  destruct (acceptRun_loop_returns fuel (digit ++ "_") 0%nat l8 eq_refl
              ltac:(lia)) as (n9 & l9 & R9).
  rewrite R9. eauto.
Qed.

Lemma run_returns fuel st l :
  st <> StBlockComment -> (rem l < fuel)%nat ->
  exists st' l', run fuel st l = Some (st', l').
Proof.
  intros Hst H.
  assert (G : forall r : step, exists st' l', Some r = Some (st', l')).
  { intros [st' l']. eauto. }
  destruct st; simpl; try congruence.
  - destruct (lexDefault_returns fuel l H) as (r & ->). apply G.
  - destruct (lexNumber_returns fuel l H) as (r & ->). apply G.
  - unfold lexKeyword, acceptRun.
    destruct (acceptRun_loop_returns fuel keyword 0%nat l eq_refl H)
      as (n & l1 & ->).
    destruct (assoc key (lexeme l1)); eauto.
  - unfold lexComment. destruct (accept ";" l) as [ok l1] eqn:A.
    apply accept_advances, advances_rem in A. destruct (negb ok).
    + destruct (next l1) as [r l2]. apply G.
    + destruct (lexComment_loop_returns fuel l1 ltac:(lia)) as (l2 & ->). eauto.
  - unfold lexIdentifier, acceptRun.
    destruct (acceptRun_loop_returns fuel idChar 0%nat l eq_refl H)
      as (n & l1 & ->).
    destruct (n <? 2)%nat; [apply G|eauto].
  - unfold lexString.
    destruct (lexString_loop_returns fuel [] l H) as (r & ->). apply G.
Qed.

(** Every state function but [lexBlockComment] returns once the fuel
    exceeds the number of bytes left: no loop of theirs can spin.  By then
    it has sent at most one token. *)
Theorem state_functions_return fuel st l :
  st <> StBlockComment -> (rem l < fuel)%nat ->
  exists st' l', run fuel st l = Some (st', l') /\ sends_at_most_one l l'.
Proof.
  intros Hst H. destruct (run_returns fuel st l Hst H) as (st' & l' & R).
  exists st', l'. split; [exact R|]. exact (run_sends _ _ _ _ _ R).
Qed.

Lemma state_functions_return_witness :
  (rem (NewLexer (bytes "abc")) < 4)%nat /\
  exists st' l', run 4 StKeyword (NewLexer (bytes "abc")) = Some (st', l') /\
                 sends_at_most_one (NewLexer (bytes "abc")) l'.
Proof.
  split; [vm_compute; lia|].
  apply state_functions_return; [discriminate|vm_compute; lia].
Defined.

(** ** Runes below 128 are single bytes *)

Lemma lor_ge_l a b : 0 <= b -> a <= Z.lor a b.
Proof.
  intros Hb. pose proof (Z.sub_lor_l_same_l b a) as H.
  assert (0 <= Z.land b (Z.lnot a)) by (apply Z.land_nonneg; left; assumption).
  lia.
Qed.

Lemma lor_ge_r a b : 0 <= a -> b <= Z.lor a b.
Proof. intros Ha. rewrite Z.lor_comm. apply lor_ge_l. assumption. Qed.

Lemma cont_nonneg b : 0 <= cont b.
Proof. unfold cont. apply Z.land_nonneg. right. lia. Qed.

Lemma cont_from_160 b : 160 <= b2z b -> b2z b <= 191 -> 32 <= cont b.
Proof.
  destruct b; vm_compute; intros H1 H2 H3;
    first [ exfalso; apply H1; reflexivity
          | exfalso; apply H2; reflexivity
          | discriminate H3 ].
Qed.

Lemma cont_from_144 b : 144 <= b2z b -> b2z b <= 191 -> 16 <= cont b.
Proof.
  destruct b; vm_compute; intros H1 H2 H3;
    first [ exfalso; apply H1; reflexivity
          | exfalso; apply H2; reflexivity
          | discriminate H3 ].
Qed.

(** What the first byte of a longer sequence contributes, or else the
    smallest second byte it accepts. *)
Lemma first_lead b sz lo hi :
  first (b2z b) = Some (sz, (lo, hi)) ->
  (sz = 2%nat /\ 2 <= Z.land (b2z b) 31) \/
  (sz = 3%nat /\ (1 <= Z.land (b2z b) 15 \/ (lo = 160 /\ hi = 191))) \/
  (sz = 4%nat /\ (1 <= Z.land (b2z b) 7 \/ (lo = 144 /\ hi = 191))).
Proof.
  destruct b; vm_compute; intros H;
    first
      [ discriminate H
      | injection H as <- <- <-;
        first
          [ left; split; [reflexivity|intro C; discriminate C]
          | right; left; split; [reflexivity|];
            first [ left; intro C; discriminate C
                  | right; split; reflexivity ]
          | right; right; split; [reflexivity|];
            first [ left; intro C; discriminate C
                  | right; split; reflexivity ] ] ].
Qed.

Lemma DecodeRune_small b0 p1 r w :
  DecodeRune (b0 :: p1) = (r, w) -> r < 128 ->
  b2z b0 < 128 /\ r = b2z b0 /\ w = 1%nat.
Proof.
  unfold DecodeRune.
  destruct (Z.ltb_spec (b2z b0) 128) as [Hlt|Hge];
    [intros [= <- <-] _; auto|].
  assert (Bad : forall x : rune * nat, x = (r, w) -> fst x >= 128 -> r < 128 ->
                b2z b0 < 128 /\ r = b2z b0 /\ w = 1%nat).
  { intros x -> Hx Hr. simpl in Hx. lia. }
  assert (Err : (RuneError, 1%nat) = (r, w) -> r < 128 ->
                b2z b0 < 128 /\ r = b2z b0 /\ w = 1%nat).
  { intros H. apply (Bad _ H). cbn [fst]. unfold RuneError. lia. }
  destruct (first (b2z b0)) as [[sz [lo hi]]|] eqn:F; [|exact Err].
  apply first_lead in F.
  destruct (List.length (b0 :: p1) <? sz)%nat; [exact Err|].
  destruct p1 as [|b1 p2]; [exact Err|].
  destruct (between lo (b2z b1) hi) eqn:B1; [|exact Err]. cbn [negb].
  apply andb_prop in B1. destruct B1 as [B1 B1']. apply Z.leb_le in B1, B1'.
  pose proof (cont_nonneg b1) as C1.
  assert (A31 : 0 <= Z.land (b2z b0) 31) by (apply Z.land_nonneg; right; lia).
  assert (A15 : 0 <= Z.land (b2z b0) 15) by (apply Z.land_nonneg; right; lia).
  assert (A7 : 0 <= Z.land (b2z b0) 7) by (apply Z.land_nonneg; right; lia).
  destruct (Nat.leb_spec sz 2) as [S2|S2].
  { intros H. apply (Bad _ H). cbn [fst].
    destruct F as [[-> F]|[[-> _]|[-> _]]]; try lia.
    pose proof (lor_ge_l (Z.shiftl (Z.land (b2z b0) 31) 6) (cont b1) C1).
    rewrite Z.shiftl_mul_pow2 in * by lia. change (2 ^ 6) with 64 in *. lia. }
  destruct p2 as [|b2 p3]; [exact Err|].
  destruct (between 128 (b2z b2) 191); [|exact Err]. cbn [negb].
  pose proof (cont_nonneg b2) as C2.
  destruct (Nat.leb_spec sz 3) as [S3|S3].
  { intros H. apply (Bad _ H). cbn [fst].
    destruct F as [[-> _]|[[-> F]|[-> _]]]; try lia.
    pose proof (lor_ge_l (Z.lor (Z.shiftl (Z.land (b2z b0) 15) 12)
                                (Z.shiftl (cont b1) 6)) (cont b2) C2).
    assert (0 <= Z.shiftl (cont b1) 6) by (apply Z.shiftl_nonneg; lia).
    assert (0 <= Z.shiftl (Z.land (b2z b0) 15) 12)
      by (apply Z.shiftl_nonneg; lia).
    pose proof (lor_ge_l (Z.shiftl (Z.land (b2z b0) 15) 12)
                         (Z.shiftl (cont b1) 6) ltac:(lia)).
    pose proof (lor_ge_r (Z.shiftl (Z.land (b2z b0) 15) 12)
                         (Z.shiftl (cont b1) 6) ltac:(lia)).
    rewrite !Z.shiftl_mul_pow2 in * by lia.
    change (2 ^ 6) with 64 in *. change (2 ^ 12) with 4096 in *.
    destruct F as [F|[-> ->]]; [lia|].
    pose proof (cont_from_160 b1 B1 B1'). lia. }
  destruct p3 as [|b3 p4]; [exact Err|].
  destruct (between 128 (b2z b3) 191); [|exact Err]. cbn [negb].
  pose proof (cont_nonneg b3) as C3.
  intros H. apply (Bad _ H). cbn [fst].
  destruct F as [[-> _]|[[-> _]|[-> F]]]; try lia.
  pose proof (Z.shiftl_nonneg (cont b2) 6) as N2.
  pose proof (Z.shiftl_nonneg (cont b1) 12) as N1.
  pose proof (Z.shiftl_nonneg (Z.land (b2z b0) 7) 18) as N0.
  pose proof (Z.shiftl_mul_pow2 (cont b1) 12 ltac:(lia)) as M1.
  pose proof (Z.shiftl_mul_pow2 (Z.land (b2z b0) 7) 18 ltac:(lia)) as M0.
  change (2 ^ 12) with 4096 in M1. change (2 ^ 18) with 262144 in M0.
  pose proof (lor_ge_l (Z.shiftl (Z.land (b2z b0) 7) 18)
                       (Z.shiftl (cont b1) 12) ltac:(lia)) as G0.
  pose proof (lor_ge_r (Z.shiftl (Z.land (b2z b0) 7) 18)
                       (Z.shiftl (cont b1) 12) ltac:(lia)) as G1.
  pose proof (lor_ge_l (Z.lor (Z.shiftl (Z.land (b2z b0) 7) 18)
                              (Z.shiftl (cont b1) 12))
                       (Z.shiftl (cont b2) 6) ltac:(lia)) as G2.
  pose proof (lor_ge_l (Z.lor (Z.lor (Z.shiftl (Z.land (b2z b0) 7) 18)
                                     (Z.shiftl (cont b1) 12))
                              (Z.shiftl (cont b2) 6))
                       (cont b3) C3) as G3.
  destruct F as [F|[-> ->]]; [lia|].
  pose proof (cont_from_144 b1 B1 B1'). lia.
Qed.

(** ** Scans that end *)

Lemma onward_refl l : onward l l.
Proof. unfold onward. auto. Qed.

Lemma onward_trans l1 l2 l3 : onward l1 l2 -> onward l2 l3 -> onward l1 l3.
Proof. unfold onward. intros (A & B & C) (A' & B' & C'). repeat split; try congruence; lia. Qed.

Lemma advances_onward l l' : advances l l' -> onward l l'.
Proof.
  intros H. pose proof (advances_rem _ _ H). unfold advances, onward in *.
  intuition.
Qed.

Lemma no_block_opener_skipn p : forall inp,
  no_block_opener inp = true -> no_block_opener (skipn p inp) = true.
Proof.
  induction p as [|p IH]; intros inp H; [assumption|].
  destruct inp as [|b t]; [reflexivity|]. simpl skipn. apply IH.
  simpl in H. apply andb_prop in H. tauto.
Qed.

Lemma no_block_opener_here inp p b b' rest :
  no_block_opener inp = true -> skipn p inp = b :: b' :: rest ->
  b2z b = chr "(" -> b2z b' = chr ";" -> False.
Proof.
  intros H E Hb Hb'. apply (no_block_opener_skipn p) in H. rewrite E in H.
  simpl in H. rewrite Hb, Hb' in H. discriminate H.
Qed.

(** A rune between 1 and 127 was read from one byte. *)
Lemma next_ascii_inv l r l1 :
  next l = (r, l1) -> 0 < r < 128 ->
  exists b rest, skipn (pos l) (input l) = b :: rest /\ r = b2z b /\
    pos l1 = (pos l + 1)%nat.
Proof.
  unfold next. intros H Hr.
  destruct (List.length (input l) <=? pos l)%nat.
  - injection H as <- <-. unfold eof in Hr. lia.
  - destruct (DecodeRune (skipn (pos l) (input l))) as [r' w] eqn:D.
    injection H as <- <-. simpl.
    destruct (skipn (pos l) (input l)) as [|b rest].
    + simpl in D. injection D as <- <-. unfold RuneError in Hr. lia.
    + apply DecodeRune_small in D; [|lia]. destruct D as (_ & -> & ->).
      exists b, rest. auto.
Qed.

Lemma head_same_place l l' :
  input l' = input l -> pos l' = pos l -> head l' = head l.
Proof.
  intros Hi Hp. unfold head, next. rewrite Hi, Hp.
  destruct (List.length (input l) <=? pos l)%nat; [reflexivity|].
  destruct (DecodeRune (skipn (pos l) (input l))). reflexivity.
Qed.

Lemma next_head l r l1 : next l = (r, l1) -> head l = r.
Proof. unfold head. intros ->. reflexivity. Qed.

Lemma next_backup_head l r l1 : next l = (r, l1) -> head (backup l1) = r.
Proof.
  intros H. rewrite <- (next_head _ _ _ H).
  destruct (next_backup _ _ _ H) as ((Hi & _) & Hp).
  apply head_same_place; assumption.
Qed.

Lemma onward_emit k l : onward l (emit k l).
Proof. unfold onward, emit, rem. simpl. auto. Qed.

Lemma number_start_no_eof r : number_start r = true -> r <> eof.
Proof. intros H ->. discriminate H. Qed.

Lemma lowercase_in_keyword r :
  isLowercaseLetter r = true -> IndexRune keyword r = true.
Proof.
  unfold isLowercaseLetter. intros H. apply andb_prop in H.
  destruct H as [H1 H2]. apply Z.leb_le in H1, H2.
  assert (exists k, (k < 26)%nat /\ r = 97 + Z.of_nat k) as (k & Hk & ->)
    by (exists (Z.to_nat (r - 97)); lia).
  do 26 (destruct k as [|k]; [reflexivity|]). lia.
Qed.

Lemma digit_in_digits r :
  (chr "0" <=? r) && (r <=? chr "9") = true ->
  IndexRune (digit ++ "_") r = true.
Proof.
  intros H. apply andb_prop in H.
  destruct H as [H1 H2]. apply Z.leb_le in H1, H2.
  change (chr "0") with 48 in H1. change (chr "9") with 57 in H2.
  assert (exists k, (k < 10)%nat /\ r = 48 + Z.of_nat k) as (k & Hk & ->)
    by (exists (Z.to_nat (r - 48)); lia).
  do 10 (destruct k as [|k]; [reflexivity|]). lia.
Qed.

(** What [lexDefault] hands back when no block comment opens. *)
Lemma lexDefault_outcome fuel : forall l st' l',
  no_block_opener (input l) = true ->
  lexDefault fuel l = Some (st', l') ->
  onward l l' /\
  ((exists t, tokens l' = tokens l ++ [t] /\
      ((st' = None /\ stops t = true) \/
       (st' = Some StDefault /\ (rem l' < rem l)%nat))) \/
   (tokens l' = tokens l /\ (rem l' < rem l)%nat /\
      (st' = Some StComment \/ st' = Some StString)) \/
   (tokens l' = tokens l /\
      ((st' = Some StNumber /\ number_start (head l') = true) \/
       (st' = Some StKeyword /\ isLowercaseLetter (head l') = true) \/
       (st' = Some StIdentifier /\ head l' = chr "$")))).
Proof.
  induction fuel as [|f IH]; simpl; intros l st' l' N H; [discriminate|].
  destruct (next l) as [r l1] eqn:E.
  pose proof (next_advances _ _ _ E) as A1.
  pose proof (proj1 (next_backup _ _ _ E)) as Ab.
  pose proof (next_backup_head _ _ _ E) as Hb.
  destruct (next_rem _ _ _ E) as (_ & _ & P).
  destruct (Z.eqb_spec r eof) as [->|Hne].
  { injection H as <- <-. split.
    - apply (onward_trans _ l1); [apply advances_onward; exact A1|apply onward_emit].
    - left. eexists. split; [simpl; f_equal; apply A1|]. left. auto. }
  specialize (P Hne).
  destruct (isSpace r).
  { destruct (IH (ignore l1) st' l') as (O & C); [simpl; rewrite (proj1 A1); assumption|assumption|].
    assert (T : tokens (ignore l1) = tokens l) by (simpl; apply A1).
    assert (R : rem (ignore l1) = rem l1) by reflexivity.
    rewrite T, R in C. split.
    - apply (onward_trans _ l1); [apply advances_onward; exact A1|].
      unfold onward in *. simpl in O. intuition.
    - destruct C as [(t & Ht & [C|(C & C')])|[(C1 & C2 & C3)|C]].
      + left. exists t. auto.
      + left. exists t. split; [assumption|]. right. split; [assumption|lia].
      + right. left. repeat split; auto. lia.
      + right. right. assumption. }
  destruct (Z.eqb_spec r (chr ";")).
  { injection H as <- <-. split; [apply advances_onward; assumption|].
    right. left. repeat split; auto. apply A1. }
  fold (number_start r) in H. destruct (number_start r) eqn:NS.
  { injection H as <- <-. split; [apply advances_onward; assumption|].
    right. right. split; [apply Ab|]. left. rewrite Hb. auto. }
  destruct (Z.eqb_spec r (chr "$")).
  { injection H as <- <-. split; [apply advances_onward; assumption|].
    right. right. split; [apply Ab|]. right. right. rewrite Hb. auto. }
  destruct (Z.eqb_spec r quote).
  { injection H as <- <-. split; [apply advances_onward; assumption|].
    right. left. repeat split; auto. apply A1. }
  destruct (Z.eqb_spec r (chr "(")) as [Hp|_].
  { destruct (peek l1) as [r2 l2] eqn:Pk.
    pose proof (peek_spec _ _ _ Pk) as (A2 & P2).
    assert (R2 : rem l2 = rem l1).
    { unfold rem. rewrite P2, (proj1 A2). reflexivity. }
    destruct (Z.eqb_spec r2 (chr ";")) as [Hs|_].
    - exfalso.
      destruct (next_ascii_inv _ _ _ E) as (b & rest & Eb & Hrb & Hp1);
        [rewrite Hp; split; reflexivity|].
      unfold peek in Pk. destruct (next l1) as [r2' n2] eqn:E2.
      injection Pk as -> <-.
      destruct (next_ascii_inv _ _ _ E2) as (b' & rest' & Eb' & Hrb' & _);
        [rewrite Hs; split; reflexivity|].
      rewrite (proj1 A1), Hp1, (skipn_cons_succ _ _ _ _ Eb) in Eb'. subst rest.
      apply (no_block_opener_here _ _ _ _ _ N Eb); congruence.
    - injection H as <- <-. split.
      + apply (onward_trans _ l1); [apply advances_onward; exact A1|].
        apply (onward_trans _ l2); [apply advances_onward; exact A2|].
        apply onward_emit.
      + left. eexists. split.
        * simpl. f_equal. rewrite (proj1 (proj2 (proj2 A2))). apply A1.
        * right. split; [reflexivity|]. unfold emit, rem in *. simpl. lia. }
  destruct (Z.eqb_spec r (chr ")")).
  { injection H as <- <-. split.
    - apply (onward_trans _ l1); [apply advances_onward; exact A1|apply onward_emit].
    - left. eexists. split; [simpl; f_equal; apply A1|].
      right. split; [reflexivity|]. unfold emit, rem in *. simpl. lia. }
  destruct (isLowercaseLetter r) eqn:LL.
  { injection H as <- <-. split; [apply advances_onward; assumption|].
    right. right. split; [apply Ab|]. right. left. rewrite Hb. auto. }
  injection H as <- <-. split.
  - apply advances_onward in A1. unfold onward, rem in *. simpl. assumption.
  - left. eexists. split; [simpl; f_equal; apply A1|]. left. auto.
Qed.

Lemma onward_send t l : onward l (send t l).
Proof. unfold onward, send, rem. simpl. auto. Qed.

Lemma accept_cases valid l b l1 :
  accept valid l = (b, l1) ->
  exists n1, next l = (head l, n1) /\ b = IndexRune valid (head l) /\
    (b = true -> l1 = n1) /\
    (b = false -> l1 = backup n1 /\ head l1 = head l).
Proof.
  unfold accept. destruct (next l) as [r n1] eqn:E.
  rewrite (next_head _ _ _ E).
  destruct (IndexRune valid r); intros [= <- <-]; exists n1;
    repeat split; auto; try discriminate.
  apply (next_backup_head _ _ _ E).
Qed.

Lemma acceptRun_first fuel valid l n l1 :
  acceptRun fuel valid l = Some (n, l1) ->
  IndexRune valid (head l) = true -> head l <> eof ->
  (rem l1 < rem l)%nat.
Proof.
  unfold acceptRun. intros H V Hne.
  destruct fuel as [|f]; [discriminate H|]. simpl in H.
  destruct (next l) as [r n1] eqn:E. rewrite (next_head _ _ _ E) in V, Hne.
  rewrite V in H.
  apply acceptRun_loop_advances, advances_rem in H.
  destruct (next_rem _ _ _ E) as (_ & _ & P). specialize (P Hne). lia.
Qed.

Lemma lexNumber_outcome fuel l st' l' :
  number_start (head l) = true ->
  lexNumber fuel l = Some (st', l') ->
  onward l l' /\ st' = Some StDefault /\
  (exists t, tokens l' = tokens l ++ [t]) /\ (rem l' < rem l)%nat.
Proof.
  intros NS. pose proof (number_start_no_eof _ NS) as Hne.
  unfold lexNumber.
  destruct (accept sign l) as [b1 l1] eqn:A1.
  pose proof (accept_advances _ _ _ _ A1) as V1.
  destruct (accept "0" l1) as [z l2] eqn:A2.
  pose proof (accept_advances _ _ _ _ A2) as V2.
  destruct (if z then accept "xX" l2 else (false, l2)) as [h l3] eqn:A3.
  assert (V3 : advances l2 l3).
  { destruct z; [eapply accept_advances; eauto|].
    injection A3 as <- <-. apply advances_refl. }
  destruct (acceptRun fuel _ l3) as [[n4 l4]|] eqn:R4; [|discriminate].
  pose proof (acceptRun_advances _ _ _ _ _ R4) as V4.
  (* the first rune is read by one of the three *)
  assert (Pr : (rem l4 < rem l)%nat).
  { pose proof (advances_rem _ _ V1). pose proof (advances_rem _ _ V2).
    pose proof (advances_rem _ _ V3). pose proof (advances_rem _ _ V4).
    destruct (accept_cases _ _ _ _ A1) as (n1 & E1 & B1 & T1 & F1).
    destruct b1.
    - rewrite (T1 eq_refl) in *.
      destruct (next_rem _ _ _ E1) as (_ & _ & P). specialize (P Hne). lia.
    - destruct (F1 eq_refl) as (_ & Hh1).
      destruct (accept_cases _ _ _ _ A2) as (n2 & E2 & B2 & T2 & F2).
      rewrite Hh1 in *.
      destruct z.
      + rewrite (T2 eq_refl) in *.
        destruct (next_rem _ _ _ E2) as (_ & _ & P). specialize (P Hne). lia.
      + destruct (F2 eq_refl) as (_ & Hh2).
        injection A3 as <- <-.
        assert ((rem l4 < rem l2)%nat); [|lia].
        apply (acceptRun_first _ _ _ _ _ R4); [|congruence].
        rewrite Hh2. apply digit_in_digits.
        unfold number_start in NS.
        change (IndexRune sign (head l))
          with ((chr "+" =? head l) || ((chr "-" =? head l) || false)) in B1.
        rewrite (Z.eqb_sym (chr "+")), (Z.eqb_sym (chr "-")) in B1.
        destruct (head l =? chr "+"); [discriminate B1|].
        destruct (head l =? chr "-"); [discriminate B1|].
        exact NS. }
  destruct (accept "." l4) as [d l5] eqn:A5.
  pose proof (accept_advances _ _ _ _ A5) as V5.
  destruct (if d then acceptRun fuel _ l5 else Some (0%nat, l5))
    as [[n6 l6]|] eqn:R6; [|discriminate].
  assert (V6 : advances l5 l6).
  { destruct d; [eapply acceptRun_advances; eauto|].
    injection R6 as <- <-. apply advances_refl. }
  destruct (accept "eEpP" l6) as [ex l7] eqn:A7.
  pose proof (accept_advances _ _ _ _ A7) as V7.
  assert (Fin : forall l9, advances l7 l9 ->
    Some (Some StDefault, emit tokenNumber l9) = Some (st', l') ->
    onward l l' /\ st' = Some StDefault /\
    (exists t, tokens l' = tokens l ++ [t]) /\ (rem l' < rem l)%nat).
  { intros l9 V9 [= <- <-].
    assert (V : advances l l9).
    { repeat (eapply advances_trans; [eassumption|]).
      first [assumption|apply advances_refl]. }
    pose proof (advances_rem _ _ V5). pose proof (advances_rem _ _ V6).
    pose proof (advances_rem _ _ V7). pose proof (advances_rem _ _ V9).
    split; [eapply onward_trans; [apply advances_onward; exact V|apply onward_emit]|].
    split; [reflexivity|]. split.
    - eexists. simpl. f_equal. apply V.
    - unfold emit, rem in *. simpl. lia. }
  destruct ex.
  - destruct (accept sign l7) as [b8 l8] eqn:A8.
    pose proof (accept_advances _ _ _ _ A8) as V8.
    destruct (acceptRun fuel _ l8) as [[n9 l9]|] eqn:R9; [|discriminate].
    pose proof (acceptRun_advances _ _ _ _ _ R9) as V9.
    apply Fin. eapply advances_trans; eauto.
  - apply Fin. apply advances_refl.
Qed.

Lemma lexKeyword_outcome fuel l st' l' :
  isLowercaseLetter (head l) = true ->
  lexKeyword fuel l = Some (st', l') ->
  onward l l' /\ st' = Some StDefault /\
  (exists t, tokens l' = tokens l ++ [t]) /\ (rem l' < rem l)%nat.
Proof.
  intros LL. unfold lexKeyword.
  destruct (acceptRun fuel keyword l) as [[n l1]|] eqn:R; [|discriminate].
  pose proof (acceptRun_advances _ _ _ _ _ R) as V.
  assert (Pr : (rem l1 < rem l)%nat).
  { apply (acceptRun_first _ _ _ _ _ R); [apply lowercase_in_keyword; assumption|].
    intros C. rewrite C in LL. discriminate LL. }
  assert (Fin : forall k, Some (Some StDefault, emit k l1) = Some (st', l') ->
    onward l l' /\ st' = Some StDefault /\
    (exists t, tokens l' = tokens l ++ [t]) /\ (rem l' < rem l)%nat).
  { intros k [= <- <-].
    split; [eapply onward_trans; [apply advances_onward; exact V|apply onward_emit]|].
    split; [reflexivity|]. split.
    - eexists. simpl. f_equal. apply V.
    - unfold emit, rem in *. simpl. lia. }
  destruct (assoc key (lexeme l1)); apply Fin.
Qed.

Lemma lexIdentifier_outcome fuel l st' l' :
  head l = chr "$" ->
  lexIdentifier fuel l = Some (st', l') ->
  onward l l' /\
  exists t, tokens l' = tokens l ++ [t] /\
    ((st' = None /\ stops t = true) \/
     (st' = Some StDefault /\ (rem l' < rem l)%nat)).
Proof.
  intros Hd. unfold lexIdentifier.
  destruct (acceptRun fuel idChar l) as [[n l1]|] eqn:R; [|discriminate].
  pose proof (acceptRun_advances _ _ _ _ _ R) as V.
  assert (Pr : (rem l1 < rem l)%nat).
  { apply (acceptRun_first _ _ _ _ _ R); rewrite Hd; [reflexivity|discriminate]. }
  destruct (n <? 2)%nat; intros [= <- <-].
  - split; [eapply onward_trans; [apply advances_onward; exact V|apply onward_send]|].
    eexists. split; [simpl; f_equal; apply V|]. left. auto.
  - split; [eapply onward_trans; [apply advances_onward; exact V|apply onward_emit]|].
    eexists. split; [simpl; f_equal; apply V|]. right.
    split; [reflexivity|]. unfold emit, rem in *. simpl. lia.
Qed.

Lemma lexString_loop_outcome fuel : forall s l st' l',
  lexString_loop fuel s l = Some (st', l') ->
  onward l l' /\
  exists t, tokens l' = tokens l ++ [t] /\
    ((st' = None /\ stops t = true) \/ st' = Some StDefault).
Proof.
  induction fuel as [|f IH]; simpl; intros s l st' l' H; [discriminate|].
  destruct (next l) as [r l1] eqn:E. apply next_advances in E.
  assert (Err : forall m l2, advances l l2 ->
    Some (errorf m l2) = Some (st', l') ->
    onward l l' /\
    exists t, tokens l' = tokens l ++ [t] /\
      ((st' = None /\ stops t = true) \/ st' = Some StDefault)).
  { intros m l2 V [= <- <-].
    split; [eapply onward_trans; [apply advances_onward; exact V|apply onward_send]|].
    eexists. split; [simpl; f_equal; apply V|]. left. auto. }
  assert (Go : forall s2 l2, advances l l2 ->
    lexString_loop f s2 l2 = Some (st', l') ->
    onward l l' /\
    exists t, tokens l' = tokens l ++ [t] /\
      ((st' = None /\ stops t = true) \/ st' = Some StDefault)).
  { intros s2 l2 V H2. destruct (IH _ _ _ _ H2) as (O & t & Ht & C).
    split; [eapply onward_trans; [apply advances_onward; exact V|exact O]|].
    exists t. split; [|assumption].
    rewrite Ht. f_equal. apply V. }
  destruct (r =? backslash).
  - destruct (escapeSeq l1) as [[s1 err] l2] eqn:Q.
    apply escapeSeq_advances in Q.
    pose proof (advances_trans _ _ _ E Q) as V2.
    destruct err; [eapply Err; eauto|eapply Go; eauto].
  - destruct (r =? quote).
    + injection H as <- <-. split.
      * eapply onward_trans; [apply advances_onward; exact E|].
        unfold onward, emitWithData, rem. simpl. auto.
      * eexists. split; [simpl; f_equal; apply E|]. right. reflexivity.
    + destruct ((r =? eof) || (r =? newline) || (r =? creturn));
        [eapply Err; eauto|eapply Go; eauto].
Qed.

Lemma lexComment_outcome fuel l st' l' :
  lexComment fuel l = Some (st', l') ->
  onward l l' /\
  ((exists t, tokens l' = tokens l ++ [t] /\ st' = None /\ stops t = true) \/
   (tokens l' = tokens l /\ st' = Some StDefault)).
Proof.
  unfold lexComment. destruct (accept ";" l) as [ok l1] eqn:A.
  apply accept_advances in A. destruct (negb ok).
  - destruct (next l1) as [r l2] eqn:E. apply next_advances in E.
    pose proof (advances_trans _ _ _ A E) as V.
    intros [= <- <-].
    split; [eapply onward_trans; [apply advances_onward; exact V|apply onward_send]|].
    left. eexists. split; [simpl; f_equal; apply V|]. auto.
  - destruct (lexComment_loop fuel l1) as [l2|] eqn:L; [|discriminate].
    apply lexComment_loop_advances in L.
    pose proof (advances_trans _ _ _ A L) as V.
    intros [= <- <-]. split; [apply advances_onward; exact V|].
    right. split; [apply V|reflexivity].
Qed.

Lemma pop_drawn f l l1 st1 t :
  input l1 = input l -> closed l1 = false -> tokens l1 = [t] ->
  ((st1 = None /\ stops t = true) \/
   (st1 = Some StDefault /\ (rem l1 < rem l)%nat)) ->
  exists l', nextToken f (set_state l1 st1) = Some (t, l') /\ drawn l t l'.
Proof.
  intros Hi Hc Ht C.
  rewrite (nextToken_pop f _ t []) by (simpl; assumption).
  eexists. split; [reflexivity|]. unfold drawn, rem in *. simpl.
  repeat split; auto.
Qed.

(** From [lexDefault] with an empty channel, a token is drawn within a
    number of rounds linear in the bytes left. *)
Lemma nextToken_from_default : forall n fuel l,
  (rem l <= n)%nat -> (2 * n + 4 <= fuel)%nat ->
  state l = Some StDefault -> tokens l = [] -> closed l = false ->
  no_block_opener (input l) = true ->
  exists t l', nextToken fuel l = Some (t, l') /\ drawn l t l'.
Proof.
  induction n as [n IH] using lt_wf_ind. intros fuel l Hn Hf Hd T C N.
  destruct fuel as [|[|f]]; try lia.
  rewrite (nextToken_run _ _ StDefault T C Hd).
  destruct (run_returns (S f) StDefault l ltac:(discriminate)
              ltac:(lia)) as (st1 & l1 & R).
  rewrite R. cbn [run] in R.
  destruct (lexDefault_outcome _ _ _ _ N R) as ((Oi & Oc & Or) & Cs).
  rewrite T in Cs. cbn [app] in Cs. rewrite C in Oc.
  assert (Sent : forall l2 st2 t,
    onward (set_state l1 st1) l2 -> tokens l2 = [t] ->
    ((st2 = None /\ stops t = true) \/ st2 = Some StDefault) ->
    (st2 = Some StDefault -> (rem l2 < rem l)%nat) ->
    exists l', nextToken f (set_state l2 st2) = Some (t, l') /\ drawn l t l').
  { intros l2 st2 t (Oi2 & Oc2 & Or2) Ht Hs Hr.
    apply pop_drawn; auto; try (simpl in *; congruence).
    destruct Hs as [Hs|Hs]; auto. }
  assert (Run : forall st, st <> StBlockComment ->
    exists st2 l2, run f st (set_state l1 st1) = Some (st2, l2)).
  { intros st Hst. apply run_returns; [assumption|].
    unfold rem in *. simpl. lia. }
  destruct Cs as [(t & Ht & Cs)|[(Ht & Hr & Cs)|(Ht & Cs)]].
  - (* a token was sent *)
    exists t. apply pop_drawn; auto.
  - (* a comment or a string opens *)
    destruct Cs as [-> | ->].
    + rewrite (nextToken_run _ _ StComment) by (simpl; auto).
      destruct (Run StComment ltac:(discriminate)) as (st2 & l2 & R2).
      rewrite R2. cbn [run] in R2.
      destruct (lexComment_outcome _ _ _ _ R2) as (O2 & Cs2).
      simpl tokens in Cs2. rewrite Ht in Cs2. cbn [app] in Cs2.
      destruct Cs2 as [(t & Ht2 & -> & St)|(Ht2 & ->)].
      * exists t. apply (Sent l2 None t); auto. discriminate.
      * destruct O2 as (Oi2 & Oc2 & Or2). simpl in Oi2, Oc2.
        assert (Hr2 : (rem l2 < rem l)%nat).
        { unfold rem in *. simpl in Or2. lia. }
        destruct (IH (rem l2) ltac:(lia) f (set_state l2 (Some StDefault)))
          as (t & l' & Hnt & D); try lia; try (simpl; congruence);
          try (unfold rem; simpl; lia).
        exists t, l'. split; [assumption|].
        unfold drawn in *. destruct D as (D1 & D2 & D3 & D4).
        simpl in D1. repeat split; try congruence.
        destruct D4 as [D4|(D4 & D5)]; [left; assumption|right].
        split; [assumption|]. unfold rem in *. simpl in D5. lia.
    + rewrite (nextToken_run _ _ StString) by (simpl; auto).
      destruct (Run StString ltac:(discriminate)) as (st2 & l2 & R2).
      rewrite R2. cbn [run] in R2. unfold lexString in R2.
      destruct (lexString_loop_outcome _ _ _ _ _ R2) as (O2 & t & Ht2 & Cs2).
      simpl tokens in Ht2. rewrite Ht in Ht2. cbn [app] in Ht2.
      exists t. apply (Sent l2 st2 t); auto.
      intros _. destruct O2 as (_ & _ & Or2). unfold rem in *. simpl in Or2. lia.
  - (* a number, a keyword or an identifier begins *)
    assert (Hh : head (set_state l1 st1) = head l1)
      by (apply head_same_place; reflexivity).
    destruct Cs as [(-> & Cs)|[(-> & Cs)|(-> & Cs)]].
    + rewrite (nextToken_run _ _ StNumber) by (simpl; auto).
      destruct (Run StNumber ltac:(discriminate)) as (st2 & l2 & R2).
      rewrite R2. cbn [run] in R2. rewrite <- Hh in Cs.
      destruct (lexNumber_outcome _ _ _ _ Cs R2) as (O2 & -> & (t & Ht2) & Hr2).
      simpl tokens in Ht2. rewrite Ht in Ht2. cbn [app] in Ht2.
      exists t. apply (Sent l2 _ t); auto.
      intros _. unfold rem in *. simpl in Hr2. lia.
    + rewrite (nextToken_run _ _ StKeyword) by (simpl; auto).
      destruct (Run StKeyword ltac:(discriminate)) as (st2 & l2 & R2).
      rewrite R2. cbn [run] in R2. rewrite <- Hh in Cs.
      destruct (lexKeyword_outcome _ _ _ _ Cs R2) as (O2 & -> & (t & Ht2) & Hr2).
      simpl tokens in Ht2. rewrite Ht in Ht2. cbn [app] in Ht2.
      exists t. apply (Sent l2 _ t); auto.
      intros _. unfold rem in *. simpl in Hr2. lia.
    + rewrite (nextToken_run _ _ StIdentifier) by (simpl; auto).
      destruct (Run StIdentifier ltac:(discriminate)) as (st2 & l2 & R2).
      rewrite R2. cbn [run] in R2. rewrite <- Hh in Cs.
      destruct (lexIdentifier_outcome _ _ _ _ Cs R2) as (O2 & t & Ht2 & Cs2).
      simpl tokens in Ht2. rewrite Ht in Ht2. cbn [app] in Ht2.
      exists t. apply (Sent l2 st2 t); auto.
      * destruct Cs2 as [Cs2|(Cs2 & _)]; auto.
      * intros E2. destruct Cs2 as [(Cs2 & _)|(_ & Cs2)]; [congruence|].
        unfold rem in *. simpl in Cs2. lia.
Qed.

Lemma scan_from_default : forall n fuel l,
  (rem l <= n)%nat -> (2 * n + 5 <= fuel)%nat ->
  state l = Some StDefault -> tokens l = [] -> closed l = false ->
  no_block_opener (input l) = true ->
  exists ts, scan fuel l = Some ts /\ (List.length ts <= rem l + 1)%nat.
Proof.
  induction n as [n IH] using lt_wf_ind. intros fuel l Hn Hf Hd T C N.
  destruct fuel as [|f]; [lia|]. rewrite scan_step.
  destruct (nextToken_from_default n f l Hn ltac:(lia) Hd T C N)
    as (t & l' & -> & (Di & Dc & Dt & Ds)).
  fold (stops t). destruct (stops t) eqn:St.
  - exists [t]. split; [reflexivity|simpl; lia].
  - destruct Ds as [(_ & Ds)|(Ds & Dr)]; [congruence|].
    destruct (IH (rem l') ltac:(lia) f l' (Nat.le_refl _) ltac:(lia) Ds Dt Dc)
      as (ts & -> & Hl); [congruence|].
    exists (t :: ts). split; [reflexivity|simpl; lia].
Qed.

Lemma scan_Parse_loop f : forall l ts,
  scan f l = Some ts -> exists e l', Parse_loop f l = Some (e, l').
Proof.
  induction f as [|f IH]; simpl; intros l ts H; [discriminate|].
  destruct (nextToken f l) as [[t l1]|]; [|discriminate].
  destruct (isEOF (kind t)); [eauto|].
  destruct (isError (kind t)); [eauto|]. simpl in H.
  destruct (scan f l1) as [ts1|] eqn:S1; [|discriminate]. eauto.
Qed.

(** When no opening parenthesis is directly followed by a semicolon, the
    scan ends within [2 * len + 5] rounds, with at most one token per input
    byte and the closing one, and [Parse] returns. *)
Theorem scan_without_block_comment_ends inp fuel :
  no_block_opener inp = true ->
  (exists ts, scan_input (2 * List.length inp + 5 + fuel) inp = Some ts /\
              (List.length ts <= List.length inp + 1)%nat) /\
  (forall c, exists e p c',
     Parse (2 * List.length inp + 5 + fuel) (NewParser inp) c
     = Some (e, p, c')).
Proof.
  intros N.
  destruct (scan_from_default (List.length inp) (2 * List.length inp + 5)
              (NewLexer inp)) as (ts & Hs & Hl);
    try reflexivity; try assumption; try (unfold rem; simpl; lia).
  assert (Hl' : (List.length ts <= List.length inp + 1)%nat).
  { unfold rem in Hl. simpl in Hl. lia. }
  split.
  - exists ts. split; [|assumption]. unfold scan_input.
    eapply scan_mono; [|exact Hs]. lia.
  - intros c. destruct (scan_Parse_loop _ _ _ Hs) as (e & l' & Hp).
    exists e, (mkParser l' (Some (root_node c))), (wrap_int (c + 1)).
    apply Parse_of_loop. cbn [lex NewParser].
    eapply Parse_loop_mono; [|exact Hp]. lia.
Qed.

Lemma scan_without_block_comment_ends_witness :
  no_block_opener func_f_twice = true /\
  exists ts, scan_input 43 func_f_twice = Some ts /\
             (List.length ts <= 20)%nat.
Proof.
  split; [reflexivity|].
  exact (proj1 (scan_without_block_comment_ends func_f_twice 0 eq_refl)).
Defined.

(** ** Stepping through an input *)

Lemma within_weaken {A} B B' (f : nat -> option A) r :
  within B f r -> (B <= B')%nat -> within B' f r.
Proof. intros H Hle F HF. apply H. lia. Qed.

Lemma within_S {A} (f : nat -> option A) r :
  (forall k, f (S k) = Some r) -> within 1 f r.
Proof. intros H F HF. destruct F; [lia|]. apply H. Qed.

Lemma backup_at inp p s st ts c :
  backup (mkLexer inp (p + 1) s 1 st ts c) = mkLexer inp p s 1 st ts c.
Proof. unfold backup, set_pos. simpl. f_equal. lia. Qed.

Lemma backup_at_end inp p s st ts c :
  backup (mkLexer inp p s 0 st ts c) = mkLexer inp p s 0 st ts c.
Proof. unfold backup, set_pos. simpl. f_equal. lia. Qed.

Lemma accept_hit_at valid inp p s w st ts c b rest :
  skipn p inp = b :: rest -> b2z b < 128 ->
  IndexRune valid (b2z b) = true ->
  accept valid (mkLexer inp p s w st ts c)
  = (true, mkLexer inp (p + 1) s 1 st ts c).
Proof.
  intros E Hb V. unfold accept.
  rewrite (next_ascii_at _ _ _ _ _ _ _ _ _ E Hb), V. reflexivity.
Qed.

Lemma accept_miss_at valid inp p s w st ts c rest :
  skipn p inp = rest -> stop_at valid rest = true ->
  accept valid (mkLexer inp p s w st ts c)
  = (false, mkLexer inp p s (end_width rest) st ts c).
Proof.
  intros E V. unfold accept. destruct rest as [|b rest]; simpl in V.
  - rewrite (next_eof_at _ _ _ _ _ _ _ E).
    apply negb_true_iff in V. rewrite V, backup_at_end. reflexivity.
  - apply andb_prop in V. destruct V as [Hb V].
    apply Z.ltb_lt in Hb. apply negb_true_iff in V.
    rewrite (next_ascii_at _ _ _ _ _ _ _ _ _ E Hb), V, backup_at. reflexivity.
Qed.

Lemma run_of_cons valid b bs :
  run_of valid (b :: bs) = true ->
  b2z b < 128 /\ IndexRune valid (b2z b) = true /\ run_of valid bs = true.
Proof.
  unfold run_of; simpl. intros H.
  apply andb_prop in H. destruct H as [H Hbs].
  apply andb_prop in H. destruct H as [Hlt Hv].
  apply Z.ltb_lt in Hlt. auto.
Qed.

(** [acceptRun] reads a run of accepted bytes and stops in front of the
    first one that is not. *)
Lemma acceptRun_loop_within valid body rest :
  forall cnt inp p s w st ts c,
  run_of valid body = true -> stop_at valid rest = true ->
  skipn p inp = body ++ rest ->
  within (S (List.length body))
    (fun F => acceptRun_loop F valid cnt (mkLexer inp p s w st ts c))
    ((cnt + List.length body)%nat,
     mkLexer inp (p + List.length body) s (end_width rest) st ts c).
Proof.
  induction body as [|b body IH]; intros cnt inp p s w st ts c R V E F HF;
    (destruct F as [|F]; [simpl in HF; lia|]); cbn [acceptRun_loop].
  - simpl in E. destruct rest as [|b rest]; simpl in V.
    + rewrite (next_eof_at _ _ _ _ _ _ _ E).
      apply negb_true_iff in V. rewrite V, backup_at_end. simpl.
      rewrite !Nat.add_0_r. reflexivity.
    + apply andb_prop in V. destruct V as [Hb V].
      apply Z.ltb_lt in Hb. apply negb_true_iff in V.
      rewrite (next_ascii_at _ _ _ _ _ _ _ _ _ E Hb), V, backup_at. simpl.
      rewrite !Nat.add_0_r. reflexivity.
  - apply run_of_cons in R. destruct R as (Hb & Hv & R).
    rewrite (next_ascii_at _ _ _ _ _ _ _ _ _ E Hb), Hv.
    rewrite (IH (S cnt) inp (p + 1)%nat s 1%nat st ts c R V
               (skipn_cons_succ _ _ _ _ E) F) by (simpl in HF; lia).
    simpl List.length. do 2 f_equal; [lia|f_equal; lia].
Qed.

Lemma isSpace_facts b :
  isSpace (b2z b) = true ->
  b2z b < 128 /\ (b2z b =? eof) = false.
Proof.
  destruct b; vm_compute; intros H; try discriminate H; split; reflexivity.
Qed.

Lemma all_space_cons b ws :
  all_space (b :: ws) = true -> isSpace (b2z b) = true /\ all_space ws = true.
Proof. unfold all_space; simpl. apply andb_prop. Qed.

(** [lexDefault] reads the white space in front of it and moves [start]
    past it. *)
Lemma lexDefault_skip_within ws : forall B r inp p s w st ts c rest,
  all_space ws = true -> skipn p inp = ws ++ rest ->
  within B
    (fun F => lexDefault F
       (mkLexer inp (p + List.length ws)
          (match ws with [] => s | _ => p + List.length ws end)%nat
          (match ws with [] => w | _ => 1%nat end) st ts c)) r ->
  within (List.length ws + B)
    (fun F => lexDefault F (mkLexer inp p s w st ts c)) r.
Proof.
  induction ws as [|b ws IH]; intros B r inp p s w st ts c rest A E H F HF.
  - simpl in *. rewrite Nat.add_0_r in H. apply H. assumption.
  - apply all_space_cons in A. destruct A as (Hs & A).
    destruct (isSpace_facts _ Hs) as (Hb & He).
    destruct F as [|F]; [simpl in HF; lia|]. cbn [lexDefault].
    rewrite (next_ascii_at _ _ _ _ _ _ _ _ _ E Hb), He, Hs.
    change (ignore (mkLexer inp (p + 1) s 1 st ts c))
      with (mkLexer inp (p + 1) (p + 1) 1 st ts c).
    apply (IH B r inp (p + 1)%nat (p + 1)%nat 1%nat st ts c rest A
             (skipn_cons_succ _ _ _ _ E)); [|simpl in HF; lia].
    replace (match ws with [] => (p + 1)%nat | _ => (p + 1 + List.length ws)%nat end)
      with (p + List.length (b :: ws))%nat by (destruct ws; simpl; lia).
    replace (match ws with [] => 1%nat | _ => 1%nat end) with 1%nat
      by (destruct ws; reflexivity).
    replace (p + 1 + List.length ws)%nat with (p + List.length (b :: ws))%nat
      by (simpl; lia).
    exact H.
Qed.

(** One round of [nextToken] that ends with a token in the channel. *)
Lemma nextToken_sent_within B inp p s w st0 st' l' t :
  within B (fun F => run F st0 (mkLexer inp p s w (Some st0) [] false))
    (st', l') ->
  tokens l' = [t] ->
  within (S B) (fun F => nextToken F (mkLexer inp p s w (Some st0) [] false))
    (t, set_tokens (set_state l' st') []).
Proof.
  intros H T F HF. destruct F as [|F]; [lia|].
  rewrite (nextToken_run _ _ st0) by reflexivity.
  rewrite (H F) by lia.
  apply nextToken_pop. simpl. assumption.
Qed.

(** Two rounds: [lexDefault] hands over to another state function, which
    sends the token. *)
Lemma nextToken_handed_within B1 B2 inp p s w st1 p1 s1 w1 st' l' t :
  within B1 (fun F => lexDefault F (mkLexer inp p s w (Some StDefault) [] false))
    (Some st1, mkLexer inp p1 s1 w1 (Some StDefault) [] false) ->
  within B2 (fun F => run F st1 (mkLexer inp p1 s1 w1 (Some st1) [] false))
    (st', l') ->
  tokens l' = [t] ->
  within (S (Nat.max B1 (S B2)))
    (fun F => nextToken F (mkLexer inp p s w (Some StDefault) [] false))
    (t, set_tokens (set_state l' st') []).
Proof.
  intros H1 H2 T F HF. destruct F as [|F]; [lia|].
  rewrite (nextToken_run _ _ StDefault) by reflexivity. cbn [run].
  rewrite (H1 F) by lia. rewrite set_state_at.
  apply (nextToken_sent_within B2 inp p1 s1 w1 st1 st' l' t H2 T).
  lia.
Qed.

Lemma scan_stop_within B l t l' :
  within B (fun F => nextToken F l) (t, l') -> stops t = true ->
  within (S B) (fun F => scan F l) [t].
Proof.
  intros H St F HF. destruct F as [|F]; [lia|].
  rewrite scan_step, (H F) by lia. fold (stops t). rewrite St. reflexivity.
Qed.

Lemma scan_more_within B1 B2 l t l' ts :
  within B1 (fun F => nextToken F l) (t, l') -> stops t = false ->
  within B2 (fun F => scan F l') ts ->
  within (S (Nat.max B1 B2)) (fun F => scan F l) (t :: ts).
Proof.
  intros H St H2 F HF. destruct F as [|F]; [lia|].
  rewrite scan_step, (H F) by lia. fold (stops t). rewrite St.
  rewrite (H2 F) by lia. reflexivity.
Qed.

(** The end of a scan: white space, then the end of the input. *)
Lemma scan_tail_within ws inp p w :
  all_space ws = true -> skipn p inp = ws ->
  within (List.length ws + 3)
    (fun F => scan F (mkLexer inp p p w (Some StDefault) [] false))
    [tok tokenEOF []].
Proof.
  intros A E.
  assert (E' : skipn p inp = ws ++ []) by (rewrite app_nil_r; assumption).
  assert (End : skipn (p + List.length ws) inp = []).
  { apply (skipn_app_length _ _ _ _ E'). }
  eapply within_weaken; [|apply Nat.le_refl].
  replace (List.length ws + 3)%nat with (S (S (List.length ws + 1))) by lia.
  eapply scan_stop_within; [|reflexivity].
  eapply (nextToken_sent_within _ inp p p w StDefault).
  - cbn [run].
    apply (lexDefault_skip_within ws 1 _ inp p p w _ _ _ [] A E').
    apply within_S. intros k.
    rewrite (lexDefault_eof _ _ _ _ _ _ _ _ End). reflexivity.
  - cbn [tokens app]. f_equal. f_equal. f_equal.
    destruct ws; [simpl; rewrite Nat.add_0_r|]; apply slice_empty.
Qed.

(** ** White space, words and identifiers *)

Lemma stop_at_space valid ws :
  all_space ws = true ->
  IndexRune valid 32 = false -> IndexRune valid newline = false ->
  IndexRune valid tab = false -> IndexRune valid creturn = false ->
  IndexRune valid eof = false ->
  stop_at valid ws = true.
Proof.
  intros A V1 V2 V3 V4 V5. destruct ws as [|b ws]; simpl.
  - rewrite V5. reflexivity.
  - apply all_space_cons in A. destruct A as (Hs & _).
    destruct (isSpace_facts _ Hs) as (Hb & _).
    apply Z.ltb_lt in Hb. rewrite Hb. simpl.
    unfold isSpace in Hs.
    repeat (apply orb_prop in Hs; destruct Hs as [Hs|Hs]);
      apply Z.eqb_eq in Hs; rewrite Hs; [rewrite V1|rewrite V2|rewrite V3|rewrite V4];
      reflexivity.
Qed.

Lemma slice_middle (a b c : list byte) :
  slice (a ++ b ++ c) (List.length a) (List.length a + List.length b) = b.
Proof.
  unfold slice. rewrite skipn_app, skipn_all, Nat.sub_diag. simpl.
  replace (List.length a + List.length b - List.length a)%nat
    with (List.length b) by lia.
  rewrite firstn_app, Nat.sub_diag, firstn_all. simpl. apply app_nil_r.
Qed.

Lemma start_after_space (ws : list byte) :
  (match ws with [] => 0 | _ => 0 + List.length ws end)%nat = List.length ws.
Proof. destruct ws; reflexivity. Qed.



Lemma lexDefault_to_number f inp p s w st ts c b rest :
  skipn p inp = b :: rest -> b2z b < 128 -> number_start (b2z b) = true ->
  lexDefault (S f) (mkLexer inp p s w st ts c)
  = Some (Some StNumber, mkLexer inp p s 1 st ts c).
Proof.
  intros E Hb H. cbn [lexDefault].
  rewrite (next_ascii_at _ _ _ _ _ _ _ _ _ E Hb).
  destruct b; vm_compute in H; try discriminate H;
    cbv -[backup Nat.add]; rewrite backup_at; reflexivity.
Qed.

Lemma lexDefault_to_keyword f inp p s w st ts c b rest :
  skipn p inp = b :: rest -> isLowercaseLetter (b2z b) = true ->
  lexDefault (S f) (mkLexer inp p s w st ts c)
  = Some (Some StKeyword, mkLexer inp p s 1 st ts c).
Proof.
  intros E H. cbn [lexDefault].
  rewrite (next_ascii_at _ _ _ _ _ _ _ _ _ E)
    by (destruct b; vm_compute in H; try discriminate H; reflexivity).
  destruct b; vm_compute in H; try discriminate H;
    cbv -[backup Nat.add]; rewrite backup_at; reflexivity.
Qed.

Lemma lexDefault_to_identifier f inp p s w st ts c rest :
  skipn p inp = x24 :: rest ->
  lexDefault (S f) (mkLexer inp p s w st ts c)
  = Some (Some StIdentifier, mkLexer inp p s 1 st ts c).
Proof.
  intros E. cbn [lexDefault].
  rewrite (next_ascii_at _ _ _ _ _ _ _ _ _ E) by (vm_compute; reflexivity).
  cbv -[backup Nat.add]. rewrite backup_at. reflexivity.
Qed.

Lemma lexKeyword_within word rest inp p s w st ts c :
  run_of keyword word = true -> stop_at keyword rest = true ->
  skipn p inp = word ++ rest ->
  within (S (List.length word))
    (fun F => lexKeyword F (mkLexer inp p s w st ts c))
    (Some StDefault,
     mkLexer inp (p + List.length word) (p + List.length word)
       (end_width rest) st
       (ts ++ [tok (word_kind (slice inp s (p + List.length word)))
                   (slice inp s (p + List.length word))]) c).
Proof.
  intros R V E F HF. unfold lexKeyword, acceptRun.
  rewrite (acceptRun_loop_within keyword word rest 0 inp p s w st ts c R V E F HF).
  unfold lexeme, word_kind. cbn [input start pos].
  destruct (assoc key (slice inp s (p + List.length word))); reflexivity.
Qed.

Lemma lexIdentifier_within name rest inp p s w st ts c :
  run_of idChar name = true -> name <> [] -> stop_at idChar rest = true ->
  skipn p inp = x24 :: name ++ rest ->
  within (S (S (List.length name)))
    (fun F => lexIdentifier F (mkLexer inp p s w st ts c))
    (Some StDefault,
     mkLexer inp (p + S (List.length name)) (p + S (List.length name))
       (end_width rest) st
       (ts ++ [tok tokenIdent (slice inp s (p + S (List.length name)))]) c).
Proof.
  intros R Hne V E F HF. unfold lexIdentifier, acceptRun.
  assert (R' : run_of idChar (x24 :: name) = true).
  { unfold run_of in *. simpl. rewrite R. reflexivity. }
  rewrite (acceptRun_loop_within idChar (x24 :: name) rest 0 inp p s w st ts c
             R' V E F HF).
  simpl List.length.
  destruct name as [|b name]; [congruence|]. reflexivity.
Qed.

(** In front of the empty name, [lexIdentifier] reports an error. *)
Lemma lexIdentifier_empty_within rest inp p s w st ts c :
  stop_at idChar rest = true -> skipn p inp = x24 :: rest ->
  within 2 (fun F => lexIdentifier F (mkLexer inp p s w st ts c))
    (errorf empty_identifier
       (mkLexer inp (p + 1) s (end_width rest) st ts c)).
Proof.
  intros V E F HF. unfold lexIdentifier, acceptRun.
  rewrite (acceptRun_loop_within idChar [x24] rest 0 inp p s w st ts c
             eq_refl V E F HF).
  reflexivity.
Qed.

Lemma skipn_after (a b : list byte) : skipn (0 + List.length a) (a ++ b) = b.
Proof. apply skipn_app_length. reflexivity. Qed.

(** A dollar sign with no name after it, before white space or the end of
    the input, is a lexical error. *)
Theorem empty_identifier_is_an_error ws fuel :
  all_space ws = true ->
  scan_input (5 + fuel) (x24 :: ws)
  = Some [mkToken tokenError (Text empty_identifier)].
Proof.
  intros A.
  assert (V : stop_at idChar ws = true)
    by (apply stop_at_space; auto; reflexivity).
  assert (E : skipn 0 (x24 :: ws) = x24 :: ws) by reflexivity.
  assert (W : within 5 (fun F => scan F (NewLexer (x24 :: ws)))
                [mkToken tokenError (Text empty_identifier)]);
    [|apply W; lia].
  eapply within_weaken.
  - eapply scan_stop_within; [|reflexivity].
    eapply (nextToken_handed_within 1 2 _ 0 0 0 StIdentifier 0 0 1).
    + apply within_S. intros k.
      apply (lexDefault_to_identifier _ _ _ _ _ _ _ _ _ E).
    + cbn [run]. apply (lexIdentifier_empty_within ws _ _ _ _ _ _ _ V E).
    + reflexivity.
  - simpl. lia.
Qed.

Lemma empty_identifier_is_an_error_witness :
  all_space [x20] = true /\
  scan_input 5 (x24 :: [x20])
  = Some [mkToken tokenError (Text empty_identifier)].
Proof.
  split; [reflexivity|].
  exact (empty_identifier_is_an_error [x20] 0 eq_refl).
Defined.

Lemma assoc_In tbl : forall w k,
  assoc tbl w = Some k -> In k (map snd tbl).
Proof.
  induction tbl as [|[s v] tbl IH]; simpl; intros w k H; [discriminate|].
  destruct (beqb (bytes s) w); [injection H as <-; auto|eauto].
Qed.

Lemma table_kinds w k : assoc key w = Some k -> structural k = false.
Proof.
  intros H. apply assoc_In in H.
  assert (F : forallb (fun k => negb (structural k)) (map snd key) = true)
    by (vm_compute; reflexivity).
  rewrite forallb_forall in F. apply F in H. apply negb_true_iff in H.
  assumption.
Qed.

(** The table maps no word to a kind that the scanner sends by itself: not
    to the end-of-input or error kinds on which [Parse] stops, not to the
    kinds of parentheses, numbers, identifiers and strings, and not to the
    kind of unknown words. *)
Theorem table_kinds_are_not_structural w k :
  assoc key w = Some k ->
  structural k = false /\ stops (tok k w) = false /\ word_kind w = k.
Proof.
  intros H. pose proof (table_kinds w k H) as S.
  split; [exact S|]. split.
  - unfold stops, tok. cbn [kind].
    destruct k; try reflexivity; discriminate S.
  - unfold word_kind. rewrite H. reflexivity.
Qed.

Lemma table_kinds_are_not_structural_witness :
  assoc key (bytes "func") = Some tokenFunc /\ structural tokenFunc = false.
Proof.
  split; [vm_compute; reflexivity|].
  apply (table_kinds_are_not_structural (bytes "func")).
  vm_compute. reflexivity.
Defined.

Lemma word_kind_goes_on w : stops (tok (word_kind w) w) = false.
Proof.
  unfold stops, word_kind, tok. cbn [kind].
  destruct (assoc key w) as [k|] eqn:E; [|reflexivity].
  apply table_kinds in E.
  destruct k; try reflexivity; discriminate E.
Qed.

Lemma beqb_refl a : beqb a a = true.
Proof. unfold beqb. apply String.eqb_refl. Qed.

Lemma beqb_sym a b : beqb a b = beqb b a.
Proof. unfold beqb. apply String.eqb_sym. Qed.

Lemma assoc_first tbl : forall s k,
  keys_distinct tbl = true -> In (s, k) tbl -> assoc tbl (bytes s) = Some k.
Proof.
  induction tbl as [|[s0 v] tbl IH]; simpl; intros s k D H; [contradiction|].
  apply andb_prop in D. destruct D as [D1 D2].
  destruct H as [H|H].
  - injection H as -> ->. rewrite beqb_refl. reflexivity.
  - destruct (beqb (bytes s0) (bytes s)) eqn:B; [|auto].
    apply negb_true_iff in D1.
    assert (existsb (fun e => beqb (bytes (fst e)) (bytes s0)) tbl = true);
      [|congruence].
    apply existsb_exists. exists (s, k). split; [assumption|].
    simpl. rewrite beqb_sym. assumption.
Qed.

(** ** Errors of [lexDefault] and [lexComment] *)

Lemma next_rune_at inp p s w st ts c rest :
  skipn p inp = rest -> rest <> [] ->
  next (mkLexer inp p s w st ts c)
  = (fst (DecodeRune rest),
     mkLexer inp (p + snd (DecodeRune rest)) s (snd (DecodeRune rest))
       st ts c).
Proof.
  intros E Hne. unfold next. cbn [input pos].
  destruct (List.length inp <=? p)%nat eqn:L.
  - apply Nat.leb_le in L. rewrite (skipn_all2 _ L) in E.
    symmetry in E. contradiction.
  - rewrite E. destruct (DecodeRune rest) as [r n]. reflexivity.
Qed.

Lemma lexDefault_unknown f inp p s w st ts c rest :
  skipn p inp = rest -> rest <> [] ->
  unknown (fst (DecodeRune rest)) = true ->
  lexDefault (S f) (mkLexer inp p s w st ts c)
  = Some (None,
          mkLexer inp (p + snd (DecodeRune rest)) s (snd (DecodeRune rest)) st
            (ts ++ [mkToken tokenError
                      (Text (unknown_token (fst (DecodeRune rest))))]) c).
Proof.
  intros E Hne U. cbn [lexDefault]. rewrite (next_rune_at _ _ _ _ _ _ _ _ E Hne).
  unfold unknown, number_start in U.
  repeat (apply andb_prop in U; destruct U as [U ?]).
  repeat match goal with
         | H : negb _ = true |- _ => apply negb_true_iff in H; rewrite H
         end.
  reflexivity.
Qed.

(** A rune for which [lexDefault] has no case, an upper-case letter or any
    rune outside ASCII for instance, is a lexical error that names the rune,
    and the scan stops there whatever follows. *)
Theorem unknown_rune_is_an_error ws rest fuel :
  all_space ws = true -> rest <> [] ->
  unknown (fst (DecodeRune rest)) = true ->
  scan_input (List.length ws + 3 + fuel) (ws ++ rest)
  = Some [mkToken tokenError (Text (unknown_token (fst (DecodeRune rest))))].
Proof.
  intros A Hne U.
  assert (W : within (S (S (List.length ws + 1)))
                (fun F => scan F (NewLexer (ws ++ rest)))
                [mkToken tokenError
                   (Text (unknown_token (fst (DecodeRune rest))))]);
    [|apply W; lia].
  eapply scan_stop_within; [|reflexivity].
  eapply (nextToken_sent_within _ (ws ++ rest) 0 0 0 StDefault).
  - cbn [run].
    apply (lexDefault_skip_within ws 1 _ (ws ++ rest) 0 0 0 _ _ _ rest A
             eq_refl).
    apply within_S. intros k.
    apply lexDefault_unknown; [apply skipn_after|assumption|assumption].
  - reflexivity.
Qed.

Lemma unknown_rune_is_an_error_witness :
  unknown (fst (DecodeRune [xc3; xa9; x29])) = true /\
  scan_input 4 ([x20] ++ [xc3; xa9; x29])
  = Some [mkToken tokenError (Text (unknown_token 233))].
Proof.
  split; [reflexivity|].
  exact (unknown_rune_is_an_error [x20] [xc3; xa9; x29] 0 eq_refl
           ltac:(discriminate) eq_refl).
Defined.

Lemma next_at inp p s w st ts c rest :
  skipn p inp = rest ->
  next (mkLexer inp p s w st ts c)
  = (first_rune rest,
     mkLexer inp (p + first_width rest) s (first_width rest) st ts c).
Proof.
  intros E. destruct rest as [|b rest].
  - rewrite (next_eof_at _ _ _ _ _ _ _ E). unfold first_width. simpl.
    rewrite Nat.add_0_r. reflexivity.
  - apply next_rune_at; [assumption|discriminate].
Qed.

Lemma backup_by inp p n s st ts c :
  backup (mkLexer inp (p + n) s n st ts c) = mkLexer inp p s n st ts c.
Proof. unfold backup, set_pos. simpl. f_equal. lia. Qed.

Lemma lexDefault_to_comment f inp p s w st ts c rest :
  skipn p inp = x3b :: rest ->
  lexDefault (S f) (mkLexer inp p s w st ts c)
  = Some (Some StComment, mkLexer inp (p + 1) s 1 st ts c).
Proof.
  intros E. cbn [lexDefault].
  rewrite (next_ascii_at _ _ _ _ _ _ _ _ _ E) by (vm_compute; reflexivity).
  reflexivity.
Qed.

(** A semicolon that no second semicolon follows is a lexical error that
    names the rune found in its place, the end of the input included. *)
Theorem lone_semicolon_is_an_error ws rest fuel :
  all_space ws = true -> first_rune rest <> chr ";" ->
  scan_input (List.length ws + 4 + fuel) (ws ++ x3b :: rest)
  = Some [mkToken tokenError (Text (expected_semicolon (first_rune rest)))].
Proof.
  intros A Hne.
  set (inp := ws ++ x3b :: rest).
  assert (E : skipn (0 + List.length ws) inp = x3b :: rest)
    by apply skipn_after.
  pose proof (skipn_cons_succ _ _ _ _ E) as E1.
  assert (W : within (S (S (Nat.max (List.length ws + 1) (S 0))))
                (fun F => scan F (NewLexer inp))
                [mkToken tokenError
                   (Text (expected_semicolon (first_rune rest)))]);
    [|apply W; lia].
  eapply scan_stop_within; [|reflexivity].
  eapply (nextToken_handed_within _ 0 inp 0 0 0 StComment).
  - apply (lexDefault_skip_within ws 1 _ inp 0 0 0 _ _ _ (x3b :: rest) A
             eq_refl).
    apply within_S. intros k.
    apply (lexDefault_to_comment _ _ _ _ _ _ _ _ _ E).
  - intros F _. cbn [run]. unfold lexComment, accept.
    rewrite (next_at _ _ _ _ _ _ _ _ E1).
    assert (I : IndexRune ";" (first_rune rest) = false).
    { unfold IndexRune. change (bytes ";") with [x3b]. cbn [existsb].
      rewrite orb_false_r. apply Z.eqb_neq. intros H. apply Hne.
      symmetry. exact H. }
    rewrite I, backup_by. cbn [negb].
    rewrite (next_at _ _ _ _ _ _ _ _ E1). reflexivity.
  - reflexivity.
Qed.

Lemma lone_semicolon_is_an_error_witness :
  first_rune [x61] <> chr ";" /\
  scan_input 5 ([x0a] ++ x3b :: [x61])
  = Some [mkToken tokenError (Text (expected_semicolon 97))].
Proof.
  split; [discriminate|].
  exact (lone_semicolon_is_an_error [x0a] [x61] 0 eq_refl
           ltac:(discriminate)).
Defined.

(** ** The scanner does not look behind [start] *)

Lemma skipn_lift (pre inp : list byte) p :
  skipn (List.length pre + p) (pre ++ inp) = skipn p inp.
Proof.
  rewrite Nat.add_comm, <- skipn_skipn, skipn_app, skipn_all, Nat.sub_diag.
  reflexivity.
Qed.

Lemma slice_lift (pre inp : list byte) a b :
  slice (pre ++ inp) (List.length pre + a) (List.length pre + b)
  = slice inp a b.
Proof. unfold slice. rewrite skipn_lift. f_equal. lia. Qed.

Lemma next_lift pre l :
  next (lift pre l) = (fst (next l), lift pre (snd (next l))).
Proof.
  unfold next, lift. cbn [input pos]. rewrite length_app, skipn_lift.
  replace (List.length pre + List.length (input l)
           <=? List.length pre + pos l)%nat
    with (List.length (input l) <=? pos l)%nat.
  - destruct (List.length (input l) <=? pos l)%nat; [reflexivity|].
    destruct (DecodeRune (skipn (pos l) (input l))) as [r n].
    unfold set_pos, set_width. cbn [fst snd input pos start width state tokens closed].
    f_equal. f_equal. lia.
  - destruct (Nat.leb_spec (List.length (input l)) (pos l)); symmetry;
      [apply Nat.leb_le|apply Nat.leb_gt]; lia.
Qed.

Lemma next_room l : (width (snd (next l)) <= pos (snd (next l)))%nat.
Proof.
  destruct (next l) as [r l1] eqn:N. apply next_spec in N. simpl. lia.
Qed.

Lemma backup_lift pre l :
  (width l <= pos l)%nat -> backup (lift pre l) = lift pre (backup l).
Proof. intros H. unfold backup, lift, set_pos. simpl. f_equal. lia. Qed.

Lemma emit_lift k pre l : emit k (lift pre l) = lift pre (emit k l).
Proof.
  unfold emit, send, lexeme, lift, set_start, set_tokens. simpl.
  rewrite slice_lift. reflexivity.
Qed.

Lemma lexeme_lift pre l : lexeme (lift pre l) = lexeme l.
Proof. unfold lexeme, lift. simpl. apply slice_lift. Qed.

Lemma accept_lift valid pre l :
  accept valid (lift pre l)
  = (fst (accept valid l), lift pre (snd (accept valid l))).
Proof.
  unfold accept. rewrite next_lift. pose proof (next_room l) as R.
  destruct (next l) as [r l1]. cbn [fst snd] in *.
  destruct (IndexRune valid r); cbn [fst snd]; [reflexivity|].
  rewrite backup_lift by assumption. reflexivity.
Qed.

Lemma peek_lift pre l :
  peek (lift pre l) = (fst (peek l), lift pre (snd (peek l))).
Proof.
  unfold peek. rewrite next_lift. pose proof (next_room l) as R.
  destruct (next l) as [r l1]. cbn [fst snd] in *.
  rewrite backup_lift by assumption. reflexivity.
Qed.

Lemma acceptRun_loop_lift valid pre f : forall cnt l,
  acceptRun_loop f valid cnt (lift pre l)
  = option_map (fun x => (fst x, lift pre (snd x)))
      (acceptRun_loop f valid cnt l).
Proof.
  induction f as [|f IH]; intros cnt l; [reflexivity|].
  cbn [acceptRun_loop]. rewrite next_lift. pose proof (next_room l) as R.
  destruct (next l) as [r l1]. cbn [fst snd] in *.
  destruct (IndexRune valid r); [apply IH|].
  rewrite backup_lift by assumption. reflexivity.
Qed.

Lemma lexDefault_lift pre f : forall l,
  lexDefault f (lift pre l) = option_map (lift_step pre) (lexDefault f l).
Proof.
  induction f as [|f IH]; intros l; [reflexivity|].
  cbn [lexDefault]. rewrite next_lift. pose proof (next_room l) as R.
  destruct (next l) as [r l1]. cbn [fst snd] in *.
  destruct (r =? eof).
  { unfold lift_step. cbn [option_map fst snd]. rewrite emit_lift. reflexivity. }
  destruct (isSpace r); [apply (IH (ignore l1))|].
  destruct (r =? chr ";"); [reflexivity|].
  destruct ((r =? chr "+") || (r =? chr "-")
            || ((chr "0" <=? r) && (r <=? chr "9"))).
  { rewrite backup_lift by assumption. reflexivity. }
  destruct (r =? chr "$").
  { rewrite backup_lift by assumption. reflexivity. }
  destruct (r =? quote); [reflexivity|].
  destruct (r =? chr "(").
  { rewrite peek_lift. destruct (peek l1) as [r2 l2]. cbn [fst snd].
    destruct (r2 =? chr ";"); [reflexivity|].
    unfold lift_step. cbn [option_map fst snd]. rewrite emit_lift.
    reflexivity. }
  destruct (r =? chr ")").
  { unfold lift_step. cbn [option_map fst snd]. rewrite emit_lift.
    reflexivity. }
  destruct (isLowercaseLetter r).
  { rewrite backup_lift by assumption. reflexivity. }
  reflexivity.
Qed.

Lemma lexBlockComment_loop_lift pre f : forall level l,
  lexBlockComment_loop f level (lift pre l)
  = option_map (lift pre) (lexBlockComment_loop f level l).
Proof.
  induction f as [|f IH]; intros level l; cbn [lexBlockComment_loop];
    destruct (level <=? 0); try reflexivity.
  rewrite next_lift. destruct (next l) as [r l1]. cbn [fst snd].
  destruct (r =? chr "(").
  - rewrite peek_lift. destruct (peek l1) as [r2 l2]. cbn [fst snd]. apply IH.
  - destruct (r =? chr ";"); [|apply IH].
    rewrite peek_lift. destruct (peek l1) as [r2 l2]. cbn [fst snd]. apply IH.
Qed.

Lemma lexBlockComment_lift pre f l :
  lexBlockComment f (lift pre l)
  = option_map (lift_step pre) (lexBlockComment f l).
Proof.
  unfold lexBlockComment. rewrite accept_lift.
  destruct (accept ";" l) as [b l1]. cbn [fst snd].
  rewrite lexBlockComment_loop_lift.
  destruct (lexBlockComment_loop f 1 l1); reflexivity.
Qed.

Lemma acceptRun_lift valid pre f l :
  acceptRun f valid (lift pre l)
  = option_map (fun x => (fst x, lift pre (snd x))) (acceptRun f valid l).
Proof. apply acceptRun_loop_lift. Qed.

Lemma lexNumber_lift pre f l :
  lexNumber f (lift pre l) = option_map (lift_step pre) (lexNumber f l).
Proof.
  unfold lexNumber. rewrite accept_lift.
  destruct (accept sign l) as [b1 l1]. cbn [fst snd].
  rewrite accept_lift. destruct (accept "0" l1) as [zero l2]. cbn [fst snd].
  assert (H3 : (if zero then accept "xX" (lift pre l2) else (false, lift pre l2))
               = (fst (if zero then accept "xX" l2 else (false, l2)),
                  lift pre (snd (if zero then accept "xX" l2 else (false, l2)))))
    by (destruct zero; [apply accept_lift|reflexivity]).
  rewrite H3. clear H3.
  destruct (if zero then accept "xX" l2 else (false, l2)) as [hex l3].
  cbn [fst snd]. rewrite acceptRun_lift.
  destruct (acceptRun f ((if hex then hexDigit else digit) ++ "_") l3)
    as [[n4 l4]|]; [|reflexivity].
  cbn [option_map fst snd]. rewrite accept_lift.
  destruct (accept "." l4) as [dot l5]. cbn [fst snd].
  assert (H6 : (if dot
                then acceptRun f ((if hex then hexDigit else digit) ++ "_")
                       (lift pre l5)
                else Some (0%nat, lift pre l5))
               = option_map (fun x => (fst x, lift pre (snd x)))
                   (if dot
                    then acceptRun f ((if hex then hexDigit else digit) ++ "_")
                           l5
                    else Some (0%nat, l5)))
    by (destruct dot; [apply acceptRun_lift|reflexivity]).
  rewrite H6. clear H6.
  destruct (if dot
            then acceptRun f ((if hex then hexDigit else digit) ++ "_") l5
            else Some (0%nat, l5)) as [[n6 l6]|]; [|reflexivity].
  cbn [option_map fst snd]. rewrite accept_lift.
  destruct (accept "eEpP" l6) as [ex l7]. cbn [fst snd].
  destruct ex.
  - rewrite accept_lift. destruct (accept sign l7) as [b8 l8]. cbn [fst snd].
    rewrite acceptRun_lift.
    destruct (acceptRun f (digit ++ "_") l8) as [[n9 l9]|]; [|reflexivity].
    unfold lift_step. cbn [option_map fst snd]. rewrite emit_lift. reflexivity.
  - unfold lift_step. cbn [option_map fst snd]. rewrite emit_lift. reflexivity.
Qed.

Lemma lexKeyword_lift pre f l :
  lexKeyword f (lift pre l) = option_map (lift_step pre) (lexKeyword f l).
Proof.
  unfold lexKeyword. rewrite acceptRun_lift.
  destruct (acceptRun f keyword l) as [[n l1]|]; [|reflexivity].
  cbn [option_map fst snd]. rewrite lexeme_lift.
  destruct (assoc key (lexeme l1)); unfold lift_step; cbn [option_map fst snd];
    rewrite emit_lift; reflexivity.
Qed.

Lemma lexComment_loop_lift pre f : forall l,
  lexComment_loop f (lift pre l) = option_map (lift pre) (lexComment_loop f l).
Proof.
  induction f as [|f IH]; intros l; [reflexivity|].
  cbn [lexComment_loop]. rewrite next_lift.
  destruct (next l) as [r l1]. cbn [fst snd].
  destruct ((r =? eof) || (r =? newline)); [reflexivity|apply IH].
Qed.

Lemma lexComment_lift pre f l :
  lexComment f (lift pre l) = option_map (lift_step pre) (lexComment f l).
Proof.
  unfold lexComment. rewrite accept_lift.
  destruct (accept ";" l) as [ok l1]. cbn [fst snd].
  destruct ok; cbn [negb].
  - rewrite lexComment_loop_lift. destruct (lexComment_loop f l1); reflexivity.
  - rewrite next_lift. destruct (next l1) as [r l2]. reflexivity.
Qed.

Lemma lexIdentifier_lift pre f l :
  lexIdentifier f (lift pre l)
  = option_map (lift_step pre) (lexIdentifier f l).
Proof.
  unfold lexIdentifier. rewrite acceptRun_lift.
  destruct (acceptRun f idChar l) as [[n l1]|]; [|reflexivity].
  cbn [option_map fst snd].
  destruct (n <? 2)%nat; [reflexivity|].
  unfold lift_step. cbn [option_map fst snd]. rewrite emit_lift. reflexivity.
Qed.

Lemma unicode_digits_lift pre n : forall s l,
  unicode_digits n s (lift pre l)
  = match unicode_digits n s l with
    | inl (e, l') => inl (e, lift pre l')
    | inr (s', l') => inr (s', lift pre l')
    end.
Proof.
  induction n as [|n IH]; intros s l; [reflexivity|].
  cbn [unicode_digits]. rewrite next_lift. pose proof (next_room l) as R.
  destruct (next l) as [d l1]. cbn [fst snd] in *.
  destruct (d =? chr "}").
  { rewrite backup_lift by assumption. reflexivity. }
  destruct (d =? eof); [reflexivity|].
  destruct (negb (isHexDigit d)); [reflexivity|apply IH].
Qed.

Lemma escapeSeq_lift pre l :
  escapeSeq (lift pre l)
  = (fst (escapeSeq l), lift pre (snd (escapeSeq l))).
Proof.
  unfold escapeSeq. rewrite next_lift.
  destruct (next l) as [r l1]. cbn [fst snd].
  destruct (r =? chr "t"); [reflexivity|].
  destruct (r =? chr "r"); [reflexivity|].
  destruct (r =? quote); [reflexivity|].
  destruct (r =? chr "'"); [reflexivity|].
  destruct (r =? backslash); [reflexivity|].
  destruct (isHexDigit r).
  { rewrite next_lift. destruct (next l1) as [r2 l2]. cbn [fst snd].
    destruct (negb (r2 =? eof) && isHexDigit r2); reflexivity. }
  destruct (r =? chr "u"); [|reflexivity].
  rewrite accept_lift. destruct (accept "{" l1) as [ok l2]. cbn [fst snd].
  destruct ok; [|reflexivity]. cbn [negb].
  rewrite unicode_digits_lift.
  destruct (unicode_digits 7 [] l2) as [[e l3]|[s l3]]; [reflexivity|].
  rewrite accept_lift. destruct (accept "}" l3) as [ok' l4]. cbn [fst snd].
  destruct ok'; reflexivity.
Qed.

Lemma lexString_loop_lift pre f : forall s l,
  lexString_loop f s (lift pre l)
  = option_map (lift_step pre) (lexString_loop f s l).
Proof.
  induction f as [|f IH]; intros s l; [reflexivity|].
  cbn [lexString_loop]. rewrite next_lift.
  destruct (next l) as [r l1]. cbn [fst snd].
  destruct (r =? backslash).
  { rewrite escapeSeq_lift. destruct (escapeSeq l1) as [[s1 err] l2].
    cbn [fst snd]. destruct err; [|apply IH].
    rewrite lexeme_lift. reflexivity. }
  destruct (r =? quote); [reflexivity|].
  destruct ((r =? eof) || (r =? newline) || (r =? creturn)); [|apply IH].
  rewrite lexeme_lift. reflexivity.
Qed.

Lemma run_lift pre f st l :
  run f st (lift pre l) = option_map (lift_step pre) (run f st l).
Proof.
  destruct st; cbn [run].
  - apply lexDefault_lift.
  - apply lexBlockComment_lift.
  - apply lexNumber_lift.
  - apply lexKeyword_lift.
  - apply lexComment_lift.
  - apply lexIdentifier_lift.
  - apply lexString_loop_lift.
Qed.

Lemma nextToken_lift pre f : forall l,
  nextToken f (lift pre l)
  = option_map (fun x => (fst x, lift pre (snd x))) (nextToken f l).
Proof.
  induction f as [|f IH]; intros l.
  - simpl. destruct (tokens l); [|reflexivity].
    destruct (closed l); [reflexivity|]. destruct (state l); reflexivity.
  - simpl. destruct (tokens l); [|reflexivity].
    destruct (closed l); [reflexivity|].
    destruct (state l) as [st|] eqn:St; [|reflexivity].
    rewrite (run_lift pre f st l). destruct (run f st l) as [[st' l']|]; [|reflexivity].
    cbn [option_map lift_step fst snd]. apply (IH (set_state l' st')).
Qed.

Lemma scan_lift pre f : forall l, scan f (lift pre l) = scan f l.
Proof.
  induction f as [|f IH]; intros l; [reflexivity|].
  cbn [scan]. rewrite nextToken_lift.
  destruct (nextToken f l) as [[t l']|]; [|reflexivity].
  cbn [option_map fst snd].
  destruct (isEOF (kind t) || isError (kind t)); [reflexivity|].
  rewrite IH. reflexivity.
Qed.

Lemma Parse_loop_lift pre f : forall l,
  Parse_loop f (lift pre l)
  = option_map (fun x => (fst x, lift pre (snd x))) (Parse_loop f l).
Proof.
  induction f as [|f IH]; intros l; [reflexivity|].
  cbn [Parse_loop]. rewrite nextToken_lift.
  destruct (nextToken f l) as [[t l']|]; [|reflexivity].
  cbn [option_map fst snd].
  destruct (isEOF (kind t)); [reflexivity|].
  destruct (isError (kind t)); [reflexivity|].
  apply IH.
Qed.

(** The scanner never looks behind [start]: with any bytes put in front of
    the input, and [pos] and [start] moved by as much, every state function
    does the same, so the tokens of the scan and the error that [Parse]
    reports are the same. *)
Theorem scan_does_not_look_behind_start pre l fuel :
  scan fuel (lift pre l) = scan fuel l /\
  (forall st, run fuel st (lift pre l)
              = option_map (lift_step pre) (run fuel st l)) /\
  option_map fst (Parse_loop fuel (lift pre l))
  = option_map fst (Parse_loop fuel l).
Proof.
  split; [apply scan_lift|]. split; [intros st; apply run_lift|].
  rewrite Parse_loop_lift. destruct (Parse_loop fuel l); reflexivity.
Qed.

(** ** Scanning piece by piece *)

Lemma lexDefault_any_width f inp p s w w' st ts c :
  lexDefault f (mkLexer inp p s w st ts c)
  = lexDefault f (mkLexer inp p s w' st ts c).
Proof. destruct f; reflexivity. Qed.

Lemma nextToken_any_width f inp p s w w' :
  nextToken f (mkLexer inp p s w (Some StDefault) [] false)
  = nextToken f (mkLexer inp p s w' (Some StDefault) [] false).
Proof.
  destruct f; [reflexivity|].
  rewrite !(nextToken_run _ _ StDefault) by reflexivity. cbn [run].
  rewrite (lexDefault_any_width f inp p s w w'). reflexivity.
Qed.

Lemma scan_any_width f inp p s w w' :
  scan f (mkLexer inp p s w (Some StDefault) [] false)
  = scan f (mkLexer inp p s w' (Some StDefault) [] false).
Proof.
  destruct f; [reflexivity|].
  rewrite !scan_step, (nextToken_any_width f inp p s w w'). reflexivity.
Qed.

(** The scan of [rest] is also the scan from the end of [pre] in
    [pre ++ rest]. *)
Lemma scan_rest_within pre rest w F ts :
  scan_input F rest = Some ts ->
  within F
    (fun F' => scan F'
       (mkLexer (pre ++ rest) (List.length pre) (List.length pre) w
          (Some StDefault) [] false)) ts.
Proof.
  intros H F' HF.
  pose proof (scan_lift pre F' (mkLexer rest 0 0 w (Some StDefault) [] false))
    as L.
  unfold lift in L. cbn [input pos start width state tokens closed] in L.
  rewrite Nat.add_0_r in L. rewrite L, (scan_any_width F' rest 0 0 w 0).
  exact (scan_mono F F' _ _ HF H).
Qed.

(** A token, then the scan of what follows it. *)
Lemma scan_token_then_within B pre rest w t F ts :
  within B (fun F' => nextToken F' (NewLexer (pre ++ rest)))
    (t, mkLexer (pre ++ rest) (List.length pre) (List.length pre) w
          (Some StDefault) [] false) ->
  stops t = false ->
  scan_input F rest = Some ts ->
  within (S (Nat.max B F)) (fun F' => scan F' (NewLexer (pre ++ rest)))
    (t :: ts).
Proof.
  intros H St Hs.
  exact (scan_more_within B F _ t _ ts H St (scan_rest_within pre rest w F ts Hs)).
Qed.

(** What the scanner reads without a token is as if it were not there. *)
Lemma scan_silent_within B pre rest w F ts :
  (forall B' r,
     within B'
       (fun F' => nextToken F'
          (mkLexer (pre ++ rest) (List.length pre) (List.length pre) w
             (Some StDefault) [] false)) r ->
     within (B + B') (fun F' => nextToken F' (NewLexer (pre ++ rest))) r) ->
  scan_input F rest = Some ts ->
  within (B + F) (fun F' => scan F' (NewLexer (pre ++ rest))) ts.
Proof.
  intros H Hs. destruct F as [|f]; [discriminate|].
  unfold scan_input in Hs. rewrite scan_step in Hs.
  destruct (nextToken f (NewLexer rest)) as [[t l']|] eqn:N; [|discriminate].
  assert (N' : within f
                 (fun F' => nextToken F'
                    (mkLexer (pre ++ rest) (List.length pre) (List.length pre)
                       w (Some StDefault) [] false)) (t, lift pre l')).
  { intros F' HF.
    pose proof (nextToken_lift pre F'
                  (mkLexer rest 0 0 w (Some StDefault) [] false)) as L.
    unfold lift in L at 1.
    cbn [input pos start width state tokens closed] in L.
    rewrite Nat.add_0_r in L.
    rewrite L, (nextToken_any_width F' rest 0 0 w 0).
    unfold NewLexer in N. rewrite (nextToken_mono f F' _ _ HF N).
    reflexivity. }
  apply H in N'.
  intros F' HF. destruct F' as [|F']; [lia|].
  rewrite scan_step, (N' F') by lia.
  destruct (isEOF (kind t) || isError (kind t)); [exact Hs|].
  rewrite scan_lift. destruct (scan f l') as [ts'|] eqn:S'; [|discriminate].
  assert (Hle : (f <= F')%nat) by lia.
  rewrite (scan_mono f F' _ _ Hle S'). exact Hs.
Qed.

Lemma nextToken_skip_within ws inp p s w rest B r :
  all_space ws = true -> ws <> [] -> skipn p inp = ws ++ rest ->
  within B
    (fun F => nextToken F
       (mkLexer inp (p + List.length ws) (p + List.length ws) 1
          (Some StDefault) [] false)) r ->
  within (List.length ws + B)
    (fun F => nextToken F (mkLexer inp p s w (Some StDefault) [] false)) r.
Proof.
  intros A Hne E H.
  destruct B as [|b]; [specialize (H 0%nat (le_n 0)); discriminate H|].
  pose proof (H (S b) (le_n _)) as H1. cbv beta in H1.
  rewrite (nextToken_run _ _ StDefault) in H1 by reflexivity.
  cbn [run] in H1.
  destruct (lexDefault b
              (mkLexer inp (p + List.length ws) (p + List.length ws) 1
                 (Some StDefault) [] false)) as [[st' l']|] eqn:D;
    [|discriminate].
  assert (W : within b
                (fun F => lexDefault F
                   (mkLexer inp (p + List.length ws) (p + List.length ws) 1
                      (Some StDefault) [] false)) (st', l')).
  { intros F' HF'. exact (lexDefault_mono b F' _ _ HF' D). }
  pose proof (lexDefault_skip_within ws b (st', l') inp p s w
                (Some StDefault) [] false rest A E) as K.
  destruct ws as [|b0 ws']; [contradiction|].
  specialize (K W).
  intros F HF. destruct F as [|f]; [simpl in HF; lia|].
  rewrite (nextToken_run _ _ StDefault) by reflexivity. cbn [run].
  rewrite (K f) by (simpl in *; lia).
  assert (Hle : (b <= f)%nat) by (simpl in HF; lia).
  exact (nextToken_mono b f _ _ Hle H1).
Qed.

(** A state function that hands over without sending a token. *)
Lemma nextToken_silent_within B1 B2 inp p s w st0 st1 p1 s1 w1 r :
  within B1 (fun F => run F st0 (mkLexer inp p s w (Some st0) [] false))
    (Some st1, mkLexer inp p1 s1 w1 (Some st0) [] false) ->
  within B2
    (fun F => nextToken F (mkLexer inp p1 s1 w1 (Some st1) [] false)) r ->
  within (S (Nat.max B1 B2))
    (fun F => nextToken F (mkLexer inp p s w (Some st0) [] false)) r.
Proof.
  intros H1 H2 F HF. destruct F as [|F]; [lia|].
  rewrite (nextToken_run _ _ st0) by reflexivity.
  rewrite (H1 F) by lia. rewrite set_state_at. apply H2. lia.
Qed.

(** White space in front of an input changes nothing to its scan. *)
Theorem leading_white_space_is_dropped ws rest fuel ts :
  all_space ws = true -> scan_input fuel rest = Some ts ->
  scan_input (List.length ws + fuel) (ws ++ rest) = Some ts.
Proof.
  intros A Hs. destruct ws as [|b ws]; [exact Hs|].
  apply (scan_silent_within (List.length (b :: ws)) (b :: ws) rest 1 fuel ts);
    [|assumption|apply Nat.le_refl].
  intros B' r H.
  apply (nextToken_skip_within (b :: ws) _ 0 0 0 rest B' r A);
    [discriminate|reflexivity|exact H].
Qed.

Lemma leading_white_space_is_dropped_witness :
  scan_input 9 func_f
  = Some [tok tokenLParen (bytes "("); tok tokenFunc (bytes "func");
          tok tokenIdent (bytes "$f"); tok tokenRParen (bytes ")");
          tok tokenEOF []] /\
  scan_input 11 ([x0a; x20] ++ func_f)
  = Some [tok tokenLParen (bytes "("); tok tokenFunc (bytes "func");
          tok tokenIdent (bytes "$f"); tok tokenRParen (bytes ")");
          tok tokenEOF []].
Proof.
  assert (H : scan_input 9 func_f
              = Some [tok tokenLParen (bytes "("); tok tokenFunc (bytes "func");
                      tok tokenIdent (bytes "$f"); tok tokenRParen (bytes ")");
                      tok tokenEOF []]) by (vm_compute; reflexivity).
  split; [exact H|].
  exact (leading_white_space_is_dropped [x0a; x20] func_f 9 _ eq_refl H).
Defined.

(** ** Runes in a run of arbitrary bytes *)

Lemma first_lo x sz lo hi : first x = Some (sz, (lo, hi)) -> 128 <= lo.
Proof.
  unfold first.
  repeat match goal with
         | |- context [if ?c then _ else _] => destruct c
         end; intros [= <- <- <-]; lia.
Qed.

(** The bytes of a rune after the first one are all above 127. *)
Lemma DecodeRune_cont b q r w :
  DecodeRune (b :: q) = (r, w) ->
  forall i, (S i < w)%nat ->
  exists c, nth_error q i = Some c /\ 128 <= b2z c.
Proof.
  unfold DecodeRune.
  destruct (b2z b <? 128); [intros [= <- <-] i Hi; lia|].
  destruct (first (b2z b)) as [[sz [lo hi]]|] eqn:Fi;
    [|intros [= <- <-] i Hi; lia].
  apply first_lo in Fi.
  destruct (List.length (b :: q) <? sz)%nat; [intros [= <- <-] i Hi; lia|].
  destruct q as [|b1 p2]; [intros [= <- <-] i Hi; lia|].
  destruct (between lo (b2z b1) hi) eqn:B1; cbn [negb];
    [|intros [= <- <-] i Hi; lia].
  assert (C1 : 128 <= b2z b1).
  { unfold between in B1. apply andb_prop in B1. destruct B1 as [B1 _].
    apply Z.leb_le in B1. lia. }
  destruct (sz <=? 2)%nat.
  { intros [= <- <-] i Hi. destruct i as [|i]; [|lia].
    exists b1. split; [reflexivity|assumption]. }
  destruct p2 as [|b2 p3]; [intros [= <- <-] i Hi; lia|].
  destruct (between 128 (b2z b2) 191) eqn:B2; cbn [negb];
    [|intros [= <- <-] i Hi; lia].
  assert (C2 : 128 <= b2z b2).
  { unfold between in B2. apply andb_prop in B2. destruct B2 as [B2 _].
    apply Z.leb_le in B2. lia. }
  destruct (sz <=? 3)%nat.
  { intros [= <- <-] i Hi. destruct i as [|[|i]]; [| |lia].
    - exists b1. split; [reflexivity|assumption].
    - exists b2. split; [reflexivity|assumption]. }
  destruct p3 as [|b3 p4]; [intros [= <- <-] i Hi; lia|].
  destruct (between 128 (b2z b3) 191) eqn:B3; cbn [negb];
    [|intros [= <- <-] i Hi; lia].
  assert (C3 : 128 <= b2z b3).
  { unfold between in B3. apply andb_prop in B3. destruct B3 as [B3 _].
    apply Z.leb_le in B3. lia. }
  intros [= <- <-] i Hi. destruct i as [|[|[|i]]]; [| | |lia].
  - exists b1. split; [reflexivity|assumption].
  - exists b2. split; [reflexivity|assumption].
  - exists b3. split; [reflexivity|assumption].
Qed.

(** A rune is 0 or 10 only if its first byte is. *)
Lemma DecodeRune_first b q r w :
  DecodeRune (b :: q) = (r, w) ->
  (1 <= w)%nat /\ (r < 128 -> r = b2z b /\ w = 1%nat).
Proof.
  intros D. split.
  - apply DecodeRune_width in D. destruct D as [_ D]. apply D. discriminate.
  - intros Hr. destruct (DecodeRune_small _ _ _ _ D Hr) as (_ & ? & ?). auto.
Qed.

(** A rune that starts in [body] ends in it, when what follows [body] is
    the end of the input or a byte below 128. *)
Lemma DecodeRune_within b body tail r w :
  DecodeRune (b :: body ++ tail) = (r, w) ->
  match tail with [] => True | c :: _ => b2z c < 128 end ->
  (w <= S (List.length body))%nat.
Proof.
  intros D T.
  destruct (Nat.le_gt_cases w (S (List.length body))) as [|Hgt]; [assumption|].
  exfalso. destruct tail as [|c tail].
  - apply DecodeRune_width in D. destruct D as [D _]. simpl in D.
    rewrite length_app in D. simpl in D. lia.
  - destruct (DecodeRune_cont _ _ _ _ D (List.length body)) as (c' & N & Hc);
      [lia|].
    rewrite nth_error_app2, Nat.sub_diag in N by lia. simpl in N.
    injection N as <-. lia.
Qed.

Lemma free_of_skipn cs n bs :
  free_of cs bs = true -> free_of cs (skipn n bs) = true.
Proof.
  unfold free_of. rewrite !forallb_forall. intros H x Hx. apply H.
  rewrite <- (firstn_skipn n bs). apply in_or_app. right. assumption.
Qed.

(** [lexComment] reads runes, whatever their bytes, up to the first newline
    or NUL byte or to the end of the input. *)
Lemma lexComment_loop_within n : forall body inp p s w st ts c tail,
  (List.length body <= n)%nat ->
  free_of [eof; newline] body = true -> comment_end tail = true ->
  skipn p inp = body ++ tail ->
  within (S (List.length body))
    (fun F => lexComment_loop F (mkLexer inp p s w st ts c))
    (mkLexer inp (p + List.length body + end_width tail) s (end_width tail)
       st ts c).
Proof.
  induction n as [|n IH]; intros body inp p s w st ts c tail Hn Fr Ce E F HF;
    (destruct F as [|f]; [lia|]); cbn [lexComment_loop];
    destruct body as [|b body]; try (simpl in Hn; lia).
  - simpl in E. destruct tail as [|c0 tail]; simpl in *.
    + rewrite (next_eof_at _ _ _ _ _ _ _ E). simpl.
      rewrite !Nat.add_0_r. reflexivity.
    + assert (Hc : b2z c0 < 128).
      { apply orb_prop in Ce. unfold eof, newline in Ce.
        destruct Ce as [H|H]; apply Z.eqb_eq in H; lia. }
      rewrite (next_ascii_at _ _ _ _ _ _ _ _ _ E Hc), Ce.
      rewrite Nat.add_0_r. reflexivity.
  - simpl in E. destruct tail as [|c0 tail]; simpl in *.
    + rewrite (next_eof_at _ _ _ _ _ _ _ E). simpl.
      rewrite !Nat.add_0_r. reflexivity.
    + assert (Hc : b2z c0 < 128).
      { apply orb_prop in Ce. unfold eof, newline in Ce.
        destruct Ce as [H|H]; apply Z.eqb_eq in H; lia. }
      rewrite (next_ascii_at _ _ _ _ _ _ _ _ _ E Hc), Ce.
      rewrite Nat.add_0_r. reflexivity.
  - simpl in E.
    rewrite (next_rune_at _ _ _ _ _ _ _ _ E) by discriminate.
    destruct (DecodeRune (b :: body ++ tail)) as [r k] eqn:D. cbn [fst snd].
    destruct (DecodeRune_first _ _ _ _ D) as (K1 & Sm).
    assert (K2 : (k <= S (List.length body))%nat).
    { apply (DecodeRune_within b body tail r k D).
      destruct tail as [|c0 tail]; [exact I|]. simpl in Ce.
      apply orb_prop in Ce. unfold eof, newline in Ce.
      destruct Ce as [H|H]; apply Z.eqb_eq in H; lia. }
    assert (Hr : (r =? eof) || (r =? newline) = false).
    { unfold free_of in Fr. simpl in Fr. apply andb_prop in Fr.
      destruct Fr as [Fr _]. apply negb_true_iff in Fr.
      rewrite orb_false_r in Fr. apply orb_false_elim in Fr.
      destruct Fr as [F1 F2]. apply Z.eqb_neq in F1, F2.
      apply orb_false_intro; apply Z.eqb_neq; unfold eof, newline in *;
        intros ->; destruct Sm as [Sm _]; try lia; congruence. }
    rewrite Hr.
    assert (E' : skipn (p + k) inp = skipn (k - 1) body ++ tail).
    { rewrite Nat.add_comm, <- skipn_skipn, E.
      destruct k as [|k]; [lia|]. simpl. rewrite Nat.sub_0_r, skipn_app.
      replace (k - List.length body)%nat with 0%nat by lia. reflexivity. }
    assert (Fr' : free_of [eof; newline] (skipn (k - 1) body) = true).
    { apply free_of_skipn. unfold free_of in *. simpl in Fr.
      apply andb_prop in Fr. apply Fr. }
    assert (Ln : List.length (skipn (k - 1) body)
                 = (List.length body - (k - 1))%nat) by apply length_skipn.
    rewrite (IH (skipn (k - 1) body) inp (p + k)%nat s k st ts c tail
               ltac:(simpl in Hn; lia) Fr' Ce E' f)
      by (simpl in HF; lia).
    rewrite Ln. simpl List.length. do 2 f_equal. lia.
Qed.

Lemma lexComment_within body tail inp p s w st ts c :
  free_of [eof; newline] body = true -> comment_end tail = true ->
  skipn p inp = x3b :: body ++ tail ->
  within (S (List.length body))
    (fun F => lexComment F (mkLexer inp p s w st ts c))
    (Some StDefault,
     mkLexer inp (p + 1 + List.length body + end_width tail) s
       (end_width tail) st ts c).
Proof.
  intros Fr Ce E F HF. unfold lexComment.
  rewrite (accept_semicolon _ _ _ _ _ _ _ _ E). cbn [negb].
  rewrite (lexComment_loop_within (List.length body) body inp (p + 1)%nat s 1
             st ts c tail (le_n _) Fr Ce (skipn_cons_succ _ _ _ _ E) F HF).
  reflexivity.
Qed.

(** From the start of the input through a line comment. *)
Lemma nextToken_comment_within body tail B r :
  free_of [eof; newline] body = true -> comment_end tail = true ->
  within B
    (fun F => nextToken F
       (mkLexer (x3b :: x3b :: body ++ tail)
          (2 + List.length body + end_width tail) 0 (end_width tail)
          (Some StDefault) [] false)) r ->
  within (List.length body + 3 + B)
    (fun F => nextToken F (NewLexer (x3b :: x3b :: body ++ tail))) r.
Proof.
  intros Fr Ce H. unfold NewLexer.
  set (inp := x3b :: x3b :: body ++ tail) in *.
  assert (E0 : skipn 0 inp = x3b :: x3b :: body ++ tail) by reflexivity.
  assert (E1 : skipn 1 inp = x3b :: body ++ tail) by reflexivity.
  eapply within_weaken.
  - eapply (nextToken_silent_within 1 _ inp 0 0 0 StDefault StComment 1 0 1).
    + apply within_S. intros k.
      apply (lexDefault_to_comment _ _ _ _ _ _ _ _ _ E0).
    + eapply (nextToken_silent_within (S (List.length body)) B inp 1 0 1
                StComment StDefault).
      * cbn [run].
        apply (lexComment_within body tail inp 1 0 1 _ _ _ Fr Ce E1).
      * exact H.
  - lia.
Qed.

(** A line comment that white space follows is read without a token: the
    scan is that of what comes after.  The comment may hold any bytes but
    the newline and NUL. *)
Theorem line_comment_before_white_space_is_dropped body ws rest fuel ts :
  free_of [eof; newline] body = true -> all_space ws = true -> ws <> [] ->
  scan_input fuel rest = Some ts ->
  scan_input (List.length body + List.length ws + 3 + fuel)
    (x3b :: x3b :: body ++ x0a :: ws ++ rest)
  = Some ts.
Proof.
  intros Fr A Hne Hs.
  set (pre := x3b :: x3b :: body ++ x0a :: ws).
  assert (In_eq : x3b :: x3b :: body ++ x0a :: ws ++ rest = pre ++ rest).
  { unfold pre. simpl. rewrite <- app_assoc. reflexivity. }
  assert (Lp : List.length pre = (2 + List.length body + 1 + List.length ws)%nat).
  { unfold pre. simpl. rewrite length_app. simpl. lia. }
  unfold scan_input. rewrite In_eq.
  apply (scan_silent_within (List.length body + List.length ws + 3) pre rest 1
           fuel ts); [|assumption|apply Nat.le_refl].
  intros B' r H. rewrite <- In_eq in *.
  eapply within_weaken.
  - apply (nextToken_comment_within body (x0a :: ws ++ rest)
             (List.length ws + B') r Fr eq_refl).
    apply (nextToken_skip_within ws _ _ 0 1 rest B' r A Hne).
    + replace (2 + List.length body + end_width (x0a :: ws ++ rest))%nat
        with (0 + List.length (x3b :: x3b :: body ++ [x0a]))%nat
        by (simpl; rewrite length_app; simpl; lia).
      apply skipn_app_length. simpl. rewrite <- app_assoc. reflexivity.
    + replace (2 + List.length body + end_width (x0a :: ws ++ rest)
               + List.length ws)%nat with (List.length pre)
        by (rewrite Lp; simpl; lia).
      exact H.
  - lia.
Qed.

Lemma line_comment_before_white_space_is_dropped_witness :
  scan_input 8 (bytes "$x")
  = Some [tok tokenIdent (bytes "$x"); tok tokenEOF []] /\
  scan_input 16 (x3b :: x3b :: [x20; xc3; xa9] ++ x0a :: [x20; x20] ++ bytes "$x")
  = Some [tok tokenIdent (bytes "$x"); tok tokenEOF []].
Proof.
  assert (H : scan_input 8 (bytes "$x")
              = Some [tok tokenIdent (bytes "$x"); tok tokenEOF []])
    by (vm_compute; reflexivity).
  split; [exact H|].
  exact (line_comment_before_white_space_is_dropped [x20; xc3; xa9] [x20; x20]
           (bytes "$x") 8 _ eq_refl eq_refl ltac:(discriminate) H).
Defined.

(** [lexComment] does not move [start]: a line comment that ends the input,
    with or without its newline, is the payload of the end-of-input
    token. *)
Theorem line_comment_at_the_end_is_kept body tail fuel :
  free_of [eof; newline] body = true -> tail = [] \/ tail = [x0a] ->
  scan_input (List.length body + 6 + fuel) (x3b :: x3b :: body ++ tail)
  = Some [tok tokenEOF (x3b :: x3b :: body ++ tail)].
Proof.
  intros Fr Ht.
  set (inp := x3b :: x3b :: body ++ tail).
  assert (Ce : comment_end tail = true) by (destruct Ht; subst; reflexivity).
  assert (Ln : List.length inp = (2 + List.length body + end_width tail)%nat).
  { unfold inp. simpl. rewrite length_app. destruct Ht; subst; simpl; lia. }
  assert (End : skipn (2 + List.length body + end_width tail) inp = []).
  { rewrite <- Ln. apply skipn_all. }
  assert (W : within (S (List.length body + 3 + 2))
                (fun F => scan F (NewLexer inp)) [tok tokenEOF inp]);
    [|apply W; lia].
  eapply scan_stop_within; [|reflexivity].
  eapply (nextToken_comment_within body tail 2 _ Fr Ce).
  replace (tok tokenEOF inp)
    with (tok tokenEOF (slice inp 0 (2 + List.length body + end_width tail)))
    by (rewrite <- Ln, slice_all; reflexivity).
  eapply (nextToken_sent_within 1 inp _ 0 _ StDefault).
  - cbn [run]. apply within_S. intros k.
    rewrite (lexDefault_eof _ _ _ _ _ _ _ _ End). reflexivity.
  - reflexivity.
Qed.

Lemma line_comment_at_the_end_is_kept_witness :
  free_of [eof; newline] (bytes " to do") = true /\
  scan_input 12 (x3b :: x3b :: bytes " to do" ++ [x0a])
  = Some [tok tokenEOF (x3b :: x3b :: bytes " to do" ++ [x0a])].
Proof.
  split; [reflexivity|].
  exact (line_comment_at_the_end_is_kept (bytes " to do") [x0a] 0 eq_refl
           (or_intror eq_refl)).
Defined.

(** [lexComment] does not move [start]: the token that comes directly after
    the newline of a line comment has the comment in its payload. *)
Theorem line_comment_joins_the_next_token body rest fuel ts :
  free_of [eof; newline] body = true -> scan_input fuel rest = Some ts ->
  scan_input (List.length body + 6 + fuel)
    (x3b :: x3b :: body ++ x0a :: x29 :: rest)
  = Some (tok tokenRParen (x3b :: x3b :: body ++ [x0a; x29]) :: ts).
Proof.
  intros Fr Hs.
  set (pre := x3b :: x3b :: body ++ [x0a; x29]).
  assert (In_eq : x3b :: x3b :: body ++ x0a :: x29 :: rest = pre ++ rest).
  { unfold pre. simpl. rewrite <- app_assoc. reflexivity. }
  assert (Lp : List.length pre = (2 + List.length body + 1 + 1)%nat).
  { unfold pre. simpl. rewrite length_app. simpl. lia. }
  assert (E : skipn (2 + List.length body + 1) (pre ++ rest) = x29 :: rest).
  { replace (2 + List.length body + 1)%nat
      with (0 + List.length (x3b :: x3b :: body ++ [x0a]))%nat
      by (simpl; rewrite length_app; simpl; lia).
    apply skipn_app_length. unfold pre. simpl. rewrite <- !app_assoc.
    reflexivity. }
  unfold scan_input. rewrite In_eq.
  assert (W : within (S (Nat.max (List.length body + 3 + 2) fuel))
                (fun F => scan F (NewLexer (pre ++ rest)))
                (tok tokenRParen pre :: ts)); [|apply W; lia].
  apply (scan_token_then_within _ pre rest 1 _ fuel ts); [|reflexivity|exact Hs].
  rewrite <- In_eq.
  apply (nextToken_comment_within body (x0a :: x29 :: rest) 2 _ Fr eq_refl).
  rewrite In_eq.
  replace (tok tokenRParen pre)
    with (tok tokenRParen (slice (pre ++ rest) 0 (2 + List.length body + 1 + 1)))
    by (rewrite <- Lp, slice_prefix; reflexivity).
  rewrite Lp. change (end_width (x0a :: x29 :: rest)) with 1%nat.
  apply (nextToken_sent_within 1 (pre ++ rest) (2 + List.length body + 1) 0 1
           StDefault (Some StDefault)
           (mkLexer (pre ++ rest) (2 + List.length body + 1 + 1)
              (2 + List.length body + 1 + 1) 1 (Some StDefault)
              [tok tokenRParen
                 (slice (pre ++ rest) 0 (2 + List.length body + 1 + 1))]
              false)).
  - cbn [run]. apply within_S. intros k.
    rewrite (lexDefault_rparen _ _ _ _ _ _ _ _ _ E). reflexivity.
  - reflexivity.
Qed.

Lemma line_comment_joins_the_next_token_witness :
  scan_input 3 [] = Some [tok tokenEOF []] /\
  scan_input 10 (x3b :: x3b :: [x61] ++ x0a :: x29 :: [])
  = Some [tok tokenRParen (x3b :: x3b :: [x61] ++ [x0a; x29]);
          tok tokenEOF []].
Proof.
  assert (H : scan_input 3 [] = Some [tok tokenEOF []])
    by (vm_compute; reflexivity).
  split; [exact H|].
  exact (line_comment_joins_the_next_token [x61] [] 3 _ eq_refl H).
Defined.

(** ** One token, then the rest *)

Lemma length_pre (ws atom : list byte) :
  List.length (ws ++ atom) = (List.length ws + List.length atom)%nat.
Proof. apply length_app. Qed.

(** White space, then a token that [lexDefault] hands to the state function
    [st1]. *)
Lemma scan_atom_then_within B st1 t ws atom rest w' F ts :
  all_space ws = true ->
  within 1
    (fun F' => lexDefault F'
       (mkLexer ((ws ++ atom) ++ rest) (0 + List.length ws)
          (match ws with [] => 0 | _ => 0 + List.length ws end)%nat
          (match ws with [] => 0 | _ => 1 end)%nat (Some StDefault) [] false))
    (Some st1,
     mkLexer ((ws ++ atom) ++ rest) (List.length ws) (List.length ws) 1
       (Some StDefault) [] false) ->
  within B
    (fun F' => run F' st1
       (mkLexer ((ws ++ atom) ++ rest) (List.length ws) (List.length ws) 1
          (Some st1) [] false))
    (Some StDefault,
     mkLexer ((ws ++ atom) ++ rest)
       (List.length ws + List.length atom)
       (List.length ws + List.length atom) w' (Some st1) [t] false) ->
  stops t = false ->
  scan_input F rest = Some ts ->
  within (List.length ws + B + F + 3)
    (fun F' => scan F' (NewLexer ((ws ++ atom) ++ rest))) (t :: ts).
Proof.
  intros A H1 H2 St Hs.
  set (inp := (ws ++ atom) ++ rest) in *.
  assert (E : skipn 0 inp = ws ++ atom ++ rest)
    by (unfold inp; rewrite <- app_assoc; reflexivity).
  eapply within_weaken.
  - apply (scan_token_then_within
             (S (Nat.max (List.length ws + 1) (S B))) (ws ++ atom) rest w' t
             F ts); [|exact St|exact Hs].
    rewrite length_pre. fold inp.
    apply (nextToken_handed_within (List.length ws + 1) B inp 0 0 0 st1
             (List.length ws) (List.length ws) 1 (Some StDefault)
             (mkLexer inp (List.length ws + List.length atom)
                (List.length ws + List.length atom) w' (Some st1) [t] false)
             t).
    + apply (lexDefault_skip_within ws 1 _ inp 0 0 0 _ _ _ _ A E). exact H1.
    + exact H2.
    + reflexivity.
  - lia.
Qed.


Lemma slice_atom (ws atom rest : list byte) :
  slice ((ws ++ atom) ++ rest) (List.length ws)
    (List.length ws + List.length atom) = atom.
Proof. rewrite <- app_assoc. apply slice_middle. Qed.

Lemma skipn_atom (ws atom rest : list byte) :
  skipn (0 + List.length ws) ((ws ++ atom) ++ rest) = atom ++ rest.
Proof. rewrite <- app_assoc. apply skipn_after. Qed.

Lemma word_then_within ws word rest F ts :
  all_space ws = true -> is_word word = true ->
  stop_at keyword rest = true -> scan_input F rest = Some ts ->
  within (List.length ws + List.length word + F + 4)
    (fun F' => scan F' (NewLexer ((ws ++ word) ++ rest)))
    (tok (word_kind word) word :: ts).
Proof.
  intros A Hw V Hs.
  destruct word as [|b word']; [discriminate Hw|].
  unfold is_word in Hw. apply andb_prop in Hw. destruct Hw as [LL R].
  set (word := b :: word') in *.
  pose proof (skipn_atom ws word rest) as E.
  pose proof (lexKeyword_within word rest ((ws ++ word) ++ rest)
                (List.length ws) (List.length ws) 1
                (Some StKeyword) [] false R V E) as K.
  rewrite (slice_atom ws word rest) in K.
  eapply within_weaken.
  - apply (scan_atom_then_within (S (List.length word)) StKeyword
             (tok (word_kind word) word) ws word rest (end_width rest) F ts A);
      [| |apply word_kind_goes_on|exact Hs].
    + apply within_S. intros k.
      rewrite (lexDefault_to_keyword _ _ _ _ _ _ _ _ b (word' ++ rest) E LL).
      rewrite start_after_space. reflexivity.
    + cbn [run]. exact K.
  - lia.
Qed.

Lemma identifier_then_within ws name rest F ts :
  all_space ws = true -> run_of idChar name = true -> name <> [] ->
  stop_at idChar rest = true -> scan_input F rest = Some ts ->
  within (List.length ws + List.length name + F + 6)
    (fun F' => scan F' (NewLexer ((ws ++ x24 :: name) ++ rest)))
    (tok tokenIdent (x24 :: name) :: ts).
Proof.
  intros A R Hne V Hs.
  pose proof (skipn_atom ws (x24 :: name) rest) as E.
  pose proof (lexIdentifier_within name rest ((ws ++ x24 :: name) ++ rest)
                (List.length ws) (List.length ws) 1
                (Some StIdentifier) [] false R Hne V E) as K.
  change (S (List.length name)) with (List.length (x24 :: name)) in K.
  rewrite (slice_atom ws (x24 :: name) rest) in K.
  eapply within_weaken.
  - apply (scan_atom_then_within (S (S (List.length name))) StIdentifier
             (tok tokenIdent (x24 :: name)) ws (x24 :: name) rest
             (end_width rest) F ts A); [| |reflexivity|exact Hs].
    + apply within_S. intros k.
      rewrite (lexDefault_to_identifier _ _ _ _ _ _ _ _ _ E).
      rewrite start_after_space. reflexivity.
    + cbn [run]. exact K.
  - simpl. lia.
Qed.




(** A word, after any white space and before a byte that cannot go on the
    word or the end of the input, is one token whose payload is the word;
    its kind is the table's when the table has the word, and the generic
    keyword kind otherwise.  The scan goes on with what follows. *)
Theorem word_is_scanned ws word rest fuel ts :
  all_space ws = true -> is_word word = true ->
  stop_at keyword rest = true -> scan_input fuel rest = Some ts ->
  scan_input (List.length ws + List.length word + fuel + 4)
    (ws ++ word ++ rest)
  = Some (tok (word_kind word) word :: ts).
Proof.
  intros A Hw V Hs. unfold scan_input. rewrite app_assoc.
  apply (word_then_within ws word rest fuel ts A Hw V Hs). apply Nat.le_refl.
Qed.

Lemma word_is_scanned_witness :
  is_word (bytes "i32.add") = true /\
  scan_input 3 [] = Some [tok tokenEOF []] /\
  scan_input 15 ([x20] ++ bytes "i32.add" ++ [])
  = Some [tok tokenI32Add (bytes "i32.add"); tok tokenEOF []].
Proof.
  assert (H : scan_input 3 [] = Some [tok tokenEOF []])
    by (vm_compute; reflexivity).
  split; [reflexivity|]. split; [exact H|].
  exact (word_is_scanned [x20] (bytes "i32.add") [] 3 _ eq_refl eq_refl
           eq_refl H).
Defined.

(** An identifier, after any white space and before a byte that cannot go
    on the name or the end of the input, is an identifier token whose
    payload is the dollar sign and the name. *)
Theorem identifier_is_scanned ws name rest fuel ts :
  all_space ws = true -> run_of idChar name = true -> name <> [] ->
  stop_at idChar rest = true -> scan_input fuel rest = Some ts ->
  scan_input (List.length ws + List.length name + fuel + 6)
    (ws ++ (x24 :: name) ++ rest)
  = Some (tok tokenIdent (x24 :: name) :: ts).
Proof.
  intros A R Hne V Hs. unfold scan_input. rewrite app_assoc.
  apply (identifier_then_within ws name rest fuel ts A R Hne V Hs).
  apply Nat.le_refl.
Qed.

Lemma identifier_is_scanned_witness :
  run_of idChar (bytes "f0") = true /\
  scan_input 4 [x29] = Some [tok tokenRParen [x29]; tok tokenEOF []] /\
  scan_input 13 ([x20] ++ (x24 :: bytes "f0") ++ [x29])
  = Some [tok tokenIdent (x24 :: bytes "f0"); tok tokenRParen [x29];
          tok tokenEOF []].
Proof.
  assert (H : scan_input 4 [x29] = Some [tok tokenRParen [x29]; tok tokenEOF []])
    by (vm_compute; reflexivity).
  split; [reflexivity|]. split; [exact H|].
  exact (identifier_is_scanned [x20] (bytes "f0") [x29] 4 _ eq_refl eq_refl
           ltac:(discriminate) eq_refl H).
Defined.

(** Every entry of the table is within reach of the scanner: the text of
    the entry, scanned alone, gives one token of the entry's kind with that
    text as payload. *)
Theorem table_entries_are_scanned s k fuel :
  In (s, k) key ->
  scan_input (List.length (bytes s) + 7 + fuel) (bytes s)
  = Some [tok k (bytes s); tok tokenEOF []].
Proof.
  intros H.
  assert (W : forallb (fun e => is_word (bytes (fst e))) key = true)
    by (vm_compute; reflexivity).
  rewrite forallb_forall in W. pose proof (W _ H) as Hw. simpl in Hw.
  assert (D : keys_distinct key = true) by (vm_compute; reflexivity).
  pose proof (assoc_first key s k D H) as Hk.
  assert (E : scan_input 3 [] = Some [tok tokenEOF []])
    by (vm_compute; reflexivity).
  pose proof (word_then_within [] (bytes s) [] 3 _ eq_refl Hw eq_refl E) as S.
  unfold word_kind in S. rewrite Hk in S.
  cbn [app] in S. rewrite app_nil_r in S. apply S. simpl. lia.
Qed.

Lemma table_entries_are_scanned_witness :
  In ("memory.grow", tokenMemoryGrow) key /\
  scan_input 18 (bytes "memory.grow")
  = Some [tok tokenMemoryGrow (bytes "memory.grow"); tok tokenEOF []].
Proof.
  assert (H : In ("memory.grow", tokenMemoryGrow) key).
  { unfold key. repeat (first [left; reflexivity | right]). }
  split; [exact H|].
  exact (table_entries_are_scanned "memory.grow" tokenMemoryGrow 0 H).
Defined.

(** ** Numbers *)

Lemma lexNumber_stages fuel l :
  lexNumber fuel l
  = match number_head fuel l with
    | None => None
    | Some (hex, l4) =>
      match number_frac fuel hex l4 with
      | None => None
      | Some l6 =>
        match number_exp fuel l6 with
        | None => None
        | Some l9 => Some (Some StDefault, emit tokenNumber l9)
        end
      end
    end.
Proof.
  unfold lexNumber, number_head, number_frac, number_exp, valid_of.
  destruct (accept sign l) as [b1 l1].
  destruct (accept "0" l1) as [zero l2].
  destruct (if zero then accept "xX" l2 else (false, l2)) as [hex l3].
  destruct (acceptRun fuel ((if hex then hexDigit else digit) ++ "_") l3)
    as [[n4 l4]|]; [|reflexivity].
  destruct (accept "." l4) as [dot l5].
  destruct (if dot
            then acceptRun fuel ((if hex then hexDigit else digit) ++ "_") l5
            else Some (0%nat, l5)) as [[n6 l6]|]; [|reflexivity].
  destruct (accept "eEpP" l6) as [ex l7].
  destruct (if ex
            then let '(_, l8) := accept sign l7 in
                 acceptRun fuel (digit ++ "_") l8
            else Some (0%nat, l7)) as [[n9 l9]|]; reflexivity.
Qed.

Lemma disjoint_out v w r :
  disjoint v w = true -> IndexRune v r = true -> IndexRune w r = false.
Proof.
  unfold disjoint, IndexRune at 2. rewrite forallb_forall. intros D H.
  apply existsb_exists in H. destruct H as (b & Hin & Hb).
  apply Z.eqb_eq in Hb. subst r. apply negb_true_iff. apply D. assumption.
Qed.

Lemma subset_in v w r :
  subset v w = true -> IndexRune v r = true -> IndexRune w r = true.
Proof.
  unfold subset, IndexRune at 2. rewrite forallb_forall. intros D H.
  apply existsb_exists in H. destruct H as (b & Hin & Hb).
  apply Z.eqb_eq in Hb. subst r. apply D. assumption.
Qed.

Lemma stop_at_sub v w rest :
  subset v w = true -> stop_at w rest = true -> stop_at v rest = true.
Proof.
  intros S H. destruct rest as [|b rest]; simpl in *.
  - apply negb_true_iff in H. apply negb_true_iff.
    destruct (IndexRune v eof) eqn:E; [|reflexivity].
    rewrite (subset_in _ _ _ S E) in H. discriminate.
  - apply andb_prop in H. destruct H as [Hb H]. rewrite Hb. simpl.
    apply negb_true_iff in H. apply negb_true_iff.
    destruct (IndexRune v (b2z b)) eqn:E; [|reflexivity].
    rewrite (subset_in _ _ _ S E) in H. discriminate.
Qed.

Lemma stop_at_run v w body rest :
  run_of v body = true -> disjoint v w = true -> stop_at w rest = true ->
  stop_at w (body ++ rest) = true.
Proof.
  intros R D H. destruct body as [|b body]; [exact H|].
  apply run_of_cons in R. destruct R as (Hb & Hv & _). simpl.
  apply Z.ltb_lt in Hb. rewrite Hb, (disjoint_out _ _ _ D Hv). reflexivity.
Qed.

Lemma opt_run v o : opt_of v o = true -> run_of v o = true.
Proof.
  destruct o as [|b [|b' o]]; simpl; intros H; try discriminate.
  - reflexivity.
  - unfold run_of. simpl. rewrite H. reflexivity.
Qed.

Lemma accept_opt valid o tail inp p s w st ts c :
  opt_of valid o = true -> (o = [] -> stop_at valid tail = true) ->
  skipn p inp = o ++ tail ->
  accept valid (mkLexer inp p s w st ts c)
  = (negb (is_nil o),
     mkLexer inp (p + List.length o) s
       (match o with [] => end_width tail | _ => 1%nat end) st ts c).
Proof.
  intros O St E. destruct o as [|b [|b' o]]; simpl in O; try discriminate.
  - simpl in E. rewrite (accept_miss_at _ _ _ _ _ _ _ _ _ E (St eq_refl)).
    simpl. rewrite Nat.add_0_r. reflexivity.
  - apply andb_prop in O. destruct O as [Hb Hv]. apply Z.ltb_lt in Hb.
    rewrite (accept_hit_at _ _ _ _ _ _ _ _ _ _ E Hb Hv). reflexivity.
Qed.

Lemma number_frac_within hex dot fr tail inp p s w st ts c :
  opt_of "." dot = true -> run_of (valid_of hex) fr = true ->
  (dot = [] -> fr = []) ->
  stop_at "." tail = true -> stop_at (valid_of hex) tail = true ->
  skipn p inp = dot ++ fr ++ tail ->
  within (S (List.length fr))
    (fun F => number_frac F hex (mkLexer inp p s w st ts c))
    (mkLexer inp (p + List.length dot + List.length fr) s (end_width tail)
       st ts c).
Proof.
  intros O R G S1 S2 E F HF. unfold number_frac.
  destruct dot as [|d dot'].
  - rewrite (G eq_refl) in *. simpl in E.
    rewrite (accept_miss_at _ _ _ _ _ _ _ _ _ E S1). simpl.
    rewrite !Nat.add_0_r. reflexivity.
  - rewrite (accept_opt "." (d :: dot') (fr ++ tail) inp p s w st ts c O
               ltac:(discriminate) E).
    cbn [is_nil negb]. unfold acceptRun.
    rewrite (acceptRun_loop_within (valid_of hex) fr tail 0 inp _ s 1 st ts c
               R S2 (skipn_app_length _ _ _ _ E) F HF).
    reflexivity.
Qed.

Lemma number_exp_within mark sg er rest inp p s w st ts c :
  opt_of "eEpP" mark = true -> opt_of sign sg = true ->
  run_of (digit ++ "_") er = true ->
  (mark = [] -> sg = [] /\ er = []) ->
  stop_at "eEpP" rest = true -> stop_at sign rest = true ->
  stop_at (digit ++ "_") rest = true ->
  skipn p inp = mark ++ sg ++ er ++ rest ->
  within (S (List.length er))
    (fun F => number_exp F (mkLexer inp p s w st ts c))
    (mkLexer inp (p + List.length mark + List.length sg + List.length er) s
       (end_width rest) st ts c).
Proof.
  intros O1 O2 R G S1 S2 S3 E F HF. unfold number_exp.
  destruct mark as [|m mark'].
  - destruct (G eq_refl) as [-> ->]. simpl in E.
    rewrite (accept_miss_at _ _ _ _ _ _ _ _ _ E S1). simpl.
    rewrite !Nat.add_0_r. reflexivity.
  - rewrite (accept_opt "eEpP" (m :: mark') (sg ++ er ++ rest) inp p s w st ts
               c O1 ltac:(discriminate) E).
    cbn [is_nil negb].
    pose proof (skipn_app_length _ _ _ _ E) as E1.
    rewrite (accept_opt sign sg (er ++ rest) inp _ s 1 st ts c O2
               (fun _ => stop_at_run (digit ++ "_") sign er rest R eq_refl S2)
               E1).
    unfold acceptRun.
    rewrite (acceptRun_loop_within (digit ++ "_") er rest 0 inp _ s _ st ts c
               R S3 (skipn_app_length _ _ _ _ E1) F HF).
    reflexivity.
Qed.

Lemma number_head_dec_within sgn int tail inp p s w st ts c :
  opt_of sign sgn = true -> run_of (digit ++ "_") int = true ->
  stop_at sign (int ++ tail) = true ->
  stop_at "0" tail = true -> stop_at "xX" tail = true ->
  stop_at (digit ++ "_") tail = true ->
  skipn p inp = sgn ++ int ++ tail ->
  within (S (List.length int))
    (fun F => number_head F (mkLexer inp p s w st ts c))
    (false,
     mkLexer inp (p + List.length sgn + List.length int) s (end_width tail)
       st ts c).
Proof.
  intros O R Ss S0 Sx Sd E F HF. unfold number_head.
  rewrite (accept_opt sign sgn (int ++ tail) inp p s w st ts c O
             (fun _ => Ss) E).
  pose proof (skipn_app_length _ _ _ _ E) as E1.
  set (p1 := (p + List.length sgn)%nat) in *.
  set (w1 := match sgn with [] => end_width (int ++ tail) | _ => 1%nat end).
  destruct int as [|b int'].
  - simpl in E1.
    rewrite (accept_miss_at _ _ _ _ _ _ _ _ _ E1 S0).
    unfold acceptRun, valid_of.
    rewrite (acceptRun_loop_within (digit ++ "_") [] tail 0 inp p1 s _ st ts c
               eq_refl Sd E1 F HF).
    simpl. rewrite !Nat.add_0_r. reflexivity.
  - pose proof R as R'. apply run_of_cons in R'. destruct R' as (Hb & Hv & R').
    assert (E2 : skipn p1 inp = b :: int' ++ tail) by exact E1.
    destruct (IndexRune "0" (b2z b)) eqn:Z.
    + rewrite (accept_hit_at _ _ _ _ _ _ _ _ _ _ E2 Hb Z).
      pose proof (skipn_cons_succ _ _ _ _ E2) as E3.
      rewrite (accept_miss_at "xX" _ _ _ _ _ _ _ _ E3
                 (stop_at_run (digit ++ "_") "xX" int' tail R' eq_refl Sx)).
      unfold acceptRun, valid_of.
      rewrite (acceptRun_loop_within (digit ++ "_") int' tail 0 inp _ s _ st
                 ts c R' Sd E3 F ltac:(simpl in HF; lia)).
      simpl. replace (p1 + S (List.length int'))%nat
        with (p1 + 1 + List.length int')%nat by lia.
      reflexivity.
    + assert (St0 : stop_at "0" (b :: int' ++ tail) = true).
      { simpl. apply Z.ltb_lt in Hb. rewrite Hb, Z. reflexivity. }
      rewrite (accept_miss_at "0" _ _ _ _ _ _ _ _ E2 St0).
      unfold acceptRun, valid_of.
      rewrite (acceptRun_loop_within (digit ++ "_") (b :: int') tail 0 inp _ s
                 _ st ts c R Sd E2 F HF).
      reflexivity.
Qed.

Lemma number_head_hex_within sgn z x int tail inp p s w st ts c :
  opt_of sign sgn = true ->
  b2z z = chr "0" -> b2z x < 128 -> IndexRune "xX" (b2z x) = true ->
  run_of (hexDigit ++ "_") int = true ->
  stop_at (hexDigit ++ "_") tail = true ->
  skipn p inp = sgn ++ [z; x] ++ int ++ tail ->
  within (S (List.length int))
    (fun F => number_head F (mkLexer inp p s w st ts c))
    (true,
     mkLexer inp (p + List.length sgn + 2 + List.length int) s
       (end_width tail) st ts c).
Proof.
  intros O Hz Hx Vx R Sh E F HF. unfold number_head.
  assert (Ss : stop_at sign ([z; x] ++ int ++ tail) = true)
    by (simpl; rewrite Hz; reflexivity).
  rewrite (accept_opt sign sgn ([z; x] ++ int ++ tail) inp p s w st ts c O
             (fun _ => Ss) E).
  pose proof (skipn_app_length _ _ _ _ E) as E1.
  set (p1 := (p + List.length sgn)%nat) in *.
  assert (E2 : skipn p1 inp = z :: x :: int ++ tail) by exact E1.
  assert (Lz : b2z z < 128) by (rewrite Hz; reflexivity).
  assert (Vz : IndexRune "0" (b2z z) = true) by (rewrite Hz; reflexivity).
  rewrite (accept_hit_at _ _ _ _ _ _ _ _ _ _ E2 Lz Vz).
  pose proof (skipn_cons_succ _ _ _ _ E2) as E3.
  rewrite (accept_hit_at _ _ _ _ _ _ _ _ _ _ E3 Hx Vx).
  pose proof (skipn_cons_succ _ _ _ _ E3) as E4.
  unfold acceptRun, valid_of.
  rewrite (acceptRun_loop_within (hexDigit ++ "_") int tail 0 inp _ s _ st ts
             c R Sh E4 F HF).
  simpl. replace (p1 + 2 + List.length int)%nat
    with (p1 + 1 + 1 + List.length int)%nat by lia.
  reflexivity.
Qed.

Lemma stop_at_opt v w o t :
  opt_of v o = true -> disjoint v w = true ->
  (o = [] -> stop_at w t = true) -> stop_at w (o ++ t) = true.
Proof.
  intros O D H. destruct o as [|b o]; [exact (H eq_refl)|].
  apply opt_run, run_of_cons in O. destruct O as (Hb & Hv & _). simpl.
  apply Z.ltb_lt in Hb. rewrite Hb, (disjoint_out _ _ _ D Hv). reflexivity.
Qed.

Lemma opt_sub v w o : subset v w = true -> opt_of v o = true -> opt_of w o = true.
Proof.
  intros S. destruct o as [|b [|b' o]]; simpl; intros H; try discriminate;
    [reflexivity|].
  apply andb_prop in H. destruct H as [Hb Hv].
  rewrite Hb, (subset_in _ _ _ S Hv). reflexivity.
Qed.

Lemma gate_nil {A B : Type} (a : list A) (b : list B) :
  negb (is_nil a) || is_nil b = true -> a = [] -> b = [].
Proof. intros H ->. destruct b; [reflexivity|discriminate]. Qed.

Lemma gate_nil2 {A B C : Type} (a : list A) (b : list B) (c : list C) :
  negb (is_nil a) || (is_nil b && is_nil c) = true ->
  a = [] -> b = [] /\ c = [].
Proof.
  intros H ->. destruct b; [|discriminate]. destruct c; [|discriminate].
  split; reflexivity.
Qed.

(** What follows the fraction of a number stops a run of [w] when the mark
    of the exponent, if there is one, is not in [w]. *)
Lemma stop_at_exponent m w mark sg er rest :
  opt_of m mark = true -> disjoint m w = true ->
  (mark = [] -> sg = [] /\ er = []) -> stop_at w rest = true ->
  stop_at w (mark ++ sg ++ er ++ rest) = true.
Proof.
  intros O D G H. apply (stop_at_opt m w mark _ O D).
  intros e. destruct (G e) as [-> ->]. exact H.
Qed.

Lemma stop_at_fraction m w dot fr mark sg er rest :
  opt_of "." dot = true -> disjoint "." w = true -> (dot = [] -> fr = []) ->
  opt_of m mark = true -> disjoint m w = true ->
  (mark = [] -> sg = [] /\ er = []) -> stop_at w rest = true ->
  stop_at w (dot ++ fr ++ mark ++ sg ++ er ++ rest) = true.
Proof.
  intros Od Dd Gd O D G H. apply (stop_at_opt "." w dot _ Od Dd).
  intros e. rewrite (Gd e). apply (stop_at_exponent m w mark sg er rest O D G H).
Qed.

(** [lexNumber] on a well-spelled number reads it whole. *)
Lemma lexNumber_within n rest inp p s w st ts c :
  well_spelled n = true -> stop_at (number_stop (is_hex n)) rest = true ->
  skipn p inp = spelled n ++ rest ->
  within (S (List.length (spelled n)))
    (fun F => lexNumber F (mkLexer inp p s w st ts c))
    (Some StDefault,
     mkLexer inp (p + List.length (spelled n)) (p + List.length (spelled n))
       (end_width rest) st
       (ts ++ [tok tokenNumber (slice inp s (p + List.length (spelled n)))])
       c).
Proof.
  destruct n as [sgn pre int dot fr mark sg er].
  unfold well_spelled, is_hex, spelled.
  cbn [n_sign n_prefix n_int n_dot n_frac n_mark n_esign n_exp].
  intros W Hs E.
  apply andb_prop in W. destruct W as [W Gm].
  apply andb_prop in W. destruct W as [W Re].
  apply andb_prop in W. destruct W as [W Os].
  apply andb_prop in W. destruct W as [W Om].
  apply andb_prop in W. destruct W as [W Gd].
  apply andb_prop in W. destruct W as [W Rf].
  apply andb_prop in W. destruct W as [W Od].
  apply andb_prop in W. destruct W as [W _].
  apply andb_prop in W. destruct W as [W Ri].
  apply andb_prop in W. destruct W as [O1 P].
  pose proof (gate_nil _ _ Gd) as Gd'. pose proof (gate_nil2 _ _ _ Gm) as Gm'.
  rewrite <- !app_assoc in E.
  assert (Len : List.length (sgn ++ pre ++ int ++ dot ++ fr ++ mark ++ sg ++ er)
                = (List.length sgn + List.length pre + List.length int
                   + List.length dot + List.length fr + List.length mark
                   + List.length sg + List.length er)%nat)
    by (rewrite !length_app; lia).
  rewrite Len.
  intros F HF. rewrite lexNumber_stages.
  destruct pre as [|z [|x [|y pre]]]; simpl in P; try discriminate;
    cbn [is_nil negb] in *.
  - (* decimal *)
    assert (Sub : forall v, subset v (number_stop false) = true ->
                            stop_at v rest = true)
      by (intros v Sv; exact (stop_at_sub v _ rest Sv Hs)).
    simpl app in E.
    assert (Tf : forall v, disjoint "." v = true -> disjoint "eEpP" v = true ->
                 subset v (number_stop false) = true ->
                 stop_at v (dot ++ fr ++ mark ++ sg ++ er ++ rest) = true).
    { intros v D1 D2 Sv.
      exact (stop_at_fraction "eEpP" v dot fr mark sg er rest Od D1 Gd' Om D2
               Gm' (Sub v Sv)). }
    pose proof (skipn_app_length _ _ _ _ E) as E1.
    pose proof (skipn_app_length _ _ _ _ E1) as E2.
    pose proof (skipn_app_length _ _ _ _ E2) as E3.
    pose proof (skipn_app_length _ _ _ _ E3) as E4.
    rewrite (number_head_dec_within sgn int _ inp p s w st ts c O1 Ri
               (stop_at_run (digit ++ "_") sign int _ Ri eq_refl
                  (Tf sign eq_refl eq_refl eq_refl))
               (Tf "0" eq_refl eq_refl eq_refl)
               (Tf "xX" eq_refl eq_refl eq_refl)
               (Tf (digit ++ "_")%string eq_refl eq_refl eq_refl) E F)
      by lia.
    rewrite (number_frac_within false dot fr _ inp _ s _ st ts c Od Rf Gd'
               (stop_at_exponent "eEpP" "." mark sg er rest Om eq_refl Gm'
                  (Sub "." eq_refl))
               (stop_at_exponent "eEpP" (valid_of false) mark sg er rest Om
                  eq_refl Gm' (Sub (valid_of false) eq_refl)) E2 F)
      by lia.
    rewrite (number_exp_within mark sg er rest inp _ s _ st ts c Om Os Re Gm'
               (Sub "eEpP" eq_refl) (Sub sign eq_refl)
               (Sub (digit ++ "_")%string eq_refl) E4 F) by lia.
    unfold emit, send, lexeme, set_start, set_tokens.
    cbn [input pos start width state tokens closed List.length].
    rewrite !Nat.add_0_r, !Nat.add_assoc. reflexivity.
  - (* hexadecimal *)
    apply andb_prop in P. destruct P as [P Vx].
    apply andb_prop in P. destruct P as [Hz Hx].
    apply Z.eqb_eq in Hz. apply Z.ltb_lt in Hx.
    assert (Sub : forall v, subset v (number_stop true) = true ->
                            stop_at v rest = true)
      by (intros v Sv; exact (stop_at_sub v _ rest Sv Hs)).
    pose proof (opt_sub "pP" "eEpP" mark eq_refl Om) as Om'.
    pose proof (skipn_app_length _ _ _ _ E) as E1.
    pose proof (skipn_app_length _ _ _ _ E1) as E1'.
    pose proof (skipn_app_length _ _ _ _ E1') as E2.
    pose proof (skipn_app_length _ _ _ _ E2) as E3.
    pose proof (skipn_app_length _ _ _ _ E3) as E4.
    rewrite (number_head_hex_within sgn z x int _ inp p s w st ts c O1 Hz Hx
               Vx Ri
               (stop_at_fraction "pP" (hexDigit ++ "_") dot fr mark sg er rest
                  Od eq_refl Gd' Om eq_refl Gm'
                  (Sub (hexDigit ++ "_")%string eq_refl)) E F) by lia.
    rewrite (number_frac_within true dot fr _ inp _ s _ st ts c Od Rf Gd'
               (stop_at_exponent "pP" "." mark sg er rest Om eq_refl Gm'
                  (Sub "." eq_refl))
               (stop_at_exponent "pP" (valid_of true) mark sg er rest Om
                  eq_refl Gm' (Sub (valid_of true) eq_refl)) E2 F)
      by lia.
    rewrite (number_exp_within mark sg er rest inp _ s _ st ts c Om' Os Re Gm'
               (Sub "eEpP" eq_refl) (Sub sign eq_refl)
               (Sub (digit ++ "_")%string eq_refl) E4 F) by lia.
    unfold emit, send, lexeme, set_start, set_tokens.
    cbn [input pos start width state tokens closed List.length].
    rewrite !Nat.add_assoc. reflexivity.
Qed.

(** A number, spelled as [lexNumber] reads it (sign, hexadecimal prefix,
    digits, dot and digits, exponent, each of them optional, underscores
    among the digits), after any white space and before a byte that cannot
    go on a number or the end of the input, is one number token whose
    payload is the number as spelled. *)
Theorem number_is_scanned ws n rest fuel ts :
  all_space ws = true -> well_spelled n = true ->
  stop_at (number_stop (is_hex n)) rest = true ->
  scan_input fuel rest = Some ts ->
  scan_input (List.length ws + List.length (spelled n) + fuel + 4)
    (ws ++ spelled n ++ rest)
  = Some (tok tokenNumber (spelled n) :: ts).
Proof.
  intros A W St Hs. unfold scan_input. rewrite app_assoc.
  pose proof (skipn_atom ws (spelled n) rest) as E.
  pose proof (lexNumber_within n rest ((ws ++ spelled n) ++ rest)
                (List.length ws) (List.length ws) 1 (Some StNumber) [] false
                W St E) as K.
  rewrite (slice_atom ws (spelled n) rest) in K.
  assert (Sn : starts_number (spelled n) = true).
  { unfold well_spelled in W.
    repeat (apply andb_prop in W; destruct W as [W ?]). assumption. }
  destruct (spelled n) as [|b more] eqn:Sp; [discriminate Sn|].
  simpl in Sn. apply andb_prop in Sn. destruct Sn as [Hb Ns].
  apply Z.ltb_lt in Hb.
  apply (scan_atom_then_within (S (List.length (b :: more))) StNumber
           (tok tokenNumber (b :: more)) ws (b :: more) rest
           (end_width rest) fuel ts A); [| |reflexivity|exact Hs|lia].
  - apply within_S. intros k.
    rewrite (lexDefault_to_number _ _ _ _ _ _ _ _ b (more ++ rest) E Hb Ns).
    rewrite start_after_space. reflexivity.
  - cbn [run]. exact K.
Qed.

Lemma number_is_scanned_witness :
  well_spelled sample_number = true /\
  scan_input 4 [x29] = Some [tok tokenRParen [x29]; tok tokenEOF []] /\
  scan_input (List.length [x20] + List.length (spelled sample_number) + 4 + 4)
    ([x20] ++ spelled sample_number ++ [x29])
  = Some (tok tokenNumber (spelled sample_number)
            :: [tok tokenRParen [x29]; tok tokenEOF []]).
Proof.
  assert (H : scan_input 4 [x29] = Some [tok tokenRParen [x29]; tok tokenEOF []])
    by (vm_compute; reflexivity).
  split; [vm_compute; reflexivity|]. split; [exact H|].
  apply (number_is_scanned [x20] sample_number [x29] 4);
    [reflexivity|vm_compute; reflexivity|vm_compute; reflexivity|exact H].
Defined.

(** ** Indices in range, channel below its capacity *)

Lemma nextToken_reaches inp fuel : forall l t l',
  reaches inp l -> nextToken fuel l = Some (t, l') -> reaches inp l'.
Proof.
  induction fuel as [|f IH]; intros l t l' R H; simpl in H;
    destruct (tokens l) as [|t0 ts] eqn:T;
    try (injection H as <- <-; apply (reach_receive inp l t0 ts R T));
    (destruct (closed l) eqn:C; [injection H as <- <-; exact R|]);
    (destruct (state l) as [st|] eqn:S;
       [|injection H as <- <-; apply (reach_close inp l R T C S)]).
  - discriminate H.
  - destruct (run f st l) as [[st' l1]|] eqn:Rn; [|discriminate H].
    apply (IH _ _ _ (reach_call inp l st f st' l1 R T C S Rn) H).
Qed.

Lemma reaches_in_range inp l :
  reaches inp l ->
  input l = inp /\ (start l <= pos l <= List.length inp)%nat /\
  (List.length (tokens l) <= 1)%nat.
Proof.
  induction 1 as [|l t ts R IH T|l st fuel st' l' R IH T C S Rn|l R IH T C S].
  - simpl. repeat split; lia.
  - destruct IH as (Hi & Hr & Hc). rewrite T in Hc. simpl in *.
    repeat split; try assumption; lia.
  - destruct IH as (Hi & Hr & Hc).
    assert (G : good inp 0 l).
    { unfold good. rewrite T. simpl. repeat split; try assumption; lia. }
    destruct (run_good inp 0 _ _ _ _ _ Rn G) as (Hi' & Hr' & _).
    pose proof (run_sends _ _ _ _ _ Rn) as Sn. unfold sends_at_most_one in Sn.
    rewrite T in Sn. simpl in *. repeat split; try assumption; try lia.
    destruct Sn as [->|(t & ->)]; simpl; lia.
  - destruct IH as (Hi & Hr & Hc). simpl. repeat split; assumption || lia.
Qed.

(** From [NewLexer] on, at every round of the loop of [nextToken] and so
    after every call of it, the indices are in order and within the input,
    so that the slices [input[start:pos]] and [input[pos:]] exist, and the
    channel holds at most one token: a state function is only called on an
    empty channel and sends at most one token, so no send can block on the
    channel's capacity of three. *)
Theorem lexer_stays_in_range inp l :
  reaches inp l ->
  input l = inp /\ (start l <= pos l <= List.length inp)%nat /\
  (List.length (tokens l) <= 1)%nat /\
  (forall fuel st st' l1,
     tokens l = [] -> run fuel st l = Some (st', l1) ->
     (start l1 <= pos l1 <= List.length inp)%nat /\
     (List.length (tokens l1) <= 1)%nat) /\
  (forall fuel t l', nextToken fuel l = Some (t, l') -> reaches inp l').
Proof.
  intros R. destruct (reaches_in_range inp l R) as (Hi & Hr & Hc).
  split; [exact Hi|]. split; [exact Hr|]. split; [exact Hc|]. split.
  - intros fuel st st' l1 T Rn.
    assert (G : good inp 0 l).
    { unfold good. rewrite T. simpl. repeat split; try assumption; lia. }
    destruct (run_good inp 0 _ _ _ _ _ Rn G) as (_ & Hr' & _).
    split; [exact Hr'|].
    pose proof (run_sends _ _ _ _ _ Rn) as Sn. unfold sends_at_most_one in Sn.
    rewrite T in Sn. destruct Sn as [->|(t & ->)]; simpl; lia.
  - intros fuel t l'. apply nextToken_reaches. exact R.
Qed.

Lemma lexer_stays_in_range_witness :
  reaches func_f (NewLexer func_f) /\
  (start (NewLexer func_f) <= pos (NewLexer func_f) <= List.length func_f)%nat.
Proof.
  split; [apply reach_new|].
  exact (proj1 (proj2 (lexer_stays_in_range func_f (NewLexer func_f)
                         (reach_new func_f)))).
Defined.

(** ** Node identifiers *)

Lemma wrap_int_add a j : wrap_int (wrap_int a + j) = wrap_int (a + j).
Proof.
  unfold wrap_int. f_equal.
  replace ((a + 2 ^ 63) mod 2 ^ 64 - 2 ^ 63 + j + 2 ^ 63)
    with ((a + 2 ^ 63) mod 2 ^ 64 + j) by lia.
  rewrite Zplus_mod_idemp_l. f_equal. lia.
Qed.

Lemma newIDs_spec k : forall c,
  fst (newIDs k c) = map (fun j => wrap_int (c + Z.of_nat j)) (seq 1 k) /\
  snd (newIDs k c)
  = match k with O => c | _ => wrap_int (c + Z.of_nat k) end.
Proof.
  induction k as [|k IH]; intros c; [split; reflexivity|].
  cbn [newIDs]. unfold newID.
  destruct (IH (wrap_int (c + 1))) as [I1 I2].
  destruct (newIDs k (wrap_int (c + 1))) as [rest c2]. cbn [fst snd] in *.
  split.
  - cbn [seq map]. f_equal. rewrite I1, <- (seq_shift k 1), map_map.
    apply map_ext. intros j. rewrite wrap_int_add. f_equal. lia.
  - rewrite I2. destruct k as [|k]; [reflexivity|].
    rewrite wrap_int_add. f_equal. lia.
Qed.

Lemma wrap_int_range z : - 2 ^ 63 <= wrap_int z < 2 ^ 63.
Proof.
  unfold wrap_int.
  pose proof (Z.mod_pos_bound (z + 2 ^ 63) (2 ^ 64) ltac:(lia)). lia.
Qed.

Lemma wrap_int_inj a b :
  wrap_int a = wrap_int b -> - 2 ^ 64 < a - b < 2 ^ 64 -> a = b.
Proof.
  unfold wrap_int. intros H R.
  assert (M : (a + 2 ^ 63) mod 2 ^ 64 = (b + 2 ^ 63) mod 2 ^ 64) by lia.
  pose proof (Z.div_mod (a + 2 ^ 63) (2 ^ 64) ltac:(lia)) as Da.
  pose proof (Z.div_mod (b + 2 ^ 63) (2 ^ 64) ltac:(lia)) as Db.
  assert (Q : (a + 2 ^ 63) / 2 ^ 64 = (b + 2 ^ 63) / 2 ^ 64) by nia.
  lia.
Qed.

Lemma NoDup_map_on {A B : Type} (f : A -> B) (l : list A) :
  (forall x y, In x l -> In y l -> f x = f y -> x = y) ->
  NoDup l -> NoDup (map f l).
Proof.
  induction l as [|a l IH]; intros Inj N; [constructor|].
  inversion N as [|a' l' Na Nl]; subst. simpl. constructor.
  - intros H. apply in_map_iff in H. destruct H as (y & Hy & Iy).
    assert (y = a) by (apply Inj; simpl; auto). subst y. contradiction.
  - apply IH; [|assumption]. intros x y Hx Hy. apply Inj; simpl; auto.
Qed.

(** The identifiers that [newID] hands out never repeat, as long as fewer
    than 2^64 of them are drawn: [k] calls in a row give the [k] successors
    of the counter, wrapped around on 64 bits, and leave the counter at the
    last of them. *)
Theorem newID_never_repeats k c :
  Z.of_nat k <= 2 ^ 64 ->
  NoDup (fst (newIDs k c)) /\
  (forall i, In i (fst (newIDs k c)) -> - 2 ^ 63 <= i < 2 ^ 63) /\
  snd (newIDs k c) = last (fst (newIDs k c)) c.
Proof.
  intros Hk. destruct (newIDs_spec k c) as [I1 I2]. rewrite I1, I2.
  split; [|split].
  - apply NoDup_map_on; [|apply seq_NoDup].
    intros x y Hx Hy H. apply in_seq in Hx, Hy.
    apply wrap_int_inj in H; lia.
  - intros i Hi. apply in_map_iff in Hi. destruct Hi as (j & <- & _).
    apply wrap_int_range.
  - destruct k as [|k]; [reflexivity|].
    rewrite seq_S, map_app. cbn [map]. rewrite last_last. reflexivity.
Qed.

Lemma newID_never_repeats_witness :
  Z.of_nat 3 <= 2 ^ 64 /\
  fst (newIDs 3 (2 ^ 63 - 2)) = [2 ^ 63 - 1; - 2 ^ 63; - 2 ^ 63 + 1] /\
  NoDup (fst (newIDs 3 (2 ^ 63 - 2))).
Proof.
  split; [vm_compute; discriminate|]. split; [vm_compute; reflexivity|].
  apply (newID_never_repeats 3 (2 ^ 63 - 2)). vm_compute. discriminate.
Defined.

(** ** Options of the runtime *)

Lemma NewRuntime_loop_app {F W : Type}
  (opts opts' : list (RuntimeOption F W)) : forall w r,
  NewRuntime_loop (opts ++ opts') w r
  = match NewRuntime_loop opts w r with
    | Some (w', r') => NewRuntime_loop opts' w' r'
    | None => None
    end.
Proof.
  induction opts as [|o opts IH]; intros w r; simpl; [reflexivity|].
  destruct (call o w r) as [[w' r']|]; [apply IH|reflexivity].
Qed.

(** [NewRuntime] calls its options in order on a runtime that starts with
    the zero map, and returns a runtime only when every call returns.  The
    last option decides: after options that all return, a final [WithFuncs]
    gives a runtime with its map and changes nothing else, and after options
    of which one does not return it is never called; with options all made
    by [WithFuncs] the runtime holds the map of the last one, or the zero map
    when there is none; with a nil option, or an option that never returns,
    after options that all return or not, no runtime is returned. *)
Theorem last_option_wins {F W : Type} (zero : F) (w : W) :
  (forall opts f,
     NewRuntime zero (opts ++ [WithFuncs f]) w
     = match NewRuntime zero opts w with
       | Some (w', _) => Some (w', mkRuntime f)
       | None => None
       end) /\
  (forall fs,
     NewRuntime zero (map WithFuncs fs) w
     = Some (w, mkRuntime (last fs zero))) /\
  (forall opts opts',
     NewRuntime zero (opts ++ None :: opts') w = None /\
     NewRuntime zero (opts ++ Some (fun _ _ => None) :: opts') w = None).
Proof.
  split; [|split].
  - intros opts f. unfold NewRuntime. rewrite NewRuntime_loop_app.
    destruct (NewRuntime_loop opts w (mkRuntime zero)) as [[w' r']|];
      reflexivity.
  - intros fs. induction fs as [|f fs IH] using rev_ind; [reflexivity|].
    unfold NewRuntime in *.
    rewrite map_app, NewRuntime_loop_app, IH, last_last. reflexivity.
  - intros opts opts'. unfold NewRuntime.
    split; (etransitivity; [apply NewRuntime_loop_app|]);
      destruct (NewRuntime_loop opts w (mkRuntime zero)) as [[w' r']|];
      reflexivity.
Qed.

(** ** Decoding and encoding runes *)

Lemma EncodeRune_Z r : EncodeRune r = map z2b (EncodeRuneZ r).
Proof.
  unfold EncodeRune, EncodeRuneZ, encode3, encode3Z.
  repeat match goal with
         | |- context [if ?c then _ else _] => destruct c
         end; reflexivity.
Qed.

Lemma zlist_eqb_eq a : forall b, zlist_eqb a b = true -> a = b.
Proof.
  induction a as [|x a IH]; intros [|y b] H; simpl in H; try discriminate;
    [reflexivity|].
  apply andb_prop in H. destruct H as [H1 H2].
  apply Z.eqb_eq in H1. rewrite H1, (IH b H2). reflexivity.
Qed.

Lemma in_zrange lo n z : lo <= z < lo + Z.of_nat n -> In z (zrange lo n).
Proof.
  intros H. unfold zrange. apply in_map_iff.
  exists (Z.to_nat (z - lo)). split; [lia|]. apply in_seq. lia.
Qed.

Lemma between_spec lo x hi : between lo x hi = true -> lo <= x <= hi.
Proof.
  unfold between. intros H. apply andb_prop in H. destruct H as [H1 H2].
  apply Z.leb_le in H1, H2. lia.
Qed.

(** The table of first bytes. *)
Lemma first_range x sz lo hi :
  first x = Some (sz, (lo, hi)) ->
  128 <= lo /\ hi <= 191 /\
  ((sz = 2%nat /\ 194 <= x <= 223) \/ (sz = 3%nat /\ 224 <= x <= 239) \/
   (sz = 4%nat /\ 240 <= x <= 244)).
Proof.
  unfold first.
  destruct (between 194 x 223) eqn:B1;
    [apply between_spec in B1; intros [= <- <- <-]; lia|].
  destruct (Z.eqb_spec x 224); [intros [= <- <- <-]; lia|].
  destruct (between 225 x 236) eqn:B2;
    [apply between_spec in B2; intros [= <- <- <-]; lia|].
  destruct (Z.eqb_spec x 237); [intros [= <- <- <-]; lia|].
  destruct (between 238 x 239) eqn:B3;
    [apply between_spec in B3; intros [= <- <- <-]; lia|].
  destruct (Z.eqb_spec x 240); [intros [= <- <- <-]; lia|].
  destruct (between 241 x 243) eqn:B4;
    [apply between_spec in B4; intros [= <- <- <-]; lia|].
  destruct (Z.eqb_spec x 244); [intros [= <- <- <-]; lia|].
  discriminate.
Qed.

Lemma round2_all :
  forallb (fun p0 => forallb (round2 p0) (zrange 128 64)) (zrange 128 128)
  = true.
Proof. vm_compute. reflexivity. Qed.

Lemma round3_all :
  forallb (fun p0 =>
    forallb (fun p1 => forallb (round3 p0 p1) (zrange 128 64))
      (zrange 128 64)) (zrange 224 16) = true.
Proof. vm_cast_no_check (eq_refl true). Qed.

Lemma round4_all :
  forallb (fun p0 =>
    forallb (fun p1 =>
      forallb (fun p2 => forallb (round4 p0 p1 p2) (zrange 128 64))
        (zrange 128 64)) (zrange 128 64)) (zrange 240 5) = true.
Proof. vm_cast_no_check (eq_refl true). Qed.

Lemma round2_at p0 p1 :
  128 <= p0 < 256 -> 128 <= p1 < 192 -> round2 p0 p1 = true.
Proof.
  intros H0 H1.
  assert (I0 : In p0 (zrange 128 128)) by (apply in_zrange; lia).
  assert (I1 : In p1 (zrange 128 64)) by (apply in_zrange; lia).
  exact (proj1 (forallb_forall _ _)
           (proj1 (forallb_forall _ _) round2_all p0 I0) p1 I1).
Qed.

Lemma round3_at p0 p1 p2 :
  224 <= p0 < 240 -> 128 <= p1 < 192 -> 128 <= p2 < 192 ->
  round3 p0 p1 p2 = true.
Proof.
  intros H0 H1 H2.
  assert (I0 : In p0 (zrange 224 16)) by (apply in_zrange; lia).
  assert (I1 : In p1 (zrange 128 64)) by (apply in_zrange; lia).
  assert (I2 : In p2 (zrange 128 64)) by (apply in_zrange; lia).
  exact (proj1 (forallb_forall _ _)
           (proj1 (forallb_forall _ _)
              (proj1 (forallb_forall _ _) round3_all p0 I0) p1 I1) p2 I2).
Qed.

Lemma round4_at p0 p1 p2 p3 :
  240 <= p0 < 245 -> 128 <= p1 < 192 -> 128 <= p2 < 192 ->
  128 <= p3 < 192 -> round4 p0 p1 p2 p3 = true.
Proof.
  intros H0 H1 H2 H3.
  assert (I0 : In p0 (zrange 240 5)) by (apply in_zrange; lia).
  assert (I1 : In p1 (zrange 128 64)) by (apply in_zrange; lia).
  assert (I2 : In p2 (zrange 128 64)) by (apply in_zrange; lia).
  assert (I3 : In p3 (zrange 128 64)) by (apply in_zrange; lia).
  exact (proj1 (forallb_forall _ _)
           (proj1 (forallb_forall _ _)
              (proj1 (forallb_forall _ _)
                 (proj1 (forallb_forall _ _) round4_all p0 I0) p1 I1) p2 I2)
           p3 I3).
Qed.

Lemma round_trip2 b0 b1 lo hi :
  first (b2z b0) = Some (2%nat, (lo, hi)) ->
  between lo (b2z b1) hi = true ->
  EncodeRune (Z.lor (Z.shiftl (Z.land (b2z b0) 31) 6) (cont b1)) = [b0; b1].
Proof.
  intros Fi B1. destruct (first_range _ _ _ _ Fi) as (Hlo & Hhi & Hx).
  pose proof (between_spec _ _ _ B1) as R1.
  pose proof (round2_at (b2z b0) (b2z b1) ltac:(lia) ltac:(lia)) as A.
  unfold round2 in A. rewrite Fi, B1 in A. apply zlist_eqb_eq in A.
  unfold cont. rewrite EncodeRune_Z, A. cbn [map].
  rewrite !z2b_b2z. reflexivity.
Qed.

Lemma round_trip3 b0 b1 b2 lo hi :
  first (b2z b0) = Some (3%nat, (lo, hi)) ->
  between lo (b2z b1) hi = true -> between 128 (b2z b2) 191 = true ->
  EncodeRune (Z.lor (Z.lor (Z.shiftl (Z.land (b2z b0) 15) 12)
                           (Z.shiftl (cont b1) 6)) (cont b2))
  = [b0; b1; b2].
Proof.
  intros Fi B1 B2. destruct (first_range _ _ _ _ Fi) as (Hlo & Hhi & Hx).
  pose proof (between_spec _ _ _ B1) as R1.
  pose proof (between_spec _ _ _ B2) as R2.
  pose proof (round3_at (b2z b0) (b2z b1) (b2z b2) ltac:(lia) ltac:(lia)
                ltac:(lia)) as A.
  unfold round3 in A. rewrite Fi, B1, B2 in A. apply zlist_eqb_eq in A.
  unfold cont. rewrite EncodeRune_Z, A. cbn [map].
  rewrite !z2b_b2z. reflexivity.
Qed.

Lemma round_trip4 b0 b1 b2 b3 lo hi :
  first (b2z b0) = Some (4%nat, (lo, hi)) ->
  between lo (b2z b1) hi = true -> between 128 (b2z b2) 191 = true ->
  between 128 (b2z b3) 191 = true ->
  EncodeRune (Z.lor (Z.lor (Z.lor (Z.shiftl (Z.land (b2z b0) 7) 18)
                                  (Z.shiftl (cont b1) 12))
                           (Z.shiftl (cont b2) 6)) (cont b3))
  = [b0; b1; b2; b3].
Proof.
  intros Fi B1 B2 B3. destruct (first_range _ _ _ _ Fi) as (Hlo & Hhi & Hx).
  pose proof (between_spec _ _ _ B1) as R1.
  pose proof (between_spec _ _ _ B2) as R2.
  pose proof (between_spec _ _ _ B3) as R3.
  pose proof (round4_at (b2z b0) (b2z b1) (b2z b2) (b2z b3) ltac:(lia)
                ltac:(lia) ltac:(lia) ltac:(lia)) as A.
  unfold round4 in A. rewrite Fi, B1, B2, B3 in A. apply zlist_eqb_eq in A.
  unfold cont. rewrite EncodeRune_Z, A. cbn [map].
  rewrite !z2b_b2z. reflexivity.
Qed.

Lemma DecodeRune_above b0 p1 r w :
  DecodeRune (b0 :: p1) = (r, w) -> (1 < w)%nat -> 128 <= r.
Proof.
  intros D Hw. destruct (Z.lt_ge_cases r 128) as [Hr|]; [|assumption].
  destruct (DecodeRune_small _ _ _ _ D Hr) as (_ & _ & ->). lia.
Qed.

(** A sequence of bytes that [DecodeRune] takes whole is decoded the same
    whatever follows it, to a rune above 127 whose encoding is the
    sequence. *)
Lemma DecodeRune_valid bs rest :
  valid_utf8 bs = true ->
  DecodeRune (bs ++ rest) = (fst (DecodeRune bs), List.length bs) /\
  EncodeRune (fst (DecodeRune bs)) = bs /\ 128 <= fst (DecodeRune bs).
Proof.
  unfold valid_utf8. destruct (DecodeRune bs) as [r w] eqn:D.
  intros V. apply andb_prop in V. destruct V as [Vw V1].
  apply Nat.eqb_eq in Vw. apply Nat.ltb_lt in V1. cbn [fst].
  destruct bs as [|b0 bs1]; [simpl in Vw; lia|].
  split; [|split; [|exact (DecodeRune_above _ _ _ _ D V1)]];
    revert D; unfold DecodeRune;
    (destruct (b2z b0 <? 128) eqn:Lt; [intros [= <- <-]; lia|]);
    (destruct (first (b2z b0)) as [[sz [lo hi]]|] eqn:Fi;
       [|intros [= <- <-]; lia]);
    destruct (first_range _ _ _ _ Fi) as (_ & _ & Hsz);
    (destruct (List.length (b0 :: bs1) <? sz)%nat eqn:Ln;
       [intros [= <- <-]; lia|]);
    apply Nat.ltb_ge in Ln;
    (destruct bs1 as [|b1 bs2]; [intros [= <- <-]; lia|]);
    (destruct (between lo (b2z b1) hi) eqn:B1; cbn [negb];
       [|intros [= <- <-]; lia]);
    destruct Hsz as [(-> & _)|[(-> & _)|(-> & _)]]; cbn [Nat.leb].
  - intros [= <- <-]. destruct bs2; [|simpl in Vw; lia].
    cbn [app List.length]. rewrite Lt, Fi. cbn [Nat.ltb Nat.leb negb].
    rewrite B1. reflexivity.
  - destruct bs2 as [|b2 bs3]; [intros [= <- <-]; lia|].
    destruct (between 128 (b2z b2) 191) eqn:B2; cbn [negb];
      [|intros [= <- <-]; lia].
    intros [= <- <-]. destruct bs3; [|simpl in Vw; lia].
    cbn [app List.length]. rewrite Lt, Fi. cbn [Nat.ltb Nat.leb negb].
    rewrite B1, B2. reflexivity.
  - destruct bs2 as [|b2 bs3]; [intros [= <- <-]; lia|].
    destruct (between 128 (b2z b2) 191) eqn:B2; cbn [negb];
      [|intros [= <- <-]; lia].
    destruct bs3 as [|b3 bs4]; [intros [= <- <-]; lia|].
    destruct (between 128 (b2z b3) 191) eqn:B3; cbn [negb];
      [|intros [= <- <-]; lia].
    intros [= <- <-]. destruct bs4; [|simpl in Vw; lia].
    cbn [app List.length]. rewrite Lt, Fi. cbn [Nat.ltb Nat.leb negb].
    rewrite B1, B2, B3. reflexivity.
  - intros [= <- <-]. destruct bs2; [|simpl in Vw; lia].
    apply (round_trip2 b0 b1 lo hi Fi B1).
  - destruct bs2 as [|b2 bs3]; [intros [= <- <-]; lia|].
    destruct (between 128 (b2z b2) 191) eqn:B2; cbn [negb];
      [|intros [= <- <-]; lia].
    intros [= <- <-]. destruct bs3; [|simpl in Vw; lia].
    apply (round_trip3 b0 b1 b2 lo hi Fi B1 B2).
  - destruct bs2 as [|b2 bs3]; [intros [= <- <-]; lia|].
    destruct (between 128 (b2z b2) 191) eqn:B2; cbn [negb];
      [|intros [= <- <-]; lia].
    destruct bs3 as [|b3 bs4]; [intros [= <- <-]; lia|].
    destruct (between 128 (b2z b3) 191) eqn:B3; cbn [negb];
      [|intros [= <- <-]; lia].
    intros [= <- <-]. destruct bs4; [|simpl in Vw; lia].
    apply (round_trip4 b0 b1 b2 b3 lo hi Fi B1 B2 B3).
Qed.

Lemma DecodeRune_stray b rest :
  128 <= b2z b -> first (b2z b) = None ->
  DecodeRune (b :: rest) = (RuneError, 1%nat).
Proof.
  intros Hb Fi. unfold DecodeRune.
  destruct (Z.ltb_spec (b2z b) 128); [lia|]. rewrite Fi. reflexivity.
Qed.

(** ** String literals *)

Lemma hex_is_no_simple_escape r :
  isHexDigit r = true ->
  (r =? chr "t") = false /\ (r =? chr "r") = false /\ (r =? quote) = false /\
  (r =? chr "'") = false /\ (r =? backslash) = false.
Proof.
  unfold isHexDigit, IndexRune. intros H.
  apply existsb_exists in H. destruct H as (b & Hin & Hb).
  apply Z.eqb_eq in Hb. subst r. vm_compute in Hin.
  repeat (destruct Hin as [<-|Hin]; [vm_compute; intuition reflexivity|]).
  contradiction.
Qed.

Lemma escapeSeq_hex d1 d2 inp p s w st ts c rest :
  isHexDigit (b2z d1) = true -> isHexDigit (b2z d2) = true ->
  skipn p inp = d1 :: d2 :: rest ->
  escapeSeq (mkLexer inp p s w st ts c)
  = (EncodeRune (ParseUint16 [b2z d1; b2z d2]), None,
     mkLexer inp (p + 1 + 1) s 1 st ts c).
Proof.
  intros H1 H2 E. unfold escapeSeq.
  destruct (isHexDigit_ascii _ H1) as (L1 & _ & _).
  destruct (isHexDigit_ascii _ H2) as (L2 & _ & Z2).
  destruct (hex_is_no_simple_escape _ H1) as (N1 & N2 & N3 & N4 & N5).
  rewrite (next_ascii_at _ _ _ _ _ _ _ _ _ E L1).
  rewrite N1, N2, N3, N4, N5, H1.
  rewrite (next_ascii_at _ _ _ _ _ _ _ _ _ (skipn_cons_succ _ _ _ _ E) L2).
  apply Z.eqb_neq in Z2. rewrite Z2, H2. reflexivity.
Qed.

Lemma escapeSeq_simple c v inp p s w st ts c0 rest :
  simple_value c = Some v ->
  skipn p inp = c :: rest ->
  escapeSeq (mkLexer inp p s w st ts c0)
  = ([v], None, mkLexer inp (p + 1) s 1 st ts c0).
Proof.
  intros H E. unfold escapeSeq.
  destruct c; vm_compute in H; try discriminate H; injection H as <-;
    rewrite (next_ascii_at _ _ _ _ _ _ _ _ _ E) by (vm_compute; reflexivity);
    reflexivity.
Qed.

Lemma next_backslash inp p s w st ts c rest :
  skipn p inp = x5c :: rest ->
  next (mkLexer inp p s w st ts c)
  = (backslash, mkLexer inp (p + 1) s 1 st ts c).
Proof.
  intros E.
  rewrite (next_ascii_at _ _ _ _ _ _ _ _ _ E) by (vm_compute; reflexivity).
  reflexivity.
Qed.

Lemma above_is_plain r :
  128 <= r ->
  (r =? backslash) = false /\ (r =? quote) = false /\
  ((r =? eof) || (r =? newline) || (r =? creturn)) = false.
Proof.
  intros H. unfold backslash, quote, eof, newline, creturn.
  repeat split; repeat (apply orb_false_intro); apply Z.eqb_neq; lia.
Qed.

(** One piece of a string literal: its value goes to the builder. *)
Lemma lexString_loop_piece x f b inp p s w st ts c rest :
  well_formed x = true -> skipn p inp = written x ++ rest ->
  exists w',
    lexString_loop (S f) b (mkLexer inp p s w st ts c)
    = lexString_loop f (b ++ value x)
        (mkLexer inp (p + List.length (written x)) s w' st ts c).
Proof.
  intros Wf E. destruct x as [b0|bs|b0|c0|d1 d2|ds]; simpl in Wf, E.
  - exists 1%nat.
    exact (lexString_loop_plain [b0] f b inp p s w st ts c rest Wf E).
  - destruct (DecodeRune_valid bs rest Wf) as (D & En & Ab).
    destruct (above_is_plain _ Ab) as (N1 & N2 & N3).
    exists (List.length bs). cbn [lexString_loop].
    assert (Hne : bs ++ rest <> []).
    { unfold valid_utf8 in Wf. destruct bs; [|discriminate].
      destruct (DecodeRune []) as [r0 w0] eqn:D0. simpl in D0.
      injection D0 as <- <-. discriminate Wf. }
    rewrite (next_rune_at _ _ _ _ _ _ _ _ E Hne), D. cbn [fst snd].
    rewrite N1, N2, N3, En. reflexivity.
  - apply andb_prop in Wf. destruct Wf as [Hb Fi]. apply Z.leb_le in Hb.
    destruct (first (b2z b0)) eqn:Fi'; [discriminate|].
    exists 1%nat. cbn [lexString_loop].
    rewrite (next_rune_at _ _ _ _ _ _ _ _ E) by discriminate.
    change ([b0] ++ rest) with (b0 :: rest).
    rewrite (DecodeRune_stray b0 rest Hb Fi'). reflexivity.
  - destruct (simple_value c0) as [v|] eqn:V; [|discriminate].
    exists 1%nat.
    cbn [lexString_loop]. rewrite (next_backslash _ _ _ _ _ _ _ _ E).
    change (backslash =? backslash) with true. cbv iota.
    rewrite (escapeSeq_simple c0 v _ _ _ _ _ _ _ rest V
               (skipn_cons_succ _ _ _ _ E)).
    cbn [value written List.length]. rewrite V. do 2 f_equal. lia.
  - apply andb_prop in Wf. destruct Wf as [H1 H2].
    exists 1%nat.
    cbn [lexString_loop]. rewrite (next_backslash _ _ _ _ _ _ _ _ E).
    change (backslash =? backslash) with true. cbv iota.
    rewrite (escapeSeq_hex d1 d2 _ _ _ _ _ _ _ rest H1 H2
               (skipn_cons_succ _ _ _ _ E)).
    cbn [value written List.length]. do 2 f_equal. lia.
  - apply andb_prop in Wf. destruct Wf as [Hn Hh]. apply Nat.leb_le in Hn.
    assert (E' : skipn p inp = x5c :: x75 :: x7b :: ds ++ x7d :: rest).
    { rewrite E. simpl. rewrite <- app_assoc. reflexivity. }
    exists 1%nat.
    rewrite (lexString_loop_unicode f b ds inp p s w st ts c rest Hn Hh E').
    cbn [value written List.length]. rewrite length_app. simpl.
    do 2 f_equal. lia.
Qed.

Lemma lexString_loop_pieces ps : forall f b inp p s w st ts c rest,
  forallb well_formed ps = true -> skipn p inp = source ps ++ rest ->
  exists w',
    lexString_loop (List.length ps + f) b (mkLexer inp p s w st ts c)
    = lexString_loop f (b ++ payload_of ps)
        (mkLexer inp (p + List.length (source ps)) s w' st ts c).
Proof.
  induction ps as [|x ps IH]; intros f b inp p s w st ts c rest Wf E.
  - exists w. simpl. rewrite Nat.add_0_r, app_nil_r. reflexivity.
  - simpl in Wf. apply andb_prop in Wf. destruct Wf as [Wx Wf].
    unfold source, payload_of in *. simpl in E. rewrite <- app_assoc in E.
    simpl List.length. cbn [Nat.add].
    destruct (lexString_loop_piece x (List.length ps + f) b inp p s w st ts c
                _ Wx E) as [w1 P1].
    destruct (IH f (b ++ value x) inp (p + List.length (written x))%nat s w1
                st ts c rest Wf (skipn_app_length _ _ _ _ E)) as [w2 P2].
    exists w2. rewrite P1, P2. simpl. rewrite length_app, <- app_assoc.
    do 2 f_equal. lia.
Qed.

Lemma lexString_within ps inp p s st ts c rest :
  forallb well_formed ps = true ->
  skipn p inp = source ps ++ x22 :: rest ->
  within (S (List.length ps))
    (fun F => lexString F (mkLexer inp p s 1 st ts c))
    (Some StDefault,
     mkLexer inp (p + List.length (source ps) + 1)
       (p + List.length (source ps) + 1) 1 st
       (ts ++ [tok tokenString (payload_of ps)]) c).
Proof.
  intros Wf E F HF. unfold lexString.
  replace F with (List.length ps + S (F - List.length ps - 1))%nat by lia.
  destruct (lexString_loop_pieces ps (S (F - List.length ps - 1)) [] inp p s
              1%nat st ts c _ Wf E) as [w' P].
  rewrite P.
  rewrite (lexString_loop_quote _ _ inp _ s _ st ts c rest
             (skipn_app_length _ _ _ _ E)).
  reflexivity.
Qed.

(** A string literal is a quote, pieces and a quote; its token holds the
    values of the pieces one after the other: plain bytes and runes of
    several bytes as they are, the encoding of U+FFFD for a byte that
    cannot start a rune, and the values of the escapes.  The scan goes on
    right after the closing quote, whatever comes there. *)
Theorem string_literal_is_scanned ws ps rest fuel ts :
  all_space ws = true -> forallb well_formed ps = true ->
  scan_input fuel rest = Some ts ->
  scan_input (List.length ws + List.length ps + fuel + 5)
    (ws ++ (x22 :: source ps ++ [x22]) ++ rest)
  = Some (tok tokenString (payload_of ps) :: ts).
Proof.
  intros A Wf Hs. unfold scan_input. rewrite app_assoc.
  set (atom := x22 :: source ps ++ [x22]).
  set (inp := (ws ++ atom) ++ rest).
  assert (E0 : skipn 0 inp = ws ++ atom ++ rest)
    by (unfold inp; rewrite <- app_assoc; reflexivity).
  assert (E : skipn (0 + List.length ws) inp = x22 :: source ps ++ x22 :: rest).
  { unfold inp. rewrite skipn_atom. unfold atom. simpl.
    rewrite <- app_assoc. reflexivity. }
  assert (La : List.length atom = (1 + List.length (source ps) + 1)%nat).
  { unfold atom. simpl. rewrite length_app. simpl. lia. }
  assert (W : within
                (S (Nat.max (S (Nat.max (List.length ws + 1)
                                  (S (S (List.length ps))))) fuel))
                (fun F => scan F (NewLexer inp))
                (tok tokenString (payload_of ps) :: ts)); [|apply W; lia].
  apply (scan_token_then_within _ (ws ++ atom) rest 1 _ fuel ts);
    [|reflexivity|exact Hs].
  fold inp. rewrite length_pre, La.
  replace (List.length ws + (1 + List.length (source ps) + 1))%nat
    with (List.length ws + 1 + List.length (source ps) + 1)%nat by lia.
  apply (nextToken_handed_within (List.length ws + 1) (S (List.length ps)) inp
           0 0 0 StString (List.length ws + 1) (List.length ws) 1
           (Some StDefault)
           (mkLexer inp (List.length ws + 1 + List.length (source ps) + 1)
              (List.length ws + 1 + List.length (source ps) + 1) 1
              (Some StString) [tok tokenString (payload_of ps)] false)).
  - apply (lexDefault_skip_within ws 1 _ inp 0 0 0 _ _ _ _ A E0).
    apply within_S. intros k.
    rewrite (lexDefault_quote _ _ _ _ _ _ _ _ _ E), start_after_space.
    reflexivity.
  - cbn [run].
    apply (lexString_within ps inp (List.length ws + 1) (List.length ws)
             (Some StString) [] false rest Wf).
    apply (skipn_cons_succ _ _ _ _ E).
  - reflexivity.
Qed.

Lemma string_literal_is_scanned_witness :
  forallb well_formed
    [Plain x61; Utf8 [xc3; xa9]; Stray xff; Simple x74; Hex x34 x31;
     Uni (bytes "e9")] = true /\
  scan_input 4 [x29] = Some [tok tokenRParen [x29]; tok tokenEOF []] /\
  scan_input 16
    ([x20] ++ (x22 :: source [Plain x61; Utf8 [xc3; xa9]; Stray xff;
                              Simple x74; Hex x34 x31; Uni (bytes "e9")]
                 ++ [x22]) ++ [x29])
  = Some [tok tokenString
            [x61; xc3; xa9; xef; xbf; xbd; x09; x41; xc3; xa9];
          tok tokenRParen [x29]; tok tokenEOF []].
Proof.
  assert (H : scan_input 4 [x29] = Some [tok tokenRParen [x29]; tok tokenEOF []])
    by (vm_compute; reflexivity).
  split; [reflexivity|]. split; [exact H|].
  exact (string_literal_is_scanned [x20]
           [Plain x61; Utf8 [xc3; xa9]; Stray xff; Simple x74; Hex x34 x31;
            Uni (bytes "e9")] [x29] 4 _ eq_refl eq_refl H).
Defined.




(** ** Nested block comments *)

Lemma peek_at inp p s w st ts c rest :
  skipn p inp = rest ->
  peek (mkLexer inp p s w st ts c)
  = (first_rune rest, mkLexer inp p s w st ts c).
Proof.
  intros E. unfold peek. cbn [width]. rewrite (next_at _ _ _ _ _ _ _ _ E).
  rewrite backup_by. reflexivity.
Qed.

Lemma first_rune_ascii b rest : b2z b < 128 -> first_rune (b :: rest) = b2z b.
Proof.
  intros H. unfold first_rune, DecodeRune.
  apply Z.ltb_lt in H. rewrite H. reflexivity.
Qed.

Lemma closes_done level t : level <= 0 -> closes level t = Some 0%nat.
Proof.
  intros H. apply Z.leb_le in H. destruct t; simpl; rewrite H; reflexivity.
Qed.

Lemma lexBlockComment_loop_over F level l :
  level <= 0 -> lexBlockComment_loop F level l = Some l.
Proof.
  intros H. apply Z.leb_le in H. destruct F; simpl; rewrite H; reflexivity.
Qed.

(** What one round of the loop does to the level, the byte read being [b]
    and the rune after it [ahead]. *)
Lemma lexBlockComment_loop_step F level inp p s w st ts c b rest :
  0 < level -> skipn p inp = b :: rest -> b2z b < 128 ->
  lexBlockComment_loop (S F) level (mkLexer inp p s w st ts c)
  = lexBlockComment_loop F
      (if b2z b =? chr "(" then
         if first_rune rest =? chr ";" then level + 1 else level
       else if b2z b =? chr ";" then
         if first_rune rest =? chr ")" then level - 1 else level
       else level)
      (mkLexer inp (p + 1) s 1 st ts c).
Proof.
  intros Hl E Hb. cbn [lexBlockComment_loop].
  destruct (Z.leb_spec level 0); [lia|].
  rewrite (next_ascii_at _ _ _ _ _ _ _ _ _ E Hb).
  rewrite (peek_at _ _ _ _ _ _ _ _ (skipn_cons_succ _ _ _ _ E)).
  destruct (b2z b =? chr "("); [reflexivity|].
  destruct (b2z b =? chr ";"); reflexivity.
Qed.

Lemma lexBlockComment_loop_closes t : forall level n inp p s w st ts c more F,
  ascii_without [] t = true -> closes level t = Some n ->
  skipn p inp = t ++ more -> (n <= F)%nat ->
  lexBlockComment_loop F level (mkLexer inp p s w st ts c)
  = Some (mkLexer inp (p + n) s (match n with O => w | _ => 1%nat end)
            st ts c).
Proof.
  induction t as [|b t IH]; intros level n inp p s w st ts c more F A H E HF;
    cbn [closes] in H; destruct (Z.leb_spec level 0) as [Hle|Hgt].
  - injection H as <-. rewrite Nat.add_0_r.
    apply lexBlockComment_loop_over. assumption.
  - discriminate H.
  - injection H as <-. rewrite Nat.add_0_r.
    apply lexBlockComment_loop_over. assumption.
  - apply ascii_without_cons in A. destruct A as (Hb & _ & A).
    destruct (closes _ t) as [n'|] eqn:C; [|discriminate H].
    simpl in H. injection H as <-.
    destruct F as [|F]; [lia|].
    rewrite (lexBlockComment_loop_step F level inp p s w st ts c b (t ++ more)
               Hgt E Hb).
    destruct t as [|c0 t'].
    + exfalso.
      destruct (b2z b =? chr "("); [|destruct (b2z b =? chr ";")];
        simpl in C; (destruct (Z.leb_spec level 0); [lia|discriminate C]).
    + pose proof A as A'. apply ascii_without_cons in A'.
      destruct A' as (Hc & _ & _).
      change ((c0 :: t') ++ more) with (c0 :: t' ++ more).
      rewrite (first_rune_ascii c0 (t' ++ more) Hc).
      rewrite (IH _ n' inp (p + 1)%nat s 1%nat st ts c more F A C
                 (skipn_cons_succ _ _ _ _ E) ltac:(lia)).
      replace (p + 1 + n')%nat with (p + S n')%nat by lia.
      destruct n'; reflexivity.
Qed.

Lemma lexBlockComment_loop_open t : forall level inp p s w st ts c F,
  0 < level -> ascii_without [] t = true -> closes level t = None ->
  skipn p inp = t ->
  lexBlockComment_loop F level (mkLexer inp p s w st ts c) = None.
Proof.
  induction t as [|b t IH]; intros level inp p s w st ts c F Hl A H E.
  - apply lexBlockComment_loop_spins; [assumption|].
    cbn [pos input]. rewrite E. reflexivity.
  - destruct F as [|F];
      [simpl; destruct (Z.leb_spec level 0); [lia|reflexivity]|].
    apply ascii_without_cons in A. destruct A as (Hb & _ & A).
    rewrite (lexBlockComment_loop_step F level inp p s w st ts c b t Hl E Hb).
    cbn [closes] in H. destruct (Z.leb_spec level 0); [lia|].
    assert (Ah : first_rune t = match t with c0 :: _ => b2z c0 | [] => eof end).
    { destruct t as [|c0 t']; [reflexivity|].
      apply ascii_without_cons in A. destruct A as (Hc & _ & _).
      apply first_rune_ascii. assumption. }
    rewrite Ah.
    match type of H with
    | context [closes ?lv t] =>
      destruct (closes lv t) as [n'|] eqn:C; [discriminate H|];
      assert (Hlv : 0 < lv)
        by (destruct (Z.lt_ge_cases 0 lv) as [|Hle]; [assumption|];
            rewrite (closes_done lv t Hle) in C; discriminate C)
    end.
    apply IH; [exact Hlv|assumption|exact C|].
    apply (skipn_cons_succ _ _ _ _ E).
Qed.

Lemma ascii_without_app cs a b :
  ascii_without cs a = true -> ascii_without cs b = true ->
  ascii_without cs (a ++ b) = true.
Proof.
  unfold ascii_without. rewrite forallb_app. intros -> ->. reflexivity.
Qed.

(** A block comment that closes, nested or not, is not skipped: the loop of
    [lexBlockComment] stops in front of the last parenthesis with [start]
    still at the first one, so [lexDefault] sends a right-parenthesis token
    whose payload is the whole comment. *)
Theorem block_comment_is_a_right_parenthesis ws t rest fuel ts :
  all_space ws = true -> ascii_without [] t = true ->
  closes 1 (t ++ [x29]) = Some (List.length t) ->
  scan_input fuel rest = Some ts ->
  scan_input (List.length ws + List.length t + fuel + 6)
    (ws ++ (x28 :: x3b :: t ++ [x29]) ++ rest)
  = Some (tok tokenRParen (x28 :: x3b :: t ++ [x29]) :: ts).
Proof.
  intros A At C Hs. unfold scan_input. rewrite app_assoc.
  set (atom := x28 :: x3b :: t ++ [x29]).
  set (inp := (ws ++ atom) ++ rest).
  assert (E0 : skipn 0 inp = ws ++ atom ++ rest)
    by (unfold inp; rewrite <- app_assoc; reflexivity).
  assert (E : skipn (0 + List.length ws) inp
              = x28 :: x3b :: (t ++ [x29]) ++ rest)
    by (unfold inp; rewrite skipn_atom; reflexivity).
  pose proof (skipn_cons_succ _ _ _ _ E) as E1.
  pose proof (skipn_cons_succ _ _ _ _ E1) as E2.
  assert (E3 : skipn (0 + List.length ws + 1 + 1 + List.length t) inp
               = x29 :: rest).
  { rewrite <- app_assoc in E2. apply (skipn_app_length _ _ _ _ E2). }
  assert (La : List.length atom = (1 + 1 + List.length t + 1)%nat).
  { unfold atom. simpl. rewrite length_app. simpl. lia. }
  assert (W : within
                (S (Nat.max
                      (S (Nat.max (List.length ws + 1)
                            (S (Nat.max (List.length t) 2)))) fuel))
                (fun F => scan F (NewLexer inp)) (tok tokenRParen atom :: ts));
    [|apply W; lia].
  apply (scan_token_then_within _ (ws ++ atom) rest 1 _ fuel ts);
    [|reflexivity|exact Hs].
  fold inp. rewrite length_pre, La.
  replace (List.length ws + (1 + 1 + List.length t + 1))%nat
    with (0 + List.length ws + 1 + 1 + List.length t + 1)%nat by lia.
  apply (nextToken_silent_within (List.length ws + 1) _ inp 0 0 0 StDefault
           StBlockComment (0 + List.length ws + 1) (List.length ws) 1).
  - cbn [run]. apply (lexDefault_skip_within ws 1 _ inp 0 0 0 _ _ _ _ A E0).
    apply within_S. intros k.
    rewrite (lexDefault_open_comment _ _ _ _ _ _ _ _ _ E), start_after_space.
    reflexivity.
  - apply (nextToken_silent_within (List.length t) 2 inp _ _ 1 StBlockComment
             StDefault (0 + List.length ws + 1 + 1 + List.length t)
             (List.length ws) 1).
    + cbn [run]. intros F HF. unfold lexBlockComment.
      rewrite (accept_semicolon _ _ _ _ _ _ _ _ E1).
      rewrite (lexBlockComment_loop_closes (t ++ [x29]) 1 (List.length t) inp
                 _ _ 1%nat _ _ _ rest F
                 (ascii_without_app [] t [x29] At eq_refl) C E2 HF).
      destruct (List.length t); reflexivity.
    + replace (tok tokenRParen atom)
        with (tok tokenRParen
                (slice inp (List.length ws)
                   (0 + List.length ws + 1 + 1 + List.length t + 1))).
      * apply (nextToken_sent_within 1 inp _ (List.length ws) 1 StDefault
                 (Some StDefault)
                 (mkLexer inp (0 + List.length ws + 1 + 1 + List.length t + 1)
                    (0 + List.length ws + 1 + 1 + List.length t + 1) 1
                    (Some StDefault)
                    [tok tokenRParen
                       (slice inp (List.length ws)
                          (0 + List.length ws + 1 + 1 + List.length t + 1))]
                    false)); [|reflexivity].
        cbn [run]. apply within_S. intros k.
        rewrite (lexDefault_rparen _ _ _ _ _ _ _ _ _ E3). reflexivity.
      * f_equal.
        replace (0 + List.length ws + 1 + 1 + List.length t + 1)%nat
          with (List.length ws + List.length atom)%nat by lia.
        apply slice_atom.
Qed.

Lemma block_comment_is_a_right_parenthesis_witness :
  closes 1 (bytes "a (; b ;) c ;" ++ [x29])
  = Some (List.length (bytes "a (; b ;) c ;")) /\
  scan_input 3 [] = Some [tok tokenEOF []] /\
  scan_input 22 ([] ++ (x28 :: x3b :: bytes "a (; b ;) c ;" ++ [x29]) ++ [])
  = Some [tok tokenRParen (x28 :: x3b :: bytes "a (; b ;) c ;" ++ [x29]);
          tok tokenEOF []].
Proof.
  assert (H : scan_input 3 [] = Some [tok tokenEOF []])
    by (vm_compute; reflexivity).
  split; [reflexivity|]. split; [exact H|].
  exact (block_comment_is_a_right_parenthesis [] (bytes "a (; b ;) c ;") [] 3
           _ eq_refl eq_refl eq_refl H).
Defined.

Lemma nextToken_unbalanced fuel t :
  ascii_without [] t = true -> closes 1 t = None ->
  nextToken fuel (NewLexer (x28 :: x3b :: t)) = None.
Proof.
  intros A C.
  assert (E : skipn 0 (x28 :: x3b :: t) = x28 :: x3b :: t) by reflexivity.
  destruct fuel as [|[|f]]; [reflexivity|reflexivity|].
  unfold NewLexer. rewrite (nextToken_run _ _ StDefault) by reflexivity.
  cbn [run]. rewrite (lexDefault_open_comment _ _ _ _ _ _ _ _ _ E).
  rewrite set_state_at.
  rewrite (nextToken_run _ _ StBlockComment) by reflexivity.
  cbn [run]. unfold lexBlockComment.
  rewrite (accept_semicolon _ _ _ _ _ _ _ _ (skipn_cons_succ _ _ _ _ E)).
  rewrite (lexBlockComment_loop_open t 1 (x28 :: x3b :: t) (0 + 1 + 1) _ _ _
             _ _ f ltac:(lia) A C eq_refl).
  reflexivity.
Qed.

(** A block comment whose level never comes down to zero before the end of
    the input is no error: the loop of [lexBlockComment] goes on reading at
    the end of the input, so the scan and [Parse] never return. *)
Theorem unbalanced_block_comment_never_returns t fuel :
  ascii_without [] t = true -> closes 1 t = None ->
  scan_input fuel (x28 :: x3b :: t) = None /\
  forall c, Parse fuel (NewParser (x28 :: x3b :: t)) c = None.
Proof.
  intros A C. split.
  - unfold scan_input. destruct fuel as [|f]; [reflexivity|].
    cbn [scan]. rewrite (nextToken_unbalanced f t A C). reflexivity.
  - intros c. unfold Parse, NewParser. cbn [lex].
    destruct (NewNode OpStart EmptyString [None] c) as [n c'].
    destruct fuel as [|f]; [reflexivity|].
    cbn [Parse_loop]. rewrite (nextToken_unbalanced f t A C). reflexivity.
Qed.

Lemma unbalanced_block_comment_never_returns_witness :
  closes 1 (bytes " (; a ;) b") = None /\
  forall fuel, scan_input fuel (x28 :: x3b :: bytes " (; a ;) b") = None.
Proof.
  split; [reflexivity|].
  intros fuel.
  exact (proj1 (unbalanced_block_comment_never_returns (bytes " (; a ;) b")
                  fuel eq_refl eq_refl)).
Defined.

(** ** An atom right after a line comment *)

Lemma beqb_true a b : beqb a b = true -> a = b.
Proof.
  unfold beqb. intros H. apply String.eqb_eq in H.
  rewrite <- (list_byte_of_string_of_list_byte a),
          <- (list_byte_of_string_of_list_byte b), H.
  reflexivity.
Qed.

Lemma assoc_key_of tbl : forall w k,
  assoc tbl w = Some k -> In w (map (fun e => bytes (fst e)) tbl).
Proof.
  induction tbl as [|[s v] tbl IH]; simpl; intros w k H; [discriminate|].
  destruct (beqb (bytes s) w) eqn:E; [left; apply beqb_true; exact E|].
  right. exact (IH w k H).
Qed.

Lemma no_key_after_semicolon w : assoc key (x3b :: w) = None.
Proof.
  destruct (assoc key (x3b :: w)) as [k|] eqn:E; [|reflexivity].
  apply assoc_key_of in E.
  assert (A : forallb (fun e => match e with
                                | b :: _ => negb (Byte.eqb b x3b)
                                | [] => true
                                end)
                (map (fun e => bytes (fst e)) key) = true)
    by (vm_compute; reflexivity).
  pose proof (proj1 (forallb_forall _ _) A _ E) as H.
  discriminate H.
Qed.

Lemma length_comment (body atom : list byte) :
  List.length ((x3b :: x3b :: body ++ [x0a]) ++ atom)
  = (2 + List.length body + 1 + List.length atom)%nat.
Proof. simpl. rewrite !length_app. simpl. lia. Qed.

Lemma skipn_comment (body atom rest : list byte) :
  skipn (2 + List.length body + 1)
    (((x3b :: x3b :: body ++ [x0a]) ++ atom) ++ rest) = atom ++ rest.
Proof.
  replace (2 + List.length body + 1)%nat
    with (0 + List.length (x3b :: x3b :: body ++ [x0a]))%nat
    by (simpl; rewrite length_app; simpl; lia).
  apply skipn_atom.
Qed.

Lemma comment_input (body atom rest : list byte) :
  ((x3b :: x3b :: body ++ [x0a]) ++ atom) ++ rest
  = x3b :: x3b :: body ++ x0a :: atom ++ rest.
Proof. simpl. rewrite <- !app_assoc. reflexivity. Qed.

(** An atom that the state function [st1] reads right after a line comment:
    the token it sends begins at the first semicolon. *)
Lemma scan_after_comment_within B st1 k body atom rest F ts :
  free_of [eof; newline] body = true ->
  (forall inp p, skipn p inp = atom ++ rest ->
     within 1
       (fun f => lexDefault f (mkLexer inp p 0 1 (Some StDefault) [] false))
       (Some st1, mkLexer inp p 0 1 (Some StDefault) [] false)) ->
  (forall inp p, skipn p inp = atom ++ rest ->
     slice inp 0 (p + List.length atom)
     = (x3b :: x3b :: body ++ [x0a]) ++ atom ->
     within B
       (fun f => run f st1 (mkLexer inp p 0 1 (Some st1) [] false))
       (Some StDefault,
        mkLexer inp (p + List.length atom) (p + List.length atom)
          (end_width rest) (Some st1)
          [tok k ((x3b :: x3b :: body ++ [x0a]) ++ atom)] false)) ->
  stops (tok k ((x3b :: x3b :: body ++ [x0a]) ++ atom)) = false ->
  scan_input F rest = Some ts ->
  within (List.length body + B + F + 6)
    (fun F' => scan F'
       (NewLexer (((x3b :: x3b :: body ++ [x0a]) ++ atom) ++ rest)))
    (tok k ((x3b :: x3b :: body ++ [x0a]) ++ atom) :: ts).
Proof.
  intros Fr D R St Hs.
  set (pre := (x3b :: x3b :: body ++ [x0a]) ++ atom).
  pose proof (skipn_comment body atom rest) as E. fold pre in E.
  pose proof (length_comment body atom) as Lp. fold pre in Lp.
  eapply within_weaken.
  - apply (scan_token_then_within
             (List.length body + 3 + S (Nat.max 1 (S B)))
             pre rest (end_width rest) _ F ts); [|exact St|exact Hs].
    unfold pre at 1. rewrite comment_input.
    apply (nextToken_comment_within body (x0a :: atom ++ rest) _ _ Fr eq_refl).
    rewrite <- comment_input. fold pre.
    change (end_width (x0a :: atom ++ rest)) with 1%nat.
    assert (Sl : slice (pre ++ rest) 0
                   (2 + List.length body + 1 + List.length atom) = pre)
      by (rewrite <- Lp; apply slice_prefix).
    rewrite Lp.
    apply (nextToken_handed_within 1 B (pre ++ rest)
             (2 + List.length body + 1) 0 1 st1
             (2 + List.length body + 1) 0 1
             (Some StDefault)
             (mkLexer (pre ++ rest)
                (2 + List.length body + 1 + List.length atom)
                (2 + List.length body + 1 + List.length atom)
                (end_width rest) (Some st1)
                [tok k pre] false)).
    + exact (D _ _ E).
    + exact (R _ _ E Sl).
    + reflexivity.
  - lia.
Qed.

(** C4 (code defect).  [lexComment] goes back to [lexDefault] without
    [ignore], so [start] stays in front of the comment: an identifier or a
    word that comes directly after a line comment is sent with the whole
    comment in front of it in its payload, not with the bytes of the atom.
    Such a word begins with a semicolon for [lexKeyword], so it is never a
    word of the table either: even [func] gets the generic kind. *)
Theorem atom_after_line_comment_is_not_its_span body rest fuel ts :
  free_of [eof; newline] body = true ->
  scan_input fuel rest = Some ts ->
  (forall name,
     run_of idChar name = true -> name <> [] -> stop_at idChar rest = true ->
     scan_input (List.length body + List.length name + fuel + 8)
       (x3b :: x3b :: body ++ x0a :: (x24 :: name) ++ rest)
     = Some (tok tokenIdent (x3b :: x3b :: body ++ x0a :: x24 :: name) :: ts)
     /\ x3b :: x3b :: body ++ x0a :: x24 :: name <> x24 :: name) /\
  (forall word,
     is_word word = true -> stop_at keyword rest = true ->
     scan_input (List.length body + List.length word + fuel + 7)
       (x3b :: x3b :: body ++ x0a :: word ++ rest)
     = Some (tok tokenKeyword (x3b :: x3b :: body ++ x0a :: word) :: ts)
     /\ x3b :: x3b :: body ++ x0a :: word <> word).
Proof.
  intros Fr Hs.
  assert (Ne : forall atom : list byte,
             x3b :: x3b :: body ++ x0a :: atom <> atom).
  { intros atom H. apply (f_equal (@List.length byte)) in H.
    simpl in H. rewrite length_app in H. simpl in H. lia. }
  assert (Sh : forall atom : list byte,
             x3b :: x3b :: body ++ x0a :: atom
             = (x3b :: x3b :: body ++ [x0a]) ++ atom).
  { intros atom. simpl. rewrite <- app_assoc. reflexivity. }
  split.
  - intros name R Hne V. split; [|apply Ne].
    unfold scan_input.
    rewrite (Sh (x24 :: name)), <- (comment_input body (x24 :: name) rest).
    assert (W : within (List.length body + S (S (List.length name)) + fuel + 6)
                  (fun F' => scan F'
                     (NewLexer (((x3b :: x3b :: body ++ [x0a])
                                 ++ x24 :: name) ++ rest)))
                  (tok tokenIdent ((x3b :: x3b :: body ++ [x0a])
                                   ++ x24 :: name) :: ts)); [|apply W; lia].
    apply (scan_after_comment_within (S (S (List.length name))) StIdentifier
             tokenIdent body (x24 :: name) rest fuel ts Fr);
      [| |reflexivity|exact Hs].
    + intros inp p E. apply within_S. intros f.
      exact (lexDefault_to_identifier _ _ _ _ _ _ _ _ _ E).
    + intros inp p E Sl. cbn [run]. rewrite <- Sl.
      exact (lexIdentifier_within name rest inp p 0 1 (Some StIdentifier) []
               false R Hne V E).
  - intros word Hw V. split; [|apply Ne].
    destruct word as [|b word']; [discriminate Hw|].
    unfold is_word in Hw. apply andb_prop in Hw. destruct Hw as [LL R].
    set (word := b :: word') in *.
    unfold scan_input.
    rewrite (Sh word), <- (comment_input body word rest).
    assert (W : within (List.length body + S (List.length word) + fuel + 6)
                  (fun F' => scan F'
                     (NewLexer (((x3b :: x3b :: body ++ [x0a]) ++ word)
                                ++ rest)))
                  (tok tokenKeyword ((x3b :: x3b :: body ++ [x0a]) ++ word)
                   :: ts)); [|apply W; lia].
    apply (scan_after_comment_within (S (List.length word)) StKeyword
             tokenKeyword body word rest fuel ts Fr);
      [| |reflexivity|exact Hs].
    + intros inp p E. apply within_S. intros f.
      exact (lexDefault_to_keyword _ _ _ _ _ _ _ _ b (word' ++ rest) E LL).
    + intros inp p E Sl. cbn [run].
      pose proof (lexKeyword_within word rest inp p 0 1 (Some StKeyword) []
                    false R V E) as K.
      rewrite Sl in K. unfold word_kind in K.
      change ((x3b :: x3b :: body ++ [x0a]) ++ word)
        with (x3b :: (x3b :: body ++ [x0a]) ++ word) in K at 1.
      rewrite no_key_after_semicolon in K. exact K.
Qed.

Lemma atom_after_line_comment_is_not_its_span_witness :
  free_of [eof; newline] (bytes " c") = true /\
  scan_input 3 [] = Some [tok tokenEOF []] /\
  scan_input 14 (x3b :: x3b :: bytes " c" ++ x0a :: (x24 :: bytes "f") ++ [])
  = Some [tok tokenIdent (x3b :: x3b :: bytes " c" ++ x0a :: x24 :: bytes "f");
          tok tokenEOF []] /\
  scan_input 16 (x3b :: x3b :: bytes " c" ++ x0a :: bytes "func" ++ [])
  = Some [tok tokenKeyword (x3b :: x3b :: bytes " c" ++ x0a :: bytes "func");
          tok tokenEOF []].
Proof.
  assert (H : scan_input 3 [] = Some [tok tokenEOF []])
    by (vm_compute; reflexivity).
  split; [reflexivity|]. split; [exact H|].
  destruct (atom_after_line_comment_is_not_its_span (bytes " c") [] 3 _
              eq_refl H) as [A B].
  split.
  - exact (proj1 (A (bytes "f") eq_refl ltac:(discriminate) eq_refl)).
  - exact (proj1 (B (bytes "func") eq_refl eq_refl)).
Defined.
